(** * A shallow embedding of [parser.py]: the JSON scanner and the
      recursive-descent parser, with the properties of its specification.

    Conventions of the embedding.

    - A Python [str] is a sequence of characters; the input text is a
      [list ascii] (code points 0..255, read as Latin-1) and the strings
      stored in tokens, keys and messages are [string].  A one-character
      string (the result of [advance]) is an [ascii]; the result of [peek],
      which is a one-character string or the empty string, is an
      [option ascii] with [None] for the empty string.
    - The methods of [Scanner] and [Parser] mutate [self.current]; here every
      method is a function from the object's state to an [outcome] that
      carries the result together with the new state.
    - A raised exception is [Raise]; nothing in [parser.py] catches one, so
      the first exception ends the whole call.  Indexing a list or a string
      out of range raises [IndexError].
    - A [while] loop is a recursive function with a fuel argument; running
      out of fuel is the separate outcome [OutOfFuel], which the callers'
      amounts of fuel never reach ([scan_tokens_total], [parse_total],
      [parse_json_total]).
      The interpreter's recursion limit is not modelled; its limit on the
      number of digits of [int()] is, at its default value
      ([int_max_str_digits]). *)

From Stdlib Require Import ZArith String Ascii List Lia SpecFloat.
From stdpp Require Import base option numbers list strings.

Set Warnings "-register-all".

Local Open Scope string_scope.
Local Open Scope list_scope.

(** ** Exceptions and outcomes *)

Inductive exn : Type :=
| ValueError (msg : string)
| IndexError.

Inductive outcome (A : Type) : Type :=
| Ok (a : A)
| Raise (e : exn)
| OutOfFuel.

Arguments Ok {A} a.
Arguments Raise {A} e.
Arguments OutOfFuel {A}.

(** A method of an object with state [St] returning an [A]. *)
Definition M (St A : Type) : Type := St -> outcome (A * St).

Definition ret {St A} (a : A) : M St A := fun s => Ok (a, s).

Definition bind {St A B} (c : M St A) (k : A -> M St B) : M St B :=
  fun s =>
    match c s with
    | Ok (a, s') => k a s'
    | Raise e => Raise e
    | OutOfFuel => OutOfFuel
    end.

Definition raise {St A} (e : exn) : M St A := fun _ => Raise e.

Definition out_of_fuel {St A} : M St A := fun _ => OutOfFuel.

Definition get {St} : M St St := fun s => Ok (s, s).

Notation "'let*' x ':=' c 'in' k" := (bind c (fun x => k))
  (at level 10, x binder, c at level 200, k at level 200).

(** ** Data model *)

(** The string constants of [class TokenType]. *)
Module TokenType.
Definition STRING : string := "STRING".
Definition NUMBER : string := "NUMBER".
Definition BOOLEAN : string := "BOOLEAN".
Definition NULL : string := "NULL".
Definition LEFT_BRACE : string := "{".
Definition RIGHT_BRACE : string := "}".
Definition LEFT_BRACKET : string := "[".
Definition RIGHT_BRACKET : string := "]".
Definition COMMA : string := ",".
Definition COLON : string := ":".
Definition EOF : string := "EOF".
End TokenType.

(** [Union[str, int, float, bool, None]], the values a token carries.  A
    Python [float] is an IEEE 754 binary64 number. *)
Inductive Literal : Type :=
| LStr (s : string)
| LInt (z : Z)
| LFloat (f : spec_float)
| LBool (b : bool)
| LNone.

(** [class Token]. *)
Record Token : Type := mkToken { type : string; value : Literal }.

(** [JsonValue = Union[dict, list, str, int, float, bool, None]].  A [dict]
    keeps its keys in insertion order, so it is a list of bindings with
    pairwise different keys. *)
Inductive JsonValue : Type :=
| JLit (l : Literal)
| JList (items : list JsonValue)
| JDict (bindings : list (Literal * JsonValue)).

#[global] Instance spec_float_eq_dec : EqDecision spec_float.
Proof. solve_decision. Defined.

#[global] Instance Literal_eq_dec : EqDecision Literal.
Proof. solve_decision. Defined.

(** [obj[key] = v] on a [dict]: an existing key keeps its place and gets the
    new value, a new key goes to the end.  Keys are compared with Python's
    [==], which on [str] keys, the only keys a scanned token carries
    ([scan_tokens_string_values]), is equality of strings. *)
Fixpoint dict_set (obj : list (Literal * JsonValue)) (key : Literal)
    (v : JsonValue) : list (Literal * JsonValue) :=
  match obj with
  | [] => [(key, v)]
  | (k, w) :: obj' =>
      if decide (k = key) then (k, v) :: obj' else (k, w) :: dict_set obj' key v
  end.

(** [obj[key]] read back, for the statements below. *)
Fixpoint dict_get (obj : list (Literal * JsonValue)) (key : Literal)
    : option JsonValue :=
  match obj with
  | [] => None
  | (k, w) :: obj' => if decide (k = key) then Some w else dict_get obj' key
  end.

(** ** Characters and the built-ins the scanner calls *)

Definition code (c : ascii) : N := N_of_ascii c.

Definition in_range (lo hi : N) (c : ascii) : bool :=
  ((lo <=? code c) && (code c <=? hi))%N.

(** [c in s] for a one-character string [c]. *)
Fixpoint char_in (c : ascii) (s : string) : bool :=
  match s with
  | EmptyString => false
  | String d s' => Ascii.eqb c d || char_in c s'
  end.

(** [" \t\n\r"] *)
Definition whitespace : string :=
  String " " (String "009" (String "010" (String "013" EmptyString))).

(** The double quote character. *)
Definition dquote : ascii := "034"%char.

(** ["{}[],:"] *)
Definition punctuation : string := "{}[],:".

(** [str.isdigit] on one character: 0-9 and the superscripts two, three and
    one (U+00B2, U+00B3, U+00B9), the only other digits below U+0100. *)
Definition isdigit (c : ascii) : bool :=
  in_range 48 57 c || in_range 178 179 c || in_range 185 185 c.

(** [str.isalpha] on one character: the letters below U+0100, that is A-Z,
    a-z, U+00AA, U+00B5, U+00BA, U+00C0-U+00D6, U+00D8-U+00F6 and
    U+00F8-U+00FF. *)
Definition isalpha (c : ascii) : bool :=
  in_range 65 90 c || in_range 97 122 c || in_range 170 170 c
  || in_range 181 181 c || in_range 186 186 c || in_range 192 214 c
  || in_range 216 246 c || in_range 248 255 c.

(** The methods applied to the result of [peek]: both are [False] on the
    empty string. *)
Definition peek_isdigit (p : option ascii) : bool :=
  match p with Some c => isdigit c | None => false end.

Definition peek_isalpha (p : option ascii) : bool :=
  match p with Some c => isalpha c | None => false end.

Definition peek_is (p : option ascii) (c : ascii) : bool :=
  match p with Some d => Ascii.eqb d c | None => false end.

(** The value of a decimal digit 0-9; [None] for any other character
    (the superscripts are digits for [isdigit] but not for [int] and
    [float]). *)
Definition decimal_digit (c : ascii) : option Z :=
  if in_range 48 57 c then Some (Z.of_N (code c) - 48)%Z else None.

Fixpoint digits_value (acc : Z) (ds : list ascii) : option Z :=
  match ds with
  | [] => Some acc
  | d :: ds' =>
      match decimal_digit d with
      | Some v => digits_value (10 * acc + v) ds'
      | None => None
      end
  end.

(** [sys.int_info.default_max_str_digits]: [int] refuses a text with more
    digits, leading zeros counted and the sign left out. *)
Definition int_max_str_digits : nat := 4300.

(** An unsigned run of one or more decimal digits, of at most
    [int_max_str_digits] digits. *)
Definition unsigned_value (ds : list ascii) : option Z :=
  match ds with
  | [] => None
  | _ :: _ =>
      if Nat.ltb int_max_str_digits (length ds) then None
      else digits_value 0 ds
  end.

(** [int(text)] on the texts [scan_number] captures (a digit or a minus sign
    followed by digits and decimal points): an optional minus sign and one or
    more decimal digits, at most [int_max_str_digits] of them; anything else
    is refused with [ValueError].  [None] stands for that [ValueError]; the
    text of its message is the one of an invalid literal, as [scan_number]
    below builds it, which is the message of [int] for the refused texts of
    less than 199 characters (for longer ones [int] cuts the text it shows,
    and over the limit of digits it names the limit). *)
Definition py_int (text : list ascii) : option Z :=
  match text with
  | "-"%char :: ds => Z.opp <$> unsigned_value ds
  | ds => unsigned_value ds
  end.

(** The binary64 number nearest to [m / 10^k] (ties to even), with the sign
    [neg]: the quotient is computed with a sticky remainder and rounded
    once. *)
Definition float_of_decimal (neg : bool) (m : Z) (k : nat) : spec_float :=
  match m with
  | Z0 => S754_zero neg
  | Zpos _ =>
      let '(q, e, l) := SFdiv_core_binary 53 1024 m 0 (10 ^ Z.of_nat k) 0 in
      binary_round_aux 53 1024 neg q e l
  | Zneg _ => S754_nan
  end.

(** The text before the first decimal point, and the text after it if there
    is one. *)
Fixpoint split_point (text : list ascii)
    : list ascii * option (list ascii) :=
  match text with
  | [] => ([], None)
  | c :: text' =>
      if Ascii.eqb c "." then ([], Some text')
      else let '(ip, fp) := split_point text' in (c :: ip, fp)
  end.

Definition unsigned_float (neg : bool) (text : list ascii)
    : option spec_float :=
  let '(ip, fp) := split_point text in
  let fp := match fp with Some fp => fp | None => [] end in
  match ip ++ fp with
  | [] => None
  | _ :: _ =>
      m ← digits_value 0 (ip ++ fp);
      Some (float_of_decimal neg m (length fp))
  end.

(** [float(text)] on the texts [scan_number] captures: an optional minus
    sign, decimal digits with at most one decimal point among them, and at
    least one digit; the value is rounded to the nearest binary64 number. *)
Definition py_float (text : list ascii) : option spec_float :=
  match text with
  | "-"%char :: ds => unsigned_float true ds
  | ds => unsigned_float false ds
  end.

(** [repr(text)] for a text without quotes, backslashes and unprintable
    characters. *)
Definition repr (text : list ascii) : string :=
  "'" ++ string_of_list_ascii text ++ "'".

(** [l[a:b]] for indices that are not negative. *)
Definition slice {A} (l : list A) (a b : nat) : list A :=
  take (b - a) (drop a l).

(** ** The scanner *)

Module Scanner.

Record t : Type := mk { source : list ascii; current : nat }.

(** [Scanner(source)] *)
Definition init (source : list ascii) : t :=
  {| source := source; current := 0 |}.

Definition is_at_end : M t bool :=
  fun self => Ok (Nat.leb (length (source self)) (current self), self).

Definition advance : M t ascii :=
  fun self =>
    match source self !! current self with
    | Some char =>
        Ok (char, {| source := source self; current := current self + 1 |})
    | None => Raise IndexError
    end.

Definition peek : M t (option ascii) :=
  let* at_end := is_at_end in
  if negb at_end then
    (fun self =>
       match source self !! current self with
       | Some char => Ok (Some char, self)
       | None => Raise IndexError
       end)
  else ret None.

(** The fuel that a loop started in state [self] is given: one more than
    the number of characters left. *)
Definition fuel_left (self : t) : nat :=
  S (length (source self) - current self).

(** [while self.peek() != dquote and not self.is_at_end():
       self.advance()] *)
Fixpoint scan_string_loop (fuel : nat) : M t unit :=
  match fuel with
  | 0 => out_of_fuel
  | S fuel' =>
      let* p := peek in
      if negb (peek_is p dquote) then
        let* at_end := is_at_end in
        if negb at_end then
          let* _ := advance in
          scan_string_loop fuel'
        else ret tt
      else ret tt
  end.

Definition scan_string : M t Token :=
  let* self := get in
  let start := current self in
  let* _ := scan_string_loop (fuel_left self) in
  let* at_end := is_at_end in
  if at_end then raise (ValueError "Unterminated string")
  else
    let* _ := advance in
    let* self := get in
    ret (mkToken TokenType.STRING
           (LStr (string_of_list_ascii
                    (slice (source self) start (current self - 1))))).

(** [while self.peek().isdigit() or self.peek() == ".":
       number += self.advance()] *)
Fixpoint scan_number_loop (fuel : nat) (number : list ascii)
    : M t (list ascii) :=
  match fuel with
  | 0 => out_of_fuel
  | S fuel' =>
      let* p := peek in
      if peek_isdigit p then
        let* char := advance in
        scan_number_loop fuel' (number ++ [char])
      else
        let* p := peek in
        if peek_is p "." then
          let* char := advance in
          scan_number_loop fuel' (number ++ [char])
        else ret number
  end.

Definition scan_number (first_char : ascii) : M t Token :=
  let* self := get in
  let* number := scan_number_loop (fuel_left self) [first_char] in
  if existsb (Ascii.eqb ".") number then
    match py_float number with
    | Some f => ret (mkToken TokenType.NUMBER (LFloat f))
    | None =>
        raise (ValueError
                 ("could not convert string to float: " ++ repr number))
    end
  else
    match py_int number with
    | Some z => ret (mkToken TokenType.NUMBER (LInt z))
    | None =>
        raise (ValueError
                 ("invalid literal for int() with base 10: "
                  ++ repr number))
    end.

(** [while self.peek().isalpha(): word += self.advance()] *)
Fixpoint scan_keyword_loop (fuel : nat) (word : list ascii)
    : M t (list ascii) :=
  match fuel with
  | 0 => out_of_fuel
  | S fuel' =>
      let* p := peek in
      if peek_isalpha p then
        let* char := advance in
        scan_keyword_loop fuel' (word ++ [char])
      else ret word
  end.

Definition scan_keyword (first_char : ascii) : M t Token :=
  let* self := get in
  let* word := scan_keyword_loop (fuel_left self) [first_char] in
  let word := string_of_list_ascii word in
  if String.eqb word "true" then
    ret (mkToken TokenType.BOOLEAN (LBool true))
  else if String.eqb word "false" then
    ret (mkToken TokenType.BOOLEAN (LBool false))
  else if String.eqb word "null" then
    ret (mkToken TokenType.NULL LNone)
  else raise (ValueError ("Unexpected keyword: " ++ word)).

(** The [while not self.is_at_end()] loop of [scan_tokens]; [tokens] is
    the list built so far. *)
Fixpoint scan_tokens_loop (fuel : nat) (tokens : list Token)
    : M t (list Token) :=
  match fuel with
  | 0 => out_of_fuel
  | S fuel' =>
      let* at_end := is_at_end in
      if negb at_end then
        let* char := advance in
        if char_in char whitespace then
          scan_tokens_loop fuel' tokens
        else if char_in char punctuation then
          let char := String char EmptyString in
          scan_tokens_loop fuel' (tokens ++ [mkToken char (LStr char)])
        else if Ascii.eqb char dquote then
          let* token := scan_string in
          scan_tokens_loop fuel' (tokens ++ [token])
        else if isdigit char || Ascii.eqb char "-" then
          let* token := scan_number char in
          scan_tokens_loop fuel' (tokens ++ [token])
        else if isalpha char then
          let* token := scan_keyword char in
          scan_tokens_loop fuel' (tokens ++ [token])
        else
          raise (ValueError
                   ("Unexpected character: " ++ String char EmptyString))
      else ret tokens
  end.

Definition scan_tokens : M t (list Token) :=
  let* self := get in
  let* tokens := scan_tokens_loop (fuel_left self) [] in
  ret (tokens ++ [mkToken TokenType.EOF LNone]).

End Scanner.

(** ** The parser *)

Module Parser.

Record t : Type := mk { tokens : list Token; current : nat }.

(** [Parser(tokens)] *)
Definition init (tokens : list Token) : t :=
  {| tokens := tokens; current := 0 |}.

Definition advance : M t Token :=
  fun self =>
    match tokens self !! current self with
    | Some token =>
        Ok (token, {| tokens := tokens self; current := current self + 1 |})
    | None => Raise IndexError
    end.

Definition peek : M t Token :=
  fun self =>
    match tokens self !! current self with
    | Some token => Ok (token, self)
    | None => Raise IndexError
    end.

Definition expect (token_type : string) (error_message : string)
    : M t Token :=
  let* token := peek in
  if negb (String.eqb (type token) token_type) then
    raise (ValueError error_message)
  else advance.

Section Productions.

(** The recursive call [self.parse_value()] made by the two container
    productions. *)
Variable parse_value : M t JsonValue.

(** The [while] loop of [parse_object]; [obj] is the dict built so
    far, and the result is the dict at the exit of the loop. *)
Fixpoint parse_object_loop (fuel : nat)
    (obj : list (Literal * JsonValue))
    : M t (list (Literal * JsonValue)) :=
  match fuel with
  | 0 => out_of_fuel
  | S fuel' =>
      let* token := peek in
      if negb (String.eqb (type token) TokenType.RIGHT_BRACE) then
        let* key := expect TokenType.STRING "Expected string key" in
        let* _ := expect TokenType.COLON "Expected ':' after key" in
        let* v := parse_value in
        let obj := dict_set obj (value key) v in
        let* token := peek in
        if String.eqb (type token) TokenType.COMMA then
          let* _ := advance in
          parse_object_loop fuel' obj
        else ret obj
      else ret obj
  end.

Definition parse_object (fuel : nat) : M t JsonValue :=
  let* obj := parse_object_loop fuel [] in
  let* _ := expect TokenType.RIGHT_BRACE "Expected '}' at end of object" in
  ret (JDict obj).

(** The [while] loop of [parse_array]; [arr] is the list built so
    far. *)
Fixpoint parse_array_loop (fuel : nat) (arr : list JsonValue)
    : M t (list JsonValue) :=
  match fuel with
  | 0 => out_of_fuel
  | S fuel' =>
      let* token := peek in
      if negb (String.eqb (type token) TokenType.RIGHT_BRACKET) then
        let* v := parse_value in
        let arr := arr ++ [v] in
        let* token := peek in
        if String.eqb (type token) TokenType.COMMA then
          let* _ := advance in
          parse_array_loop fuel' arr
        else ret arr
      else ret arr
  end.

Definition parse_array (fuel : nat) : M t JsonValue :=
  let* arr := parse_array_loop fuel [] in
  let* _ := expect TokenType.RIGHT_BRACKET "Expected ']' at end of array" in
  ret (JList arr).

End Productions.

(** [token.type in (STRING, NUMBER, BOOLEAN, NULL)] *)
Definition is_literal_type (ty : string) : bool :=
  String.eqb ty TokenType.STRING || String.eqb ty TokenType.NUMBER
  || String.eqb ty TokenType.BOOLEAN || String.eqb ty TokenType.NULL.

Fixpoint parse_value (fuel : nat) : M t JsonValue :=
  match fuel with
  | 0 => out_of_fuel
  | S fuel' =>
      let* token := advance in
      if is_literal_type (type token) then ret (JLit (value token))
      else if String.eqb (type token) TokenType.LEFT_BRACE then
        parse_object (parse_value fuel') fuel'
      else if String.eqb (type token) TokenType.LEFT_BRACKET then
        parse_array (parse_value fuel') fuel'
      else raise (ValueError ("Unexpected token: " ++ type token))
  end.

(** The fuel of the top-level call: one more than the number of tokens. *)
Definition parse : M t JsonValue :=
  let* self := get in
  parse_value (S (length (tokens self))).

End Parser.

(** [parse_json(json_str)] *)
Definition parse_json (json_str : string) : outcome JsonValue :=
  let scanner := Scanner.init (list_ascii_of_string json_str) in
  match Scanner.scan_tokens scanner with
  | Ok (tokens, _) =>
      let parser := Parser.init tokens in
      match Parser.parse parser with
      | Ok (v, _) => Ok v
      | Raise e => Raise e
      | OutOfFuel => OutOfFuel
      end
  | Raise e => Raise e
  | OutOfFuel => OutOfFuel
  end.

(** The token list of an input, for the statements about scanning. *)
Definition scan (json_str : string) : outcome (list Token) :=
  match Scanner.scan_tokens (Scanner.init (list_ascii_of_string json_str)) with
  | Ok (tokens, _) => Ok tokens
  | Raise e => Raise e
  | OutOfFuel => OutOfFuel
  end.

Local Close Scope string_scope.

(** ** Definitions for the statements and the proofs *)

(** An input text written with apostrophes in the place of its double
    quotes. *)
Fixpoint with_quotes (text : string) : string :=
  match text with
  | EmptyString => EmptyString
  | String c text' =>
      String (if Ascii.eqb c "'" then dquote else c) (with_quotes text')
  end.

(** [Token(TokenType.EOF, None)] *)
Definition eof_token : Token := mkToken TokenType.EOF LNone.

Definition not_eof (t : Token) : Prop := type t ≠ TokenType.EOF.

(** What the scanner appends: never an end-of-input token, and a [STRING]
    token only with a [str] as value. *)
Definition scanned_token (t : Token) : Prop :=
  type t ≠ TokenType.EOF
  ∧ (type t = TokenType.STRING → ∃ s, value t = LStr s).

(** The scanner that has consumed [pre] and has [rest] before it. *)
Definition at_ (pre rest : list ascii) : Scanner.t :=
  {| Scanner.source := pre ++ rest; Scanner.current := length pre |}.

(** The parser that has consumed [pre] and has [rest] before it. *)
Definition pat_ (pre rest : list Token) : Parser.t :=
  {| Parser.tokens := pre ++ rest; Parser.current := length pre |}.

(** The characters that start a number. *)
Definition starts_number (c : ascii) : bool := isdigit c || Ascii.eqb c "-".

(** The characters that continue a number, and the test of the loop of
    [scan_number] on the result of [peek]. *)
Definition is_number_char (c : ascii) : bool := isdigit c || Ascii.eqb c ".".

Definition peek_number (p : option ascii) : bool :=
  peek_isdigit p || peek_is p ".".

(** A text that follows a token without changing it: it starts with a
    double quote. *)
Definition starts_with_quote (ext : list ascii) : Prop :=
  head ext = Some dquote.

(** A method [c] run on the tokens [rest] is local: if it returns, it has
    consumed some tokens [consumed] (at least one if [strict]), none of them
    the end-of-input token, and it does the same whatever comes before and
    after them; if it raises [ValueError], it does so whatever comes before;
    it raises [IndexError] only when no end-of-input token is left; and it
    runs out of fuel only when [bound] is at most the number of tokens
    left. *)
Definition localized {A} (strict : bool) (bound : nat) (c : M Parser.t A)
    (rest : list Token) : Prop :=
  (∃ a consumed rest',
     rest = consumed ++ rest' ∧ Forall not_eof consumed
     ∧ (strict = true → consumed ≠ [])
     ∧ ∀ pre tail,
         c (pat_ pre (consumed ++ tail)) = Ok (a, pat_ (pre ++ consumed) tail))
  ∨ (∃ msg, ∀ pre, c (pat_ pre rest) = Raise (ValueError msg))
  ∨ (Forall not_eof rest ∧ ∀ pre, c (pat_ pre rest) = Raise IndexError)
  ∨ (bound ≤ length rest ∧ ∀ pre, c (pat_ pre rest) = OutOfFuel).

(** [c'] does what [c] does wherever [c] does not run out of fuel. *)
Definition refines {St A} (c c' : M St A) : Prop :=
  ∀ s, c s = OutOfFuel ∨ c' s = c s.

(** Following the specification's words: the text of a string runs up to
    the next double quote that is unescaped, that is, not preceded by a
    backslash; [escaped] tells whether the character before was a
    backslash. *)
Fixpoint spec_string_body (escaped : bool) (text : list ascii)
    : option (list ascii) :=
  match text with
  | [] => None
  | c :: text' =>
      if Ascii.eqb c dquote && negb escaped then Some []
      else
        body ← spec_string_body (Ascii.eqb c "\") text';
        Some (c :: body)
  end.

(** The loop of [parse_object] with the list of the entries read, in the
    order of the input, in the place of the dict: the same reads of tokens,
    and every entry kept. *)
Fixpoint parse_object_entries (parse_value : M Parser.t JsonValue)
    (fuel : nat) (entries : list (Literal * JsonValue))
    : M Parser.t (list (Literal * JsonValue)) :=
  match fuel with
  | 0 => out_of_fuel
  | S fuel' =>
      let* token := Parser.peek in
      if negb (String.eqb (type token) TokenType.RIGHT_BRACE) then
        let* key := Parser.expect TokenType.STRING "Expected string key" in
        let* _ := Parser.expect TokenType.COLON "Expected ':' after key" in
        let* v := parse_value in
        let entries := entries ++ [(value key, v)] in
        let* token := Parser.peek in
        if String.eqb (type token) TokenType.COMMA then
          let* _ := Parser.advance in
          parse_object_entries parse_value fuel' entries
        else ret entries
      else ret entries
  end.

(** The dict that [obj[key] = v] builds from [obj] for the entries, one
    after the other. *)
Definition dict_update (obj entries : list (Literal * JsonValue))
    : list (Literal * JsonValue) :=
  fold_left (λ obj entry, dict_set obj entry.1 entry.2) entries obj.

(** The keys in the order of their first occurrence. *)
Definition add_key (keys : list Literal) (key : Literal) : list Literal :=
  if decide (key ∈ keys) then keys else keys ++ [key].

Definition first_keys (keys : list Literal) : list Literal :=
  fold_left add_key keys [].

(** The value of the last entry with the key [key]. *)
Fixpoint last_binding (entries : list (Literal * JsonValue)) (key : Literal)
    : option JsonValue :=
  match entries with
  | [] => None
  | (k, v) :: entries' =>
      match last_binding entries' key with
      | Some w => Some w
      | None => if decide (k = key) then Some v else None
      end
  end.

(** The tokens of the elements [runs] with the token [comma] between
    them. *)
Fixpoint comma_separated (comma : Token) (runs : list (list Token))
    : list Token :=
  match runs with
  | [] => []
  | run :: runs' =>
      match runs' with
      | [] => run
      | _ :: _ => run ++ comma :: comma_separated comma runs'
      end
  end.

(** The tokens [run] are a value [v] for [parse_value], wherever they
    stand; by [parses_as_intro] this holds as soon as [parse_value]
    returns [v] on them at one place. *)
Definition parses_as (fuel : nat) (run : list Token) (v : JsonValue) : Prop :=
  ∀ pre tail,
    Parser.parse_value fuel (pat_ pre (run ++ tail))
    = Ok (v, pat_ (pre ++ run) tail).

(** An entry of an object: its key token, the tokens of its value and the
    value; its tokens with the token [colon] after the key, and its
    binding. *)
Definition entry_tokens (colon : Token)
    (e : Token * list Token * JsonValue) : list Token :=
  e.1.1 :: colon :: e.1.2.

Definition entry_binding (e : Token * list Token * JsonValue)
    : Literal * JsonValue :=
  (value e.1.1, e.2).

(** A text that continues no number and no word before it: it is empty
    or starts with a character that is no digit, no decimal point and no
    letter. *)
Definition separated (ext : list ascii) : Prop :=
  from_option (λ c, is_number_char c || isalpha c) false (head ext) = false.

(** [Token(char, char)] for a punctuation character. *)
Definition punctuation_token (c : ascii) : Token :=
  mkToken (String c EmptyString) (LStr (String c EmptyString)).

(** The tokens the scanner builds before the end-of-input token: the type
    of a token tells the kind of its value. *)
Definition token_typed (t : Token) : Prop :=
  (type t = TokenType.STRING ∧ ∃ s, value t = LStr s)
  ∨ (type t = TokenType.NUMBER
     ∧ ((∃ z, value t = LInt z) ∨ ∃ f, value t = LFloat f))
  ∨ (type t = TokenType.BOOLEAN ∧ ∃ b, value t = LBool b)
  ∨ (type t = TokenType.NULL ∧ value t = LNone)
  ∨ (∃ c, char_in c punctuation = true ∧ t = punctuation_token c).

(** The characters that no branch of [scan_tokens] takes. *)
Definition unexpected (c : ascii) : bool :=
  negb (char_in c whitespace || char_in c punctuation || Ascii.eqb c dquote
        || starts_number c || isalpha c).

(** The tokens of the elements [runs], each one followed by the token
    [comma]: what the loops of [parse_array] and [parse_object] have read
    when they test the closing token again. *)
Definition comma_terminated (comma : Token) (runs : list (list Token))
    : list Token :=
  concat ((λ run, run ++ [comma]) <$> runs).

(** A value whose objects, at every depth, have [str] keys that are
    pairwise different. *)
Inductive string_keyed : JsonValue → Prop :=
| string_keyed_lit (l : Literal) : string_keyed (JLit l)
| string_keyed_list (items : list JsonValue) :
    Forall string_keyed items → string_keyed (JList items)
| string_keyed_dict (bindings : list (Literal * JsonValue)) :
    Forall (λ b, (∃ s, b.1 = LStr s) ∧ string_keyed b.2) bindings →
    NoDup bindings.*1 →
    string_keyed (JDict bindings).

(** The lists of tokens that [parse_value] reads as a value, after the
    control flow of the three productions: a literal token; an opening
    brace, entries and a closing brace; an opening bracket, elements and a
    closing bracket.  The elements (entries) are separated by commas, and
    the last one may be followed by a comma, since the loops test the
    closing token again after each comma.  The entries are listed in the
    order of the input, and the dict is built from them with
    [dict_update]. *)
Inductive accepts : list Token → JsonValue → Prop :=
| accepts_literal (t : Token) :
    Parser.is_literal_type (type t) = true →
    accepts [t] (JLit (value t))
| accepts_object (opening closing : Token) (body : list Token)
    (entries : list (Literal * JsonValue)) :
    type opening = TokenType.LEFT_BRACE →
    type closing = TokenType.RIGHT_BRACE →
    object_body body entries →
    accepts (opening :: body ++ [closing]) (JDict (dict_update [] entries))
| accepts_array (opening closing : Token) (body : list Token)
    (items : list JsonValue) :
    type opening = TokenType.LEFT_BRACKET →
    type closing = TokenType.RIGHT_BRACKET →
    array_body body items →
    accepts (opening :: body ++ [closing]) (JList items)
with array_body : list Token → list JsonValue → Prop :=
| array_body_nil : array_body [] []
| array_body_last (run : list Token) (v : JsonValue) :
    accepts run v → array_body run [v]
| array_body_cons (run : list Token) (v : JsonValue) (comma : Token)
    (body : list Token) (items : list JsonValue) :
    accepts run v →
    type comma = TokenType.COMMA →
    array_body body items →
    array_body (run ++ comma :: body) (v :: items)
with object_body : list Token → list (Literal * JsonValue) → Prop :=
| object_body_nil : object_body [] []
| object_body_last (key colon : Token) (run : list Token) (v : JsonValue) :
    type key = TokenType.STRING →
    type colon = TokenType.COLON →
    accepts run v →
    object_body (key :: colon :: run) [(value key, v)]
| object_body_cons (key colon : Token) (run : list Token) (v : JsonValue)
    (comma : Token) (body : list Token)
    (entries : list (Literal * JsonValue)) :
    type key = TokenType.STRING →
    type colon = TokenType.COLON →
    accepts run v →
    type comma = TokenType.COMMA →
    object_body body entries →
    object_body (key :: colon :: run ++ comma :: body)
      ((value key, v) :: entries).

Scheme accepts_mut := Minimality for accepts Sort Prop
  with array_body_mut := Minimality for array_body Sort Prop
  with object_body_mut := Minimality for object_body Sort Prop.

Combined Scheme accepts_mutual from
  accepts_mut, array_body_mut, object_body_mut.

(** A token that, if it is a [STRING] token, holds a [str]. *)
Definition string_valued (t : Token) : Prop :=
  type t = TokenType.STRING → ∃ s, value t = LStr s.

(** A dict under construction: [str] keys, pairwise different, and values
    that are string-keyed. *)
Definition dict_keyed (obj : list (Literal * JsonValue)) : Prop :=
  Forall (λ b, (∃ s, b.1 = LStr s) ∧ string_keyed b.2) obj ∧ NoDup obj.*1.

(** A method of the parser that, on tokens that are string-valued, leaves
    the list of tokens as it is and returns only results that satisfy
    [Q]. *)
Definition keeps {A} (Q : A → Prop) (c : M Parser.t A) : Prop :=
  ∀ self a self',
    Forall string_valued (Parser.tokens self) →
    c self = Ok (a, self') →
    Parser.tokens self' = Parser.tokens self ∧ Q a.

(** ** The examples of the specification *)

Example parse_empty_object : parse_json "{}" = Ok (JDict []).
Proof. reflexivity. Qed.

Example parse_empty_array : parse_json "[]" = Ok (JList []).
Proof. reflexivity. Qed.

Example parse_nested :
  parse_json
    (with_quotes
       "{'name':'Alice','age':25,'isStudent':false,'grades':[90,85,88],'address':{'city':'New York','zip':'10001'}}")
  = Ok (JDict
          [(LStr "name", JLit (LStr "Alice"));
           (LStr "age", JLit (LInt 25));
           (LStr "isStudent", JLit (LBool false));
           (LStr "grades",
            JList [JLit (LInt 90); JLit (LInt 85); JLit (LInt 88)]);
           (LStr "address",
            JDict [(LStr "city", JLit (LStr "New York"));
                   (LStr "zip", JLit (LStr "10001"))])]).
Proof. reflexivity. Qed.

Example scan_unexpected_character :
  parse_json "[1, #]" = Raise (ValueError "Unexpected character: #").
Proof. reflexivity. Qed.

Example parse_missing_colon :
  parse_json (with_quotes "{'a' 1}")
  = Raise (ValueError "Expected ':' after key").
Proof. reflexivity. Qed.

Example parse_leading_comma :
  parse_json "[,]" = Raise (ValueError "Unexpected token: ,").
Proof. reflexivity. Qed.

Example float_half : parse_json "-.5"
  = Ok (JLit (LFloat (S754_finite true 4503599627370496 (-53)))).
Proof. reflexivity. Qed.

Example float_tenth : parse_json "0.1"
  = Ok (JLit (LFloat (S754_finite false 7205759403792794 (-56)))).
Proof. reflexivity. Qed.

(** ** The scanner at a position of its input *)

Lemma at_nil (source : list ascii) : Scanner.init source = at_ [] source.
Proof. reflexivity. Qed.

Lemma at_snoc (pre : list ascii) (c : ascii) (rest : list ascii) :
  {| Scanner.source := pre ++ c :: rest; Scanner.current := length pre + 1 |}
  = at_ (pre ++ [c]) rest.
Proof.
  unfold at_. rewrite length_app, <- app_assoc. reflexivity.
Qed.

Lemma is_at_end_at (pre rest : list ascii) :
  Scanner.is_at_end (at_ pre rest)
  = Ok (match rest with [] => true | _ => false end, at_ pre rest).
Proof.
  unfold Scanner.is_at_end, at_; simpl. do 2 f_equal.
  rewrite length_app. destruct rest; simpl.
  - apply Nat.leb_le. lia.
  - apply Nat.leb_gt. lia.
Qed.

Lemma advance_at (pre : list ascii) (c : ascii) (rest : list ascii) :
  Scanner.advance (at_ pre (c :: rest)) = Ok (c, at_ (pre ++ [c]) rest).
Proof.
  unfold Scanner.advance. simpl.
  rewrite list_lookup_middle by reflexivity. rewrite at_snoc. reflexivity.
Qed.

Lemma peek_at (pre rest : list ascii) :
  Scanner.peek (at_ pre rest) = Ok (head rest, at_ pre rest).
Proof.
  unfold Scanner.peek, bind. rewrite is_at_end_at.
  destruct rest as [|c rest]; [reflexivity|]. simpl.
  rewrite list_lookup_middle by reflexivity. reflexivity.
Qed.

Lemma fuel_left_at (pre rest : list ascii) :
  Scanner.fuel_left (at_ pre rest) = S (length rest).
Proof.
  unfold Scanner.fuel_left, at_; simpl. rewrite length_app. f_equal. lia.
Qed.

(** One step of a scanner method at a known position. *)
Ltac scanner_simpl :=
  unfold bind, ret, raise, get;
  cbn [head negb orb andb peek_is peek_isdigit peek_isalpha].

Ltac scanner_step :=
  scanner_simpl;
  repeat
    (first
       [ rewrite peek_at
       | rewrite is_at_end_at
       | rewrite advance_at
       | rewrite fuel_left_at ];
     scanner_simpl).

Lemma eqb_dquote_false (c : ascii) : c ≠ dquote → Ascii.eqb c dquote = false.
Proof. intros H. apply Ascii.eqb_neq. exact H. Qed.

(** The loop of [scan_string] stops at the first double quote, or at the end
    of the input when there is none. *)
Lemma scan_string_loop_at (body rest pre : list ascii) (fuel : nat) :
  dquote ∉ body →
  rest = [] ∨ head rest = Some dquote →
  length body < fuel →
  Scanner.scan_string_loop fuel (at_ pre (body ++ rest))
  = Ok (tt, at_ (pre ++ body) rest).
Proof.
  revert pre fuel.
  induction body as [|c body IH]; intros pre fuel Hbody Hrest Hfuel;
    (destruct fuel as [|fuel]; [simpl in Hfuel; lia|]);
    cbn [Scanner.scan_string_loop app].
  - rewrite app_nil_r.
    destruct rest as [|r rest].
    + scanner_step. reflexivity.
    + destruct Hrest as [Hrest|Hrest]; [discriminate|].
      injection Hrest as ->. scanner_step.
      rewrite Ascii.eqb_refl. reflexivity.
  - apply not_elem_of_cons in Hbody as [Hc Hbody].
    scanner_step. rewrite (eqb_dquote_false c) by congruence.
    scanner_step.
    rewrite IH by (simpl in Hfuel; auto with lia).
    rewrite <- app_assoc. reflexivity.
Qed.

Lemma slice_middle {A} (pre body rest : list A) (n : nat) :
  n = length pre + length body →
  slice (pre ++ body ++ rest) (length pre) n = body.
Proof.
  intros ->. unfold slice.
  rewrite drop_app_length.
  replace (length pre + length body - length pre) with (length body) by lia.
  apply take_app_length.
Qed.

(** [scan_string] with a closing quote in the rest of the input: the token
    holds the text before the first double quote. *)
Lemma scan_string_at (pre body rest : list ascii) :
  dquote ∉ body →
  Scanner.scan_string (at_ pre (body ++ dquote :: rest))
  = Ok (mkToken TokenType.STRING (LStr (string_of_list_ascii body)),
        at_ (pre ++ body ++ [dquote]) rest).
Proof.
  intros Hbody. unfold Scanner.scan_string. scanner_step.
  rewrite scan_string_loop_at; [| assumption | right; reflexivity
                                | rewrite length_app; simpl; lia].
  scanner_step. rewrite app_assoc. do 4 f_equal.
  unfold at_; cbn [Scanner.source Scanner.current].
  rewrite <- !app_assoc. f_equal. apply slice_middle.
  rewrite !length_app. simpl. lia.
Qed.

(** [scan_string] without a closing quote in the rest of the input. *)
Lemma scan_string_unterminated (pre body : list ascii) :
  dquote ∉ body →
  Scanner.scan_string (at_ pre body)
  = Raise (ValueError "Unterminated string").
Proof.
  intros Hbody. unfold Scanner.scan_string. scanner_step.
  pose proof (scan_string_loop_at body [] pre (S (length body)) Hbody
                (or_introl eq_refl) (Nat.lt_succ_diag_r _)) as Hloop.
  rewrite app_nil_r in Hloop. rewrite Hloop.
  scanner_step. reflexivity.
Qed.

Lemma scan_number_loop_at (run rest pre number : list ascii) (fuel : nat) :
  Forall (λ c, is_number_char c = true) run →
  peek_number (head rest) = false →
  length run < fuel →
  Scanner.scan_number_loop fuel number (at_ pre (run ++ rest))
  = Ok (number ++ run, at_ (pre ++ run) rest).
Proof.
  revert pre number fuel.
  induction run as [|c run IH]; intros pre number fuel Hrun Hrest Hfuel;
    (destruct fuel as [|fuel]; [simpl in Hfuel; lia|]);
    cbn [Scanner.scan_number_loop app].
  - rewrite !app_nil_r. scanner_step.
    apply orb_false_iff in Hrest as [-> Hdot].
    scanner_step. rewrite Hdot. reflexivity.
  - apply Forall_cons in Hrun as [Hc Hrun].
    assert (Hnext : Scanner.scan_number_loop fuel (number ++ [c])
                      (at_ (pre ++ [c]) (run ++ rest))
                    = Ok (number ++ c :: run, at_ (pre ++ c :: run) rest)).
    { rewrite IH by (simpl in Hfuel; auto with lia).
      rewrite <- !app_assoc. reflexivity. }
    scanner_step. destruct (isdigit c) eqn:Hdigit.
    + scanner_step. exact Hnext.
    + unfold is_number_char in Hc. rewrite Hdigit in Hc. simpl in Hc.
      scanner_step. rewrite Hc. scanner_step. exact Hnext.
Qed.

(** [scan_number]: the captured text is the first character and the run of
    digits and decimal points after it; the token is [float] of the text if
    it has a decimal point and [int] of it otherwise. *)
Lemma scan_number_at (first_char : ascii) (pre run rest : list ascii) :
  Forall (λ c, is_number_char c = true) run →
  peek_number (head rest) = false →
  Scanner.scan_number first_char (at_ pre (run ++ rest))
  = let number := first_char :: run in
    if existsb (Ascii.eqb ".") number then
      match py_float number with
      | Some f =>
          Ok (mkToken TokenType.NUMBER (LFloat f), at_ (pre ++ run) rest)
      | None =>
          Raise (ValueError
                   ("could not convert string to float: " ++ repr number))
      end
    else
      match py_int number with
      | Some z =>
          Ok (mkToken TokenType.NUMBER (LInt z), at_ (pre ++ run) rest)
      | None =>
          Raise (ValueError
                   ("invalid literal for int() with base 10: "
                    ++ repr number))
      end.
Proof.
  intros Hrun Hrest. unfold Scanner.scan_number. scanner_step.
  rewrite scan_number_loop_at by (auto; rewrite length_app; lia).
  cbn [app]. cbv zeta.
  destruct (existsb _ _); [destruct (py_float _) | destruct (py_int _)];
    reflexivity.
Qed.

Lemma scan_keyword_loop_at (run rest pre word : list ascii) (fuel : nat) :
  Forall (λ c, isalpha c = true) run →
  peek_isalpha (head rest) = false →
  length run < fuel →
  Scanner.scan_keyword_loop fuel word (at_ pre (run ++ rest))
  = Ok (word ++ run, at_ (pre ++ run) rest).
Proof.
  revert pre word fuel.
  induction run as [|c run IH]; intros pre word fuel Hrun Hrest Hfuel;
    (destruct fuel as [|fuel]; [simpl in Hfuel; lia|]);
    cbn [Scanner.scan_keyword_loop app].
  - rewrite !app_nil_r. scanner_step. rewrite Hrest. reflexivity.
  - apply Forall_cons in Hrun as [Hc Hrun].
    scanner_step. rewrite Hc. scanner_step.
    rewrite IH by (simpl in Hfuel; auto with lia).
    rewrite <- !app_assoc. reflexivity.
Qed.

(** [scan_keyword]: the captured word is the first character and the run of
    letters after it. *)
Lemma scan_keyword_at (first_char : ascii) (pre run rest : list ascii) :
  Forall (λ c, isalpha c = true) run →
  peek_isalpha (head rest) = false →
  Scanner.scan_keyword first_char (at_ pre (run ++ rest))
  = let word := string_of_list_ascii (first_char :: run) in
    if String.eqb word "true" then
      Ok (mkToken TokenType.BOOLEAN (LBool true), at_ (pre ++ run) rest)
    else if String.eqb word "false" then
      Ok (mkToken TokenType.BOOLEAN (LBool false), at_ (pre ++ run) rest)
    else if String.eqb word "null" then
      Ok (mkToken TokenType.NULL LNone, at_ (pre ++ run) rest)
    else Raise (ValueError ("Unexpected keyword: " ++ word)).
Proof.
  intros Hrun Hrest. unfold Scanner.scan_keyword. scanner_step.
  rewrite scan_keyword_loop_at by (auto; rewrite length_app; lia).
  cbn [app]. cbv zeta.
  repeat match goal with |- context [String.eqb ?a ?b] =>
    destruct (String.eqb a b) end; reflexivity.
Qed.

(** ** The branches of [scan_tokens] *)

(** Case analysis on the 256 characters. *)
Ltac by_ascii_cases c :=
  destruct c as [[] [] [] [] [] [] [] []]; vm_compute; intros H;
  first [discriminate H | repeat split].

(** A character that starts a number is no white space, no punctuation and
    no double quote. *)
Lemma starts_number_class (c : ascii) :
  starts_number c = true →
  char_in c whitespace = false ∧ char_in c punctuation = false
  ∧ Ascii.eqb c dquote = false.
Proof.
  by_ascii_cases c.
Qed.

(** A letter is none of the characters tested before it. *)
Lemma isalpha_class (c : ascii) :
  isalpha c = true →
  char_in c whitespace = false ∧ char_in c punctuation = false
  ∧ Ascii.eqb c dquote = false ∧ starts_number c = false.
Proof.
  by_ascii_cases c.
Qed.

Lemma punctuation_class (c : ascii) :
  char_in c punctuation = true →
  char_in c whitespace = false ∧ Ascii.eqb c dquote = false
  ∧ starts_number c = false ∧ isalpha c = false.
Proof.
  by_ascii_cases c.
Qed.

(** One iteration of the loop of [scan_tokens] on a character [c], by the
    branch taken. *)
Lemma scan_tokens_loop_end (fuel : nat) (tokens : list Token)
    (pre : list ascii) :
  Scanner.scan_tokens_loop (S fuel) tokens (at_ pre []) = Ok (tokens, at_ pre []).
Proof. cbn [Scanner.scan_tokens_loop]. scanner_step. reflexivity. Qed.

Lemma scan_tokens_loop_whitespace (fuel : nat) (tokens : list Token)
    (pre : list ascii) (c : ascii) (rest : list ascii) :
  char_in c whitespace = true →
  Scanner.scan_tokens_loop (S fuel) tokens (at_ pre (c :: rest))
  = Scanner.scan_tokens_loop fuel tokens (at_ (pre ++ [c]) rest).
Proof.
  intros Hc. cbn [Scanner.scan_tokens_loop]. scanner_step.
  rewrite Hc. reflexivity.
Qed.

Lemma scan_tokens_loop_punctuation (fuel : nat) (tokens : list Token)
    (pre : list ascii) (c : ascii) (rest : list ascii) :
  char_in c punctuation = true →
  Scanner.scan_tokens_loop (S fuel) tokens (at_ pre (c :: rest))
  = Scanner.scan_tokens_loop fuel
      (tokens ++ [mkToken (String c EmptyString) (LStr (String c EmptyString))])
      (at_ (pre ++ [c]) rest).
Proof.
  intros Hc. cbn [Scanner.scan_tokens_loop]. scanner_step.
  destruct (punctuation_class c Hc) as (-> & _). rewrite Hc. reflexivity.
Qed.

Lemma scan_tokens_loop_string (fuel : nat) (tokens : list Token)
    (pre rest : list ascii) :
  Scanner.scan_tokens_loop (S fuel) tokens (at_ pre (dquote :: rest))
  = match Scanner.scan_string (at_ (pre ++ [dquote]) rest) with
    | Ok (token, self) => Scanner.scan_tokens_loop fuel (tokens ++ [token]) self
    | Raise e => Raise e
    | OutOfFuel => OutOfFuel
    end.
Proof. cbn [Scanner.scan_tokens_loop]. scanner_step. reflexivity. Qed.

Lemma scan_tokens_loop_number (fuel : nat) (tokens : list Token)
    (pre : list ascii) (c : ascii) (rest : list ascii) :
  starts_number c = true →
  Scanner.scan_tokens_loop (S fuel) tokens (at_ pre (c :: rest))
  = match Scanner.scan_number c (at_ (pre ++ [c]) rest) with
    | Ok (token, self) => Scanner.scan_tokens_loop fuel (tokens ++ [token]) self
    | Raise e => Raise e
    | OutOfFuel => OutOfFuel
    end.
Proof.
  intros Hc. cbn [Scanner.scan_tokens_loop]. scanner_step.
  destruct (starts_number_class c Hc) as (-> & -> & ->).
  unfold starts_number in Hc. rewrite Hc. reflexivity.
Qed.

Lemma scan_tokens_loop_keyword (fuel : nat) (tokens : list Token)
    (pre : list ascii) (c : ascii) (rest : list ascii) :
  isalpha c = true →
  Scanner.scan_tokens_loop (S fuel) tokens (at_ pre (c :: rest))
  = match Scanner.scan_keyword c (at_ (pre ++ [c]) rest) with
    | Ok (token, self) => Scanner.scan_tokens_loop fuel (tokens ++ [token]) self
    | Raise e => Raise e
    | OutOfFuel => OutOfFuel
    end.
Proof.
  intros Hc. cbn [Scanner.scan_tokens_loop]. scanner_step.
  destruct (isalpha_class c Hc) as (-> & -> & -> & Hn).
  unfold starts_number in Hn. rewrite Hn, Hc. reflexivity.
Qed.

Lemma scan_tokens_loop_unexpected (fuel : nat) (tokens : list Token)
    (pre : list ascii) (c : ascii) (rest : list ascii) :
  char_in c whitespace = false → char_in c punctuation = false →
  Ascii.eqb c dquote = false → starts_number c = false →
  isalpha c = false →
  Scanner.scan_tokens_loop (S fuel) tokens (at_ pre (c :: rest))
  = Raise (ValueError ("Unexpected character: " ++ String c EmptyString)).
Proof.
  intros H1 H2 H3 H4 H5. cbn [Scanner.scan_tokens_loop]. scanner_step.
  unfold starts_number in H4. rewrite H1, H2, H3, H4, H5. reflexivity.
Qed.

(** ** Every iteration of the loop of [scan_tokens] *)

Lemma run_split (f : ascii → bool) (l : list ascii) :
  ∃ run rest,
    l = run ++ rest ∧ Forall (λ c, f c = true) run
    ∧ from_option f false (head rest) = false.
Proof.
  induction l as [|c l (run & rest & -> & Hrun & Hrest)].
  - exists [], []. repeat split. constructor.
  - destruct (f c) eqn:Hc.
    + exists (c :: run), rest. repeat split; [|assumption].
      constructor; assumption.
    + exists [], (c :: run ++ rest). repeat split; [constructor | exact Hc].
Qed.

Lemma quote_split (l : list ascii) :
  dquote ∉ l ∨ ∃ body rest, l = body ++ dquote :: rest ∧ dquote ∉ body.
Proof.
  destruct (decide (dquote ∈ l)) as [Hin|Hout]; [right | left; assumption].
  apply list_elem_of_split_l in Hin as (body & rest & -> & Hbody).
  exists body, rest. split; [reflexivity | assumption].
Qed.

Lemma head_app_quote (f : ascii → bool) (rest ext : list ascii) :
  f dquote = false →
  from_option f false (head rest) = false →
  starts_with_quote ext →
  from_option f false (head (rest ++ ext)) = false.
Proof.
  intros Hq Hrest Hext. destruct rest as [|r rest]; [|exact Hrest].
  simpl. rewrite Hext. exact Hq.
Qed.

(** One iteration on a character [c] followed by [rest]: either some
    characters [consumed] are turned into the tokens [new] (none for white
    space, one otherwise), whatever the fuel, the tokens and the text before,
    and also when a text that starts with a double quote is added at the end
    of the input; or the scanner raises [ValueError]. *)
Lemma scan_tokens_loop_step (c : ascii) (rest : list ascii) :
  (∃ new consumed rest',
     c :: rest = consumed ++ rest' ∧ consumed ≠ []
     ∧ Forall scanned_token new
     ∧ (∀ fuel tokens pre,
          Scanner.scan_tokens_loop (S fuel) tokens (at_ pre (c :: rest))
          = Scanner.scan_tokens_loop fuel (tokens ++ new)
              (at_ (pre ++ consumed) rest'))
     ∧ (∀ ext, starts_with_quote ext → ∀ fuel tokens pre,
          Scanner.scan_tokens_loop (S fuel) tokens
            (at_ pre (c :: rest ++ ext))
          = Scanner.scan_tokens_loop fuel (tokens ++ new)
              (at_ (pre ++ consumed) (rest' ++ ext))))
  ∨ (∃ msg, ∀ fuel tokens pre,
       Scanner.scan_tokens_loop (S fuel) tokens (at_ pre (c :: rest))
       = Raise (ValueError msg)).
Proof.
  destruct (char_in c whitespace) eqn:Hws.
  { left. exists [], [c], rest. repeat split; [done | constructor | |].
    - intros. rewrite app_nil_r. apply scan_tokens_loop_whitespace, Hws.
    - intros. rewrite app_nil_r. apply scan_tokens_loop_whitespace, Hws. }
  destruct (char_in c punctuation) eqn:Hpunct.
  { left.
    exists [mkToken (String c EmptyString) (LStr (String c EmptyString))],
      [c], rest.
    repeat split.
    - done.
    - constructor; [|constructor]. split; cbn; [discriminate|].
      intros H. discriminate H.
    - intros. apply scan_tokens_loop_punctuation, Hpunct.
    - intros. apply scan_tokens_loop_punctuation, Hpunct. }
  destruct (Ascii.eqb c dquote) eqn:Hquote.
  { apply Ascii.eqb_eq in Hquote as ->.
    destruct (quote_split rest) as [Hnone | (body & rest' & -> & Hbody)].
    - right. exists "Unterminated string". intros.
      rewrite scan_tokens_loop_string, scan_string_unterminated by assumption.
      reflexivity.
    - left.
      exists [mkToken TokenType.STRING (LStr (string_of_list_ascii body))],
        (dquote :: body ++ [dquote]), rest'.
      repeat split.
      + cbn. rewrite <- app_assoc. reflexivity.
      + done.
      + constructor; [|constructor]. split; cbn; [discriminate | eauto].
      + intros. rewrite scan_tokens_loop_string, scan_string_at by assumption.
        rewrite <- !app_assoc. reflexivity.
      + intros. rewrite <- app_assoc. cbn [app].
        rewrite scan_tokens_loop_string, scan_string_at by assumption.
        rewrite <- !app_assoc. reflexivity. }
  destruct (starts_number c) eqn:Hnum.
  { destruct (run_split is_number_char rest)
      as (run & rest' & -> & Hrun & Hrest).
    assert (Hpeek : ∀ l, from_option is_number_char false (head l)
                         = peek_number (head l)) by (intros [|? ?]; done).
    destruct (existsb (Ascii.eqb ".") (c :: run)) eqn:Hdot;
      [destruct (py_float (c :: run)) as [f|] eqn:Hval
      |destruct (py_int (c :: run)) as [z|] eqn:Hval].
    all: first
      [ left;
        eexists [mkToken TokenType.NUMBER _], (c :: run), rest';
        repeat split;
        [ done
        | constructor; [|constructor]; split; cbn; [discriminate|];
          intros H; discriminate H
        | intros; rewrite scan_tokens_loop_number by assumption;
          rewrite scan_number_at by (rewrite <- ?Hpeek; assumption);
          cbv zeta; rewrite Hdot, Hval, <- app_assoc; reflexivity
        | intros ext Hext; intros; rewrite <- app_assoc;
          rewrite scan_tokens_loop_number by assumption;
          rewrite scan_number_at
            by (rewrite <- ?Hpeek; try apply head_app_quote; done);
          cbv zeta; rewrite Hdot, Hval, <- app_assoc; reflexivity ]
      | right; eexists; intros;
        rewrite scan_tokens_loop_number by assumption;
        rewrite scan_number_at by (rewrite <- ?Hpeek; assumption);
        cbv zeta; rewrite Hdot, Hval; reflexivity ]. }
  destruct (isalpha c) eqn:Halpha.
  { destruct (run_split isalpha rest) as (run & rest' & -> & Hrun & Hrest).
    assert (Hpeek : ∀ l, from_option isalpha false (head l)
                         = peek_isalpha (head l)) by (intros [|? ?]; done).
    assert (Hstep : ∀ fuel tokens pre tail,
      peek_isalpha (head tail) = false →
      Scanner.scan_tokens_loop (S fuel) tokens (at_ pre (c :: run ++ tail))
      = match Scanner.scan_keyword c (at_ (pre ++ [c]) (run ++ tail)) with
        | Ok (token, self) =>
            Scanner.scan_tokens_loop fuel (tokens ++ [token]) self
        | Raise e => Raise e
        | OutOfFuel => OutOfFuel
        end) by (intros; apply scan_tokens_loop_keyword, Halpha).
    set (word := string_of_list_ascii (c :: run)).
    destruct (String.eqb word "true") eqn:Htrue;
      [|destruct (String.eqb word "false") eqn:Hfalse;
        [|destruct (String.eqb word "null") eqn:Hnull]].
    1: left; exists [mkToken TokenType.BOOLEAN (LBool true)],
         (c :: run), rest'.
    2: left; exists [mkToken TokenType.BOOLEAN (LBool false)],
         (c :: run), rest'.
    3: left; exists [mkToken TokenType.NULL LNone], (c :: run), rest'.
    1-3: repeat split;
      [ done
      | constructor; [|constructor]; split; cbn; [discriminate|];
        intros H; discriminate H
      | intros; rewrite Hstep by (rewrite <- ?Hpeek; assumption);
        rewrite scan_keyword_at by (rewrite <- ?Hpeek; assumption);
        cbv zeta; fold word;
        rewrite ?Htrue, ?Hfalse, ?Hnull, <- app_assoc; reflexivity
      | intros ext Hext; intros; rewrite <- app_assoc;
        rewrite Hstep
          by (rewrite <- ?Hpeek; try apply head_app_quote; done);
        rewrite scan_keyword_at
          by (rewrite <- ?Hpeek; try apply head_app_quote; done);
        cbv zeta; fold word;
        rewrite ?Htrue, ?Hfalse, ?Hnull, <- app_assoc; reflexivity ].
    right; eexists; intros.
    rewrite Hstep by (rewrite <- ?Hpeek; assumption).
    rewrite scan_keyword_at by (rewrite <- ?Hpeek; assumption).
    cbv zeta; fold word; rewrite Htrue, Hfalse, Hnull; reflexivity. }
  right. eexists. intros.
  apply scan_tokens_loop_unexpected; assumption.
Qed.

(** The whole loop on a text [rest]: its result [r] is either the tokens of
    the text, reached at the end of the input, or a [ValueError]; it does not
    depend on the fuel (if more than the length of the text), on the tokens
    before or on the text before.  When a text that starts with a double
    quote follows, the loop reaches that quote with the same tokens. *)
Lemma scan_tokens_loop_run (rest : list ascii) :
  ∃ r : list Token + string,
    (∀ fuel tokens pre, length rest < fuel →
       Scanner.scan_tokens_loop fuel tokens (at_ pre rest)
       = match r with
         | inl new => Ok (tokens ++ new, at_ (pre ++ rest) [])
         | inr msg => Raise (ValueError msg)
         end)
    ∧ match r with
      | inl new =>
          Forall scanned_token new
          ∧ ∀ ext, starts_with_quote ext → ∀ fuel tokens pre,
              length (rest ++ ext) < fuel →
              ∃ fuel', length ext < fuel'
                ∧ Scanner.scan_tokens_loop fuel tokens (at_ pre (rest ++ ext))
                  = Scanner.scan_tokens_loop fuel' (tokens ++ new)
                      (at_ (pre ++ rest) ext)
      | inr _ => True
      end.
Proof.
  remember (length rest) as n eqn:Hn. revert rest Hn.
  induction n as [n IH] using lt_wf_ind. intros rest ->.
  destruct rest as [|c rest].
  { exists (inl []). split; [|split; [constructor|]].
    - intros [|fuel] tokens pre Hfuel; [simpl in Hfuel; lia|].
      rewrite scan_tokens_loop_end, !app_nil_r. reflexivity.
    - intros ext Hext fuel tokens pre Hfuel. exists fuel.
      rewrite !app_nil_r. split; [exact Hfuel | reflexivity]. }
  destruct (scan_tokens_loop_step c rest)
    as [(new & consumed & rest' & Hsplit & Hne & Hnew & Hstep & Hstep_ext)
       | (msg & Hfail)].
  - assert (Hlen : length rest' < length (c :: rest)).
    { rewrite Hsplit, length_app. destruct consumed; [done | simpl; lia]. }
    destruct (IH _ Hlen rest' eq_refl) as (r' & Hrun & Hr').
    destruct r' as [new'|msg].
    + destruct Hr' as [Hnew' Hext'].
      exists (inl (new ++ new')). split; [|split].
      * intros [|fuel] tokens pre Hfuel; [simpl in Hfuel; lia|].
        rewrite Hstep, Hrun by (simpl in *; lia).
        rewrite Hsplit, <- !app_assoc. reflexivity.
      * apply Forall_app; split; assumption.
      * intros ext Hext [|fuel] tokens pre Hfuel; [simpl in Hfuel; lia|].
        cbn [app]. rewrite Hstep_ext by assumption.
        destruct (Hext' ext Hext fuel (tokens ++ new) (pre ++ consumed))
          as (fuel' & Hfuel' & Heq).
        { rewrite length_app in *. simpl in *. lia. }
        exists fuel'. split; [exact Hfuel'|].
        rewrite Heq, Hsplit, <- !app_assoc. reflexivity.
    + exists (inr msg). split; [|exact I].
      intros [|fuel] tokens pre Hfuel; [simpl in Hfuel; lia|].
      rewrite Hstep, Hrun by (simpl in *; lia). reflexivity.
  - exists (inr msg). split; [|exact I].
    intros [|fuel] tokens pre Hfuel; [simpl in Hfuel; lia|].
    apply Hfail.
Qed.

(** ** The parser at a position of its token list *)

Lemma pat_nil (tokens : list Token) : Parser.init tokens = pat_ [] tokens.
Proof. reflexivity. Qed.

Lemma advance_pat (pre rest : list Token) :
  Parser.advance (pat_ pre rest)
  = match rest with
    | t :: rest' => Ok (t, pat_ (pre ++ [t]) rest')
    | [] => Raise IndexError
    end.
Proof.
  unfold Parser.advance, pat_; simpl. destruct rest as [|t rest].
  - rewrite lookup_ge_None_2; [reflexivity | rewrite length_app; simpl; lia].
  - rewrite list_lookup_middle by reflexivity.
    rewrite length_app, <- app_assoc. reflexivity.
Qed.

Lemma peek_pat (pre rest : list Token) :
  Parser.peek (pat_ pre rest)
  = match rest with
    | t :: _ => Ok (t, pat_ pre rest)
    | [] => Raise IndexError
    end.
Proof.
  unfold Parser.peek, pat_; simpl. destruct rest as [|t rest].
  - rewrite lookup_ge_None_2; [reflexivity | rewrite length_app; simpl; lia].
  - rewrite list_lookup_middle by reflexivity. reflexivity.
Qed.

Lemma expect_pat (token_type error_message : string) (pre rest : list Token) :
  Parser.expect token_type error_message (pat_ pre rest)
  = match rest with
    | t :: rest' =>
        if String.eqb (type t) token_type then Ok (t, pat_ (pre ++ [t]) rest')
        else Raise (ValueError error_message)
    | [] => Raise IndexError
    end.
Proof.
  unfold Parser.expect, bind. rewrite peek_pat.
  destruct rest as [|t rest]; [reflexivity|].
  destruct (String.eqb (type t) token_type); simpl; [|reflexivity].
  apply advance_pat.
Qed.

Section Localized.

Context {A B : Type}.
Implicit Types (c : M Parser.t A) (k : A → M Parser.t B).

Lemma localized_ext strict bound c c' rest :
  (∀ s, c s = c' s) → localized strict bound c' rest →
  localized strict bound c rest.
Proof.
  intros Hext [(a & consumed & rest' & H1 & H2 & H3 & H4)
              | [(msg & H) | [(H1 & H2) | (H1 & H2)]]].
  - left. exists a, consumed, rest'. repeat split; try assumption.
    intros. rewrite Hext. apply H4.
  - right; left. exists msg. intros. rewrite Hext. apply H.
  - right; right; left. split; [assumption|].
    intros. rewrite Hext. apply H2.
  - right; right; right. split; [assumption|].
    intros. rewrite Hext. apply H2.
Qed.

Lemma localized_weaken strict strict' bound bound' c rest :
  (strict' = true → strict = true) → bound' ≤ bound →
  localized strict bound c rest → localized strict' bound' c rest.
Proof.
  intros Hs Hb [(a & consumed & rest' & H1 & H2 & H3 & H4)
               | [(msg & H) | [(H1 & H2) | (H1 & H2)]]].
  - left. exists a, consumed, rest'. repeat split; auto.
  - right; left. eauto.
  - right; right; left. eauto.
  - right; right; right. split; [lia | assumption].
Qed.

Lemma localized_ret bound (a : A) rest : localized false bound (ret a) rest.
Proof.
  left. exists a, [], rest. repeat split; [constructor | done |].
  intros. rewrite app_nil_r. reflexivity.
Qed.

Lemma localized_raise strict bound msg rest :
  localized (A := A) strict bound (raise (ValueError msg)) rest.
Proof. right; left. exists msg. reflexivity. Qed.

Lemma localized_out_of_fuel strict rest :
  localized (A := A) strict 0 out_of_fuel rest.
Proof. right; right; right. split; [lia | reflexivity]. Qed.

Lemma localized_bind strict1 strict2 bound c k rest :
  localized strict1 bound c rest →
  (∀ a consumed rest',
     rest = consumed ++ rest' → localized strict2 bound (k a) rest') →
  localized (strict1 || strict2) bound (bind c k) rest.
Proof.
  intros [(a & consumed & rest' & -> & Hc & Hs & Hrun)
         | [(msg & H) | [(H1 & H2) | (H1 & H2)]]] Hk.
  - destruct (Hk a consumed rest' eq_refl)
      as [(b & consumed' & rest'' & -> & Hc' & Hs' & Hrun')
         | [(msg & H) | [(H1 & H2) | (H1 & H2)]]].
    + left. exists b, (consumed ++ consumed'), rest''.
      split; [apply app_assoc|]. split; [apply Forall_app; done|].
      split.
      * intros [->| ->]%orb_true_iff.
        -- specialize (Hs eq_refl). destruct consumed; done.
        -- specialize (Hs' eq_refl). destruct consumed, consumed'; done.
      * intros pre tail. unfold bind.
        rewrite <- !app_assoc, Hrun, Hrun', app_assoc. reflexivity.
    + right; left. exists msg. intros pre. unfold bind.
      rewrite Hrun. apply H.
    + right; right; left. split; [apply Forall_app; done|].
      intros pre. unfold bind. rewrite Hrun. apply H2.
    + right; right; right. split; [rewrite length_app; lia|].
      intros pre. unfold bind. rewrite Hrun. apply H2.
  - right; left. exists msg. intros pre. unfold bind. rewrite H. reflexivity.
  - right; right; left. split; [assumption|].
    intros pre. unfold bind. rewrite H2. reflexivity.
  - right; right; right. split; [assumption|].
    intros pre. unfold bind. rewrite H2. reflexivity.
Qed.

End Localized.

Lemma localized_expect (bound : nat) (token_type error_message : string)
    (rest : list Token) :
  token_type ≠ TokenType.EOF →
  localized true bound (Parser.expect token_type error_message) rest.
Proof.
  intros Hty. destruct rest as [|t rest].
  - right; right; left. split; [constructor|]. intros. apply expect_pat.
  - destruct (String.eqb (type t) token_type) eqn:Ht.
    + left. exists t, [t], rest. repeat split.
      * constructor; [|constructor]. unfold not_eof.
        apply String.eqb_eq in Ht. congruence.
      * done.
      * intros. cbn [app]. rewrite expect_pat, Ht. reflexivity.
    + right; left. exists error_message. intros.
      rewrite expect_pat, Ht. reflexivity.
Qed.

(** [peek] followed by a method that consumes the token it has seen if it
    returns. *)
Lemma localized_peek_bind {B} (bound : nat) (k : Token → M Parser.t B)
    (rest : list Token) :
  (∀ t rest', rest = t :: rest' → localized true bound (k t) rest) →
  localized true bound (bind Parser.peek k) rest.
Proof.
  intros Hk. destruct rest as [|t rest].
  - right; right; left. split; [constructor|]. intros. unfold bind.
    rewrite peek_pat. reflexivity.
  - destruct (Hk t rest eq_refl)
      as [(b & consumed & rest' & Hsplit & Hc & Hs & Hrun)
         | [(msg & H) | [(H1 & H2) | (H1 & H2)]]].
    + left. exists b, consumed, rest'. repeat split; try assumption.
      intros pre tail. unfold bind. rewrite peek_pat.
      destruct consumed as [|t' consumed]; [destruct (Hs eq_refl eq_refl)|].
      injection Hsplit as <- _. cbn [app]. apply Hrun.
    + right; left. exists msg. intros. unfold bind. rewrite peek_pat. apply H.
    + right; right; left. split; [assumption|].
      intros. unfold bind. rewrite peek_pat. apply H2.
    + right; right; right. split; [assumption|].
      intros. unfold bind. rewrite peek_pat. apply H2.
Qed.

(** [advance] followed by a method that refuses the end-of-input token. *)
Lemma localized_advance_bind {B} (strict : bool) (bound : nat)
    (k : Token → M Parser.t B) (rest : list Token) :
  (∀ t rest', rest = t :: rest' →
     if String.eqb (type t) TokenType.EOF
     then ∃ msg, ∀ s, k t s = Raise (ValueError msg)
     else localized strict bound (k t) rest') →
  localized true (S bound) (bind Parser.advance k) rest.
Proof.
  intros Hk. destruct rest as [|t rest].
  - right; right; left. split; [constructor|]. intros. unfold bind.
    rewrite advance_pat. reflexivity.
  - specialize (Hk t rest eq_refl).
    destruct (String.eqb (type t) TokenType.EOF) eqn:Ht.
    { destruct Hk as (msg & Hk). right; left. exists msg. intros.
      unfold bind. rewrite advance_pat. apply Hk. }
    apply String.eqb_neq in Ht.
    destruct Hk as [(b & consumed & rest' & -> & Hc & Hs & Hrun)
                   | [(msg & H) | [(H1 & H2) | (H1 & H2)]]].
    + left. exists b, (t :: consumed), rest'. repeat split.
      * constructor; assumption.
      * done.
      * intros pre tail. unfold bind. cbn [app]. rewrite advance_pat.
        rewrite Hrun, <- app_assoc. reflexivity.
    + right; left. exists msg. intros. unfold bind.
      rewrite advance_pat. apply H.
    + right; right; left. split; [constructor; assumption|].
      intros. unfold bind. rewrite advance_pat. apply H2.
    + right; right; right. split; [simpl; lia|].
      intros. unfold bind. rewrite advance_pat. apply H2.
Qed.

(** ** The productions are local *)

(** Pointwise equalities of methods are proved by cases on every outcome. *)
Ltac by_outcomes :=
  intros; unfold bind, ret, raise;
  repeat match goal with
         | |- context [match ?x with _ => _ end] =>
             lazymatch x with
             | context [match _ with _ => _ end] => fail
             | _ => destruct x
             end
         end;
  reflexivity.

Section ProductionsLocalized.

Variable parse_value : M Parser.t JsonValue.
Variable fuel_value : nat.
Hypothesis parse_value_localized :
  ∀ rest, localized true fuel_value parse_value rest.

Lemma parse_array_localized (fuel : nat) (arr : list JsonValue)
    (rest : list Token) :
  fuel ≤ fuel_value →
  localized true fuel
    (let* arr' := Parser.parse_array_loop parse_value fuel arr in
     let* _ := Parser.expect TokenType.RIGHT_BRACKET
                 "Expected ']' at end of array" in
     ret (JList arr'))
    rest.
Proof.
  revert arr rest. induction fuel as [|fuel IH]; intros arr rest Hfuel.
  { eapply localized_ext; [|apply localized_out_of_fuel]. reflexivity. }
  set (finish := λ arr' : list JsonValue,
         let* _ := Parser.expect TokenType.RIGHT_BRACKET
                     "Expected ']' at end of array" in
         ret (JList arr')).
  assert (Hfinish : ∀ arr' rest', localized true (S fuel) (finish arr') rest').
  { intros. apply (localized_bind true false).
    - apply localized_expect. discriminate.
    - intros. apply localized_ret. }
  apply localized_ext with
    (c' := let* token := Parser.peek in
           if negb (String.eqb (type token) TokenType.RIGHT_BRACKET) then
             let* v := parse_value in
             let* token := Parser.peek in
             if String.eqb (type token) TokenType.COMMA then
               let* _ := Parser.advance in
               let* arr' := Parser.parse_array_loop parse_value fuel
                              (arr ++ [v]) in
               finish arr'
             else finish (arr ++ [v])
           else finish arr).
  { cbn [Parser.parse_array_loop]. by_outcomes. }
  apply localized_peek_bind. intros t rest' ->.
  destruct (negb _); [|apply Hfinish].
  apply (localized_bind true true).
  { eapply localized_weaken; [| |apply parse_value_localized]; auto. }
  intros v consumed rest1 _.
  apply localized_peek_bind. intros t1 rest2 ->.
  destruct (String.eqb (type t1) TokenType.COMMA) eqn:Hcomma;
    [|apply Hfinish].
  apply (localized_advance_bind true). intros t2 rest3 [= <- <-].
  apply String.eqb_eq in Hcomma. rewrite Hcomma. cbn.
  apply IH. lia.
Qed.

Lemma parse_object_localized (fuel : nat)
    (obj : list (Literal * JsonValue)) (rest : list Token) :
  fuel ≤ fuel_value →
  localized true fuel
    (let* obj' := Parser.parse_object_loop parse_value fuel obj in
     let* _ := Parser.expect TokenType.RIGHT_BRACE
                 "Expected '}' at end of object" in
     ret (JDict obj'))
    rest.
Proof.
  revert obj rest. induction fuel as [|fuel IH]; intros obj rest Hfuel.
  { eapply localized_ext; [|apply localized_out_of_fuel]. reflexivity. }
  set (finish := λ obj' : list (Literal * JsonValue),
         let* _ := Parser.expect TokenType.RIGHT_BRACE
                     "Expected '}' at end of object" in
         ret (JDict obj')).
  assert (Hfinish : ∀ obj' rest', localized true (S fuel) (finish obj') rest').
  { intros. apply (localized_bind true false).
    - apply localized_expect. discriminate.
    - intros. apply localized_ret. }
  apply localized_ext with
    (c' := let* token := Parser.peek in
           if negb (String.eqb (type token) TokenType.RIGHT_BRACE) then
             let* key := Parser.expect TokenType.STRING
                           "Expected string key" in
             let* _ := Parser.expect TokenType.COLON
                         "Expected ':' after key" in
             let* v := parse_value in
             let* token := Parser.peek in
             if String.eqb (type token) TokenType.COMMA then
               let* _ := Parser.advance in
               let* obj' := Parser.parse_object_loop parse_value fuel
                              (dict_set obj (value key) v) in
               finish obj'
             else finish (dict_set obj (value key) v)
           else finish obj).
  { cbn [Parser.parse_object_loop]. by_outcomes. }
  apply localized_peek_bind. intros t rest' ->.
  destruct (negb _); [|apply Hfinish].
  apply (localized_bind true true); [apply localized_expect; discriminate|].
  intros key consumed0 rest0 _.
  apply (localized_bind true true); [apply localized_expect; discriminate|].
  intros _ consumed0' rest0' _.
  apply (localized_bind true true).
  { eapply localized_weaken; [| |apply parse_value_localized]; auto. }
  intros v consumed rest1 _.
  apply localized_peek_bind. intros t1 rest2 ->.
  destruct (String.eqb (type t1) TokenType.COMMA) eqn:Hcomma;
    [|apply Hfinish].
  apply (localized_advance_bind true). intros t2 rest3 [= <- <-].
  apply String.eqb_eq in Hcomma. rewrite Hcomma. cbn.
  apply IH. lia.
Qed.

End ProductionsLocalized.

(** [parse_value] is local, with its fuel as bound. *)
Lemma parse_value_localized (fuel : nat) (rest : list Token) :
  localized true fuel (Parser.parse_value fuel) rest.
Proof.
  revert rest. induction fuel as [|fuel IH]; intros rest.
  { apply localized_out_of_fuel. }
  cbn [Parser.parse_value].
  apply (localized_advance_bind false). intros t rest' ->.
  destruct (String.eqb (type t) TokenType.EOF) eqn:Heof.
  { apply String.eqb_eq in Heof. rewrite Heof. cbn. eauto. }
  destruct (Parser.is_literal_type (type t)).
  { apply localized_ret. }
  destruct (String.eqb (type t) TokenType.LEFT_BRACE).
  { eapply localized_weaken;
      [| |apply (parse_object_localized _ fuel IH fuel [] rest')]; auto. }
  destruct (String.eqb (type t) TokenType.LEFT_BRACKET).
  { eapply localized_weaken;
      [| |apply (parse_array_localized _ fuel IH fuel [] rest')]; auto. }
  apply localized_raise.
Qed.

(** ** More fuel does not change an outcome *)

Lemma refines_refl {St A} (c : M St A) : refines c c.
Proof. intros s. right. reflexivity. Qed.

Lemma refines_out_of_fuel {St A} (c : M St A) : refines out_of_fuel c.
Proof. intros s. left. reflexivity. Qed.

Lemma refines_bind {St A B} (c c' : M St A) (k k' : A → M St B) :
  refines c c' → (∀ a, refines (k a) (k' a)) →
  refines (bind c k) (bind c' k').
Proof.
  intros Hc Hk s. unfold bind.
  destruct (Hc s) as [H|H]; rewrite H; [left; reflexivity|].
  destruct (c s) as [[a s']| |]; [apply Hk | right; reflexivity..].
Qed.

Lemma refines_if {St A} (b : bool) (c1 c1' c2 c2' : M St A) :
  refines c1 c1' → refines c2 c2' →
  refines (if b then c1 else c2) (if b then c1' else c2').
Proof. destruct b; auto. Qed.

Lemma refines_Ok {St A} (c c' : M St A) s a s' :
  refines c c' → c s = Ok (a, s') → c' s = Ok (a, s').
Proof. intros H Hc. destruct (H s) as [H'|H']; congruence. Qed.

Section ProductionsFuel.

Variables parse_value parse_value' : M Parser.t JsonValue.
Hypothesis parse_value_refines : refines parse_value parse_value'.

Lemma parse_array_loop_refines (fuel fuel' : nat) (arr : list JsonValue) :
  fuel ≤ fuel' →
  refines (Parser.parse_array_loop parse_value fuel arr)
    (Parser.parse_array_loop parse_value' fuel' arr).
Proof.
  revert fuel' arr. induction fuel as [|fuel IH]; intros fuel' arr Hfuel.
  { apply refines_out_of_fuel. }
  destruct fuel' as [|fuel']; [lia|]. cbn [Parser.parse_array_loop].
  apply refines_bind; [apply refines_refl|]. intros token.
  apply refines_if; [|apply refines_refl].
  apply refines_bind; [apply parse_value_refines|]. intros v.
  apply refines_bind; [apply refines_refl|]. intros token'.
  apply refines_if; [|apply refines_refl].
  apply refines_bind; [apply refines_refl|]. intros _.
  apply IH. lia.
Qed.

Lemma parse_object_loop_refines (fuel fuel' : nat)
    (obj : list (Literal * JsonValue)) :
  fuel ≤ fuel' →
  refines (Parser.parse_object_loop parse_value fuel obj)
    (Parser.parse_object_loop parse_value' fuel' obj).
Proof.
  revert fuel' obj. induction fuel as [|fuel IH]; intros fuel' obj Hfuel.
  { apply refines_out_of_fuel. }
  destruct fuel' as [|fuel']; [lia|]. cbn [Parser.parse_object_loop].
  apply refines_bind; [apply refines_refl|]. intros token.
  apply refines_if; [|apply refines_refl].
  apply refines_bind; [apply refines_refl|]. intros key.
  apply refines_bind; [apply refines_refl|]. intros _.
  apply refines_bind; [apply parse_value_refines|]. intros v.
  apply refines_bind; [apply refines_refl|]. intros token'.
  apply refines_if; [|apply refines_refl].
  apply refines_bind; [apply refines_refl|]. intros _.
  apply IH. lia.
Qed.

End ProductionsFuel.

Lemma parse_value_refines (fuel fuel' : nat) :
  fuel ≤ fuel' →
  refines (Parser.parse_value fuel) (Parser.parse_value fuel').
Proof.
  revert fuel'. induction fuel as [|fuel IH]; intros fuel' Hfuel.
  { apply refines_out_of_fuel. }
  destruct fuel' as [|fuel']; [lia|]. cbn [Parser.parse_value].
  assert (Hrec : refines (Parser.parse_value fuel) (Parser.parse_value fuel'))
    by (apply IH; lia).
  apply refines_bind; [apply refines_refl|]. intros token.
  apply refines_if; [apply refines_refl|].
  apply refines_if.
  { unfold Parser.parse_object. apply refines_bind; [|intros; apply refines_refl].
    apply parse_object_loop_refines; [exact Hrec | lia]. }
  apply refines_if; [|apply refines_refl].
  unfold Parser.parse_array. apply refines_bind; [|intros; apply refines_refl].
  apply parse_array_loop_refines; [exact Hrec | lia].
Qed.

(** ** The whole scan and the whole parse *)

Lemma scan_tokens_run (text : list ascii) :
  ∃ r : list Token + string,
    Scanner.scan_tokens (Scanner.init text)
    = match r with
      | inl new => Ok (new ++ [eof_token], at_ text [])
      | inr msg => Raise (ValueError msg)
      end
    ∧ match r with
      | inl new =>
          Forall scanned_token new
          ∧ ∀ ext, starts_with_quote ext →
              ∃ fuel', length ext < fuel'
                ∧ Scanner.scan_tokens (Scanner.init (text ++ ext))
                  = (let* tokens := Scanner.scan_tokens_loop fuel' new in
                     ret (tokens ++ [eof_token])) (at_ text ext)
      | inr _ => True
      end.
Proof.
  destruct (scan_tokens_loop_run text) as (r & Hrun & Hr).
  exists r. split.
  - unfold Scanner.scan_tokens, bind, get. rewrite at_nil, fuel_left_at.
    rewrite Hrun by lia. destruct r; reflexivity.
  - destruct r as [new|msg]; [|exact I].
    destruct Hr as [Hnew Hext]. split; [exact Hnew|].
    intros ext Hq.
    destruct (Hext ext Hq (S (length (text ++ ext))) [] [])
      as (fuel' & Hfuel' & Heq); [lia|].
    exists fuel'. split; [exact Hfuel'|].
    unfold Scanner.scan_tokens, bind, get. rewrite at_nil, fuel_left_at.
    rewrite Heq. reflexivity.
Qed.

(** The scanner never runs out of fuel. *)
Lemma scan_tokens_total (text : list ascii) :
  Scanner.scan_tokens (Scanner.init text) ≠ OutOfFuel.
Proof.
  destruct (scan_tokens_run text) as ([new|msg] & -> & _); discriminate.
Qed.

(** The outcomes of [parse] on any list of tokens. *)
Lemma parse_run (tokens : list Token) :
  (∃ v consumed rest,
     tokens = consumed ++ rest ∧ consumed ≠ [] ∧ Forall not_eof consumed
     ∧ ∀ tail fuel, length tokens < fuel →
         Parser.parse_value fuel (pat_ [] (consumed ++ tail))
         = Ok (v, pat_ consumed tail))
  ∨ (∃ msg, Parser.parse (Parser.init tokens) = Raise (ValueError msg))
  ∨ (Forall not_eof tokens
     ∧ Parser.parse (Parser.init tokens) = Raise IndexError).
Proof.
  unfold Parser.parse, bind, get. rewrite pat_nil. cbn [Parser.tokens pat_ app].
  destruct (parse_value_localized (S (length tokens)) tokens)
    as [(v & consumed & rest & Hsplit & Hc & Hs & Hrun)
       | [(msg & H) | [(H1 & H2) | (H1 & H2)]]].
  - left. exists v, consumed, rest. repeat split; auto.
    intros tail fuel Hfuel.
    eapply refines_Ok; [apply (parse_value_refines (S (length tokens))); lia|].
    apply (Hrun [] tail).
  - right; left. exists msg. apply (H []).
  - right; right. split; [assumption | apply (H2 [])].
  - lia.
Qed.

(** The parser never runs out of fuel. *)
Lemma parse_total (tokens : list Token) :
  Parser.parse (Parser.init tokens) ≠ OutOfFuel.
Proof.
  destruct (parse_run tokens)
    as [(v & consumed & rest & -> & _ & _ & Hrun) | [(msg & H) | (_ & H)]].
  - unfold Parser.parse, bind, get. rewrite pat_nil.
    cbn [Parser.tokens pat_ app]. fold (pat_ [] (consumed ++ rest)).
    rewrite Hrun by lia. discriminate.
  - rewrite H. discriminate.
  - rewrite H. discriminate.
Qed.

(** [parse_json] never runs out of fuel: its outcome is a value or an
    exception. *)
Lemma parse_json_total (json_str : string) : parse_json json_str ≠ OutOfFuel.
Proof.
  unfold parse_json.
  pose proof (scan_tokens_total (list_ascii_of_string json_str)) as Hscan.
  destruct (Scanner.scan_tokens _) as [[tokens self]| |];
    [|discriminate | done].
  pose proof (parse_total tokens) as Hparse.
  destruct (Parser.parse _) as [[v self']| |]; [discriminate.. | done].
Qed.

(** The scanner raises [ValueError] only, and every [STRING] token it
    returns carries a [str]. *)
Lemma scan_tokens_string_values (json_str : string) :
  (∃ tokens,
     scan json_str = Ok tokens
     ∧ Forall (λ t, type t = TokenType.STRING → ∃ s, value t = LStr s) tokens)
  ∨ ∃ msg, scan json_str = Raise (ValueError msg).
Proof.
  unfold scan.
  destruct (scan_tokens_run (list_ascii_of_string json_str))
    as ([new|msg] & -> & Hr); [left | right; eauto].
  destruct Hr as [Hnew _]. eexists. split; [reflexivity|].
  apply Forall_app. split.
  - eapply Forall_impl; [exact Hnew|]. intros t [_ Ht]. exact Ht.
  - constructor; [|constructor]. intros Ht. discriminate Ht.
Qed.

Lemma list_ascii_of_string_app (s1 s2 : string) :
  list_ascii_of_string (s1 ++ s2)
  = list_ascii_of_string s1 ++ list_ascii_of_string s2.
Proof. induction s1 as [|c s1 IH]; simpl; [|rewrite IH]; reflexivity. Qed.

(** ** Lemmas for the properties *)

Lemma not_elem_of_decide {A} `{EqDecision A} (x : A) (l : list A) :
  bool_decide (x ∉ l) = true → x ∉ l.
Proof. apply bool_decide_eq_true_1. Qed.

Lemma scan_tokens_loop_all_whitespace (text pre : list ascii)
    (tokens : list Token) (fuel : nat) :
  Forall (λ c, char_in c whitespace = true) text →
  length text < fuel →
  Scanner.scan_tokens_loop fuel tokens (at_ pre text)
  = Ok (tokens, at_ (pre ++ text) []).
Proof.
  revert pre fuel. induction text as [|c text IH]; intros pre fuel Hws Hfuel;
    (destruct fuel as [|fuel]; [simpl in Hfuel; lia|]).
  - rewrite scan_tokens_loop_end, app_nil_r. reflexivity.
  - apply Forall_cons in Hws as [Hc Hws].
    rewrite scan_tokens_loop_whitespace by assumption.
    rewrite IH by (simpl in Hfuel; auto with lia).
    rewrite <- app_assoc. reflexivity.
Qed.

(** [parse_value] on the token [t] at the cursor. *)
Lemma parse_value_step (fuel : nat) (pre : list Token) (t : Token)
    (rest : list Token) :
  Parser.parse_value (S fuel) (pat_ pre (t :: rest))
  = if Parser.is_literal_type (type t) then
      Ok (JLit (value t), pat_ (pre ++ [t]) rest)
    else if String.eqb (type t) TokenType.LEFT_BRACE then
      Parser.parse_object (Parser.parse_value fuel) fuel
        (pat_ (pre ++ [t]) rest)
    else if String.eqb (type t) TokenType.LEFT_BRACKET then
      Parser.parse_array (Parser.parse_value fuel) fuel
        (pat_ (pre ++ [t]) rest)
    else Raise (ValueError ("Unexpected token: " ++ type t)).
Proof.
  cbn [Parser.parse_value]. unfold bind. rewrite advance_pat.
  repeat match goal with |- context [if ?b then _ else _] =>
    destruct b end; reflexivity.
Qed.

Lemma digits_value_point (acc : Z) (a b : list ascii) :
  digits_value acc (a ++ "."%char :: b) = None.
Proof.
  revert acc. induction a as [|d a IH]; intros acc; simpl.
  - reflexivity.
  - destruct (decimal_digit d); [apply IH | reflexivity].
Qed.

Lemma split_point_app (a b : list ascii) :
  Forall (λ c, c ≠ "."%char) a →
  split_point (a ++ "."%char :: b) = (a, Some b).
Proof.
  induction 1 as [|c a Hc _ IH]; simpl; [reflexivity|].
  rewrite IH. apply Ascii.eqb_neq in Hc. rewrite Hc. reflexivity.
Qed.

Lemma split_at_first_point (text : list ascii) :
  Forall (λ c, c ≠ "."%char) text
  ∨ ∃ a b, text = a ++ "."%char :: b ∧ Forall (λ c, c ≠ "."%char) a.
Proof.
  induction text as [|c text [IH | (a & b & -> & Ha)]].
  - left. constructor.
  - destruct (decide (c = "."%char)) as [->|Hc].
    + right. exists [], text. split; [reflexivity | constructor].
    + left. constructor; assumption.
  - right. destruct (decide (c = "."%char)) as [->|Hc].
    + exists [], (a ++ "."%char :: b). split; [reflexivity | constructor].
    + exists (c :: a), b. split; [reflexivity | constructor; assumption].
Qed.

(** A text with two decimal points is no number for [float]. *)
Lemma py_float_two_points (a b c : list ascii) :
  py_float (a ++ "."%char :: b ++ "."%char :: c) = None.
Proof.
  assert (Hunsigned : ∀ neg a,
    unsigned_float neg (a ++ "."%char :: b ++ "."%char :: c) = None).
  { clear a. intros neg a. unfold unsigned_float.
    destruct (split_at_first_point a) as [Ha | (a1 & a2 & -> & Ha1)].
    - rewrite split_point_app by assumption. cbv beta iota zeta.
      rewrite app_assoc, digits_value_point.
      match goal with |- match ?l with _ => _ end = _ => destruct l end;
        reflexivity.
    - rewrite <- app_assoc. cbn [app].
      rewrite split_point_app by assumption. cbv beta iota zeta.
      replace (a1 ++ a2 ++ "."%char :: b ++ "."%char :: c)
        with ((a1 ++ a2) ++ "."%char :: b ++ "."%char :: c)
        by (rewrite <- app_assoc; reflexivity).
      rewrite digits_value_point.
      match goal with |- match ?l with _ => _ end = _ => destruct l end;
        reflexivity. }
  unfold py_float. destruct a as [|d a]; [apply (Hunsigned false [])|].
  destruct (decide (d = "-"%char)) as [->|Hd].
  - apply Hunsigned.
  - change (d :: a) with ([d] ++ a).
    assert (Heq : ∀ l, match [d] ++ l with
                       | "-"%char :: ds => unsigned_float true ds
                       | _ => unsigned_float false ([d] ++ l)
                       end = unsigned_float false ([d] ++ l)).
    { intros l. cbn [app].
      destruct d as [[] [] [] [] [] [] [] []]; try reflexivity.
      destruct Hd. reflexivity. }
    rewrite <- app_assoc. rewrite Heq.
    rewrite app_assoc. apply (Hunsigned false ([d] ++ a)).
Qed.

Lemma has_point_middle (a b : list ascii) :
  existsb (Ascii.eqb ".") (a ++ "."%char :: b) = true.
Proof.
  rewrite existsb_app. cbn. apply orb_true_r.
Qed.

(** The branch of [scan_tokens] for a number, with the text it captures. *)
Lemma scan_tokens_loop_number_at (fuel : nat) (tokens : list Token)
    (pre : list ascii) (c : ascii) (run rest : list ascii) :
  starts_number c = true →
  Forall (λ d, is_number_char d = true) run →
  peek_number (head rest) = false →
  Scanner.scan_tokens_loop (S fuel) tokens (at_ pre (c :: run ++ rest))
  = let number := c :: run in
    if existsb (Ascii.eqb ".") number then
      match py_float number with
      | Some f =>
          Scanner.scan_tokens_loop fuel
            (tokens ++ [mkToken TokenType.NUMBER (LFloat f)])
            (at_ (pre ++ number) rest)
      | None =>
          Raise (ValueError
                   ("could not convert string to float: " ++ repr number))
      end
    else
      match py_int number with
      | Some z =>
          Scanner.scan_tokens_loop fuel
            (tokens ++ [mkToken TokenType.NUMBER (LInt z)])
            (at_ (pre ++ number) rest)
      | None =>
          Raise (ValueError
                   ("invalid literal for int() with base 10: "
                    ++ repr number))
      end.
Proof.
  intros Hc Hrun Hrest.
  rewrite scan_tokens_loop_number by assumption.
  rewrite scan_number_at by assumption. cbv zeta.
  rewrite <- app_assoc. cbn [app].
  destruct (existsb _ _); [destruct (py_float _) | destruct (py_int _)];
    reflexivity.
Qed.

(** A minus sign followed by decimal points only is no number for
    [float]. *)
Lemma py_float_no_digit (points : list ascii) :
  Forall (λ c, c = "."%char) points →
  py_float ("-"%char :: points) = None.
Proof.
  intros Hpoints. cbn [py_float]. unfold unsigned_float.
  destruct Hpoints as [|c points -> Hpoints]; [reflexivity|].
  cbn [split_point Ascii.eqb Bool.eqb]. cbv beta iota zeta. cbn [app].
  destruct Hpoints as [|c points' -> _]; reflexivity.
Qed.

Lemma has_point_all_points (c : ascii) (points : list ascii) :
  Ascii.eqb "." c = false →
  Forall (λ c, c = "."%char) points →
  existsb (Ascii.eqb ".") (c :: points)
  = match points with [] => false | _ => true end.
Proof.
  intros Hc Hpoints. cbn [existsb]. rewrite Hc.
  destruct Hpoints as [|d points -> _]; reflexivity.
Qed.

(** [parse_json] is [parse] on the tokens of the scan. *)
Lemma parse_json_scan (json_str : string) (tokens : list Token) :
  scan json_str = Ok tokens →
  parse_json json_str
  = match Parser.parse (Parser.init tokens) with
    | Ok (v, _) => Ok v
    | Raise e => Raise e
    | OutOfFuel => OutOfFuel
    end.
Proof.
  unfold scan, parse_json.
  destruct (Scanner.scan_tokens _) as [[tokens' self]| |]; [|discriminate..].
  intros [= ->]. reflexivity.
Qed.

Lemma parse_unfold (tokens : list Token) :
  Parser.parse (Parser.init tokens)
  = Parser.parse_value (S (length tokens)) (pat_ [] tokens).
Proof. reflexivity. Qed.

(** Every successful call of [parse_value] moves the cursor forward over
    tokens that are not the end-of-input token. *)
Lemma parse_value_forward (fuel : nat) (pre rest : list Token)
    (v : JsonValue) (p : Parser.t) :
  Parser.parse_value fuel (pat_ pre rest) = Ok (v, p) →
  ∃ consumed rest',
    rest = consumed ++ rest' ∧ consumed ≠ [] ∧ Forall not_eof consumed
    ∧ p = pat_ (pre ++ consumed) rest'.
Proof.
  intros Hrun.
  destruct (parse_value_localized fuel rest)
    as [(v' & consumed & rest' & -> & Hc & Hs & Hrun')
       | [(msg & H) | [(H1 & H2) | (H1 & H2)]]].
  - exists consumed, rest'. rewrite Hrun' in Hrun. injection Hrun as _ <-.
    auto.
  - rewrite H in Hrun. discriminate.
  - rewrite H2 in Hrun. discriminate.
  - rewrite H2 in Hrun. discriminate.
Qed.

(** [parse_value] raises [IndexError] only where no end-of-input token is
    left. *)
Lemma parse_value_in_bounds (fuel : nat) (pre rest : list Token) :
  Parser.parse_value fuel (pat_ pre rest) = Raise IndexError →
  Forall not_eof rest.
Proof.
  intros Hrun.
  destruct (parse_value_localized fuel rest)
    as [(v' & consumed & rest' & -> & Hc & Hs & Hrun')
       | [(msg & H) | [(H1 & H2) | (H1 & H2)]]].
  - rewrite Hrun' in Hrun. discriminate.
  - rewrite H in Hrun. discriminate.
  - assumption.
  - rewrite H2 in Hrun. discriminate.
Qed.

Lemma not_eof_eof_token : ¬ not_eof eof_token.
Proof. intros H. apply H. reflexivity. Qed.

(** A run of tokens without end-of-input token that is a part of
    [tokens ++ [eof_token]] from its start is a part of [tokens]. *)
Lemma prefix_before_eof (consumed rest tokens : list Token) :
  consumed ++ rest = tokens ++ [eof_token] →
  Forall not_eof consumed →
  ∃ rest0, rest = rest0 ++ [eof_token] ∧ tokens = consumed ++ rest0.
Proof.
  intros Hsplit Hc.
  destruct rest as [|t rest _] using rev_ind.
  - rewrite app_nil_r in Hsplit. subst consumed.
    apply Forall_app in Hc as [_ Hc]. apply Forall_cons in Hc as [Hc _].
    destruct (not_eof_eof_token Hc).
  - rewrite app_assoc in Hsplit. apply app_inj_tail in Hsplit as [<- ->].
    exists rest. split; reflexivity.
Qed.

Lemma dict_set_keys (obj : list (Literal * JsonValue)) (key : Literal)
    (v : JsonValue) :
  (dict_set obj key v).*1 = add_key obj.*1 key.
Proof.
  unfold add_key. induction obj as [|[k w] obj IH]; [reflexivity|].
  cbn [dict_set fmap list_fmap fst].
  destruct (decide (k = key)) as [->|Hk].
  - rewrite decide_True by (left). reflexivity.
  - cbn [fmap list_fmap fst]. change (list_fmap _ _ fst ?l) with (l.*1).
    rewrite IH. destruct (decide (key ∈ obj.*1)) as [Hin|Hout].
    + rewrite decide_True by (right; exact Hin). reflexivity.
    + rewrite decide_False; [reflexivity|].
      intros [->|Hin]%elem_of_cons; [apply Hk; reflexivity | done].
Qed.

Lemma dict_get_set (obj : list (Literal * JsonValue)) (key key' : Literal)
    (v : JsonValue) :
  dict_get (dict_set obj key v) key'
  = if decide (key = key') then Some v else dict_get obj key'.
Proof.
  induction obj as [|[k w] obj IH]; cbn [dict_set dict_get].
  - reflexivity.
  - destruct (decide (k = key)) as [->|Hk]; cbn [dict_get].
    + destruct (decide (key = key')); reflexivity.
    + rewrite IH. destruct (decide (k = key')) as [->|Hk'].
      * rewrite decide_False by congruence. reflexivity.
      * reflexivity.
Qed.

Lemma add_key_NoDup (keys : list Literal) (key : Literal) :
  NoDup keys → NoDup (add_key keys key).
Proof.
  intros Hkeys. unfold add_key. destruct (decide (key ∈ keys)); [assumption|].
  apply NoDup_app. repeat split; [assumption | | apply NoDup_singleton].
  intros k Hk ->%list_elem_of_singleton. done.
Qed.

Lemma dict_update_keys (entries obj : list (Literal * JsonValue)) :
  (dict_update obj entries).*1 = fold_left add_key entries.*1 obj.*1.
Proof.
  revert obj. induction entries as [|[k v] entries IH]; intros obj.
  - reflexivity.
  - cbn. unfold dict_update in IH. rewrite IH, dict_set_keys. reflexivity.
Qed.

Lemma fold_add_key_NoDup (keys acc : list Literal) :
  NoDup acc → NoDup (fold_left add_key keys acc).
Proof.
  revert acc. induction keys as [|k keys IH]; intros acc Hacc; [assumption|].
  cbn. apply IH, add_key_NoDup, Hacc.
Qed.

Lemma dict_update_get (entries obj : list (Literal * JsonValue))
    (key : Literal) :
  dict_get (dict_update obj entries) key
  = match last_binding entries key with
    | Some w => Some w
    | None => dict_get obj key
    end.
Proof.
  revert obj. induction entries as [|[k v] entries IH]; intros obj.
  - reflexivity.
  - cbn. unfold dict_update in IH. rewrite IH.
    destruct (last_binding entries key); [reflexivity|].
    rewrite dict_get_set. destruct (decide (k = key)); reflexivity.
Qed.

Lemma dict_update_snoc (obj entries : list (Literal * JsonValue))
    (key : Literal) (v : JsonValue) :
  dict_set (dict_update obj entries) key v
  = dict_update obj (entries ++ [(key, v)]).
Proof. unfold dict_update. rewrite fold_left_app. reflexivity. Qed.

(** The loop of [parse_object] returns the dict built from the entries it
    reads, in their order. *)
Lemma parse_object_loop_entries (parse_value : M Parser.t JsonValue)
    (fuel : nat) (obj entries : list (Literal * JsonValue))
    (self : Parser.t) :
  Parser.parse_object_loop parse_value fuel (dict_update obj entries) self
  = match parse_object_entries parse_value fuel entries self with
    | Ok (entries', self') => Ok (dict_update obj entries', self')
    | Raise e => Raise e
    | OutOfFuel => OutOfFuel
    end.
Proof.
  revert entries self. induction fuel as [|fuel IH]; intros entries self.
  { reflexivity. }
  cbn [Parser.parse_object_loop parse_object_entries]. unfold bind, ret.
  destruct (Parser.peek self) as [[token self1]| |]; [|reflexivity..].
  destruct (negb _); [|reflexivity].
  destruct (Parser.expect _ _ self1) as [[key self2]| |]; [|reflexivity..].
  destruct (Parser.expect _ _ self2) as [[_x self3]| |]; [|reflexivity..].
  destruct (parse_value self3) as [[v self4]| |]; [|reflexivity..].
  rewrite dict_update_snoc.
  destruct (Parser.peek self4) as [[token' self5]| |]; [|reflexivity..].
  destruct (String.eqb _ _); [|reflexivity].
  destruct (Parser.advance self5) as [[_y self6]| |]; [|reflexivity..].
  apply IH.
Qed.

(** A value for [parse_value] has a first token, which is no closing
    bracket and no closing brace. *)
Lemma parses_as_head (fuel : nat) (run : list Token) (v : JsonValue) :
  parses_as fuel run v →
  ∃ t run',
    run = t :: run'
    ∧ String.eqb (type t) TokenType.RIGHT_BRACKET = false
    ∧ String.eqb (type t) TokenType.RIGHT_BRACE = false.
Proof.
  intros Hrun. specialize (Hrun [] []). rewrite app_nil_r in Hrun.
  destruct fuel as [|fuel]; [discriminate Hrun|].
  destruct run as [|t run].
  { cbn [Parser.parse_value] in Hrun. unfold bind in Hrun.
    rewrite advance_pat in Hrun. discriminate Hrun. }
  exists t, run. split; [reflexivity|].
  rewrite parse_value_step in Hrun.
  split.
  - destruct (String.eqb (type t) TokenType.RIGHT_BRACKET) eqn:Ht;
      [|reflexivity].
    apply String.eqb_eq in Ht. rewrite Ht in Hrun. discriminate Hrun.
  - destruct (String.eqb (type t) TokenType.RIGHT_BRACE) eqn:Ht;
      [|reflexivity].
    apply String.eqb_eq in Ht. rewrite Ht in Hrun. discriminate Hrun.
Qed.

(** Tokens that [parse_value] turns into [v] at one place are a value [v]
    at every place. *)
Lemma parses_as_intro (fuel : nat) (pre run tail : list Token)
    (v : JsonValue) :
  Parser.parse_value fuel (pat_ pre (run ++ tail))
  = Ok (v, pat_ (pre ++ run) tail) →
  parses_as fuel run v.
Proof.
  intros Hrun.
  destruct (parse_value_localized fuel (run ++ tail))
    as [(v' & consumed & rest' & Hsplit & Hc & Hs & Hrun')
       | [(msg & H) | [(H1 & H2) | (H1 & H2)]]];
    [|rewrite H in Hrun; discriminate Hrun
     |rewrite H2 in Hrun; discriminate Hrun..].
  rewrite Hsplit, Hrun' in Hrun. injection Hrun as -> _ Hlen.
  rewrite !length_app in Hlen.
  apply app_inj_1 in Hsplit as [-> _]; [exact Hrun' | lia].
Qed.

Lemma parses_as_fuel (fuel : nat) (run : list Token) (v : JsonValue) :
  parses_as fuel run v → 0 < fuel.
Proof.
  intros Hrun. specialize (Hrun [] []).
  destruct fuel; [discriminate Hrun | lia].
Qed.

Lemma parses_as_more_fuel (fuel fuel' : nat) (run : list Token)
    (v : JsonValue) :
  fuel ≤ fuel' → parses_as fuel run v → parses_as fuel' run v.
Proof.
  intros Hfuel Hrun pre tail.
  eapply refines_Ok; [apply parse_value_refines, Hfuel | apply Hrun].
Qed.

(** The loop of [parse_array] on elements separated by commas, with or
    without a comma after the last one. *)
Lemma parse_array_loop_elements (fuel : nat) (comma close : Token)
    (trailing : bool) (tail : list Token)
    (elems : list (list Token * JsonValue)) :
  type comma = TokenType.COMMA →
  type close = TokenType.RIGHT_BRACKET →
  elems ≠ [] →
  Forall (λ e, parses_as fuel e.1 e.2) elems →
  ∀ (n : nat) (arr : list JsonValue) (pre : list Token),
    length elems < n →
    Parser.parse_array_loop (Parser.parse_value fuel) n arr
      (pat_ pre
         ((comma_separated comma elems.*1
           ++ (if trailing then [comma] else [])) ++ close :: tail))
    = Ok (arr ++ elems.*2,
          pat_ (pre ++ comma_separated comma elems.*1
                ++ (if trailing then [comma] else []))
            (close :: tail)).
Proof.
  intros Hcomma Hclose Hne Helems.
  induction Helems as [|[run v] elems Hrun Helems IH]; [done|].
  intros n arr pre Hn. clear Hne. cbn [fst snd] in Hrun.
  destruct n as [|n]; [simpl in Hn; lia|].
  destruct (parses_as_head _ _ _ Hrun) as (t & run' & Erun & Ht & _).
  assert (Hpeek : ∀ pre tail,
    Parser.peek (pat_ pre (run ++ tail)) = Ok (t, pat_ pre (run ++ tail))).
  { intros. rewrite Erun. cbn [app]. apply peek_pat. }
  cbn [fmap list_fmap fst snd].
  change (list_fmap _ _ fst elems) with (elems.*1).
  change (list_fmap _ _ snd elems) with (elems.*2).
  cbn [Parser.parse_array_loop]. unfold bind, ret.
  destruct elems as [|e elems].
  - cbn [comma_separated fmap list_fmap app].
    rewrite <- app_assoc, Hpeek, Ht. cbn [negb].
    rewrite (Hrun pre).
    destruct trailing; cbn [app].
    + rewrite peek_pat, Hcomma, String.eqb_refl, advance_pat.
      destruct n as [|n]; [simpl in Hn; lia|].
      cbn [Parser.parse_array_loop]. unfold bind, ret.
      rewrite peek_pat, Hclose, String.eqb_refl. cbn [negb].
      rewrite <- !app_assoc. reflexivity.
    + rewrite peek_pat, Hclose.
      change (String.eqb TokenType.RIGHT_BRACKET TokenType.COMMA) with false.
      rewrite app_nil_r. reflexivity.
  - change (comma_separated comma ((run :: (e :: elems).*1)))
      with (run ++ comma :: comma_separated comma (e :: elems).*1).
    rewrite <- !app_assoc, Hpeek, Ht. cbn [negb].
    rewrite (Hrun pre). cbn [app].
    rewrite peek_pat, Hcomma, String.eqb_refl, advance_pat.
    rewrite app_assoc.
    rewrite IH by (done || simpl in *; lia).
    rewrite <- !app_assoc. reflexivity.
Qed.

(** The loop of [parse_object] on entries separated by commas, with or
    without a comma after the last one. *)
Lemma parse_object_loop_separated (fuel : nat) (colon comma close : Token)
    (trailing : bool) (tail : list Token)
    (entries : list (Token * list Token * JsonValue)) :
  type colon = TokenType.COLON →
  type comma = TokenType.COMMA →
  type close = TokenType.RIGHT_BRACE →
  entries ≠ [] →
  Forall (λ e, type e.1.1 = TokenType.STRING ∧ parses_as fuel e.1.2 e.2)
    entries →
  ∀ (n : nat) (obj : list (Literal * JsonValue)) (pre : list Token),
    length entries < n →
    Parser.parse_object_loop (Parser.parse_value fuel) n obj
      (pat_ pre
         ((comma_separated comma (entry_tokens colon <$> entries)
           ++ (if trailing then [comma] else [])) ++ close :: tail))
    = Ok (dict_update obj (entry_binding <$> entries),
          pat_ (pre ++ comma_separated comma (entry_tokens colon <$> entries)
                ++ (if trailing then [comma] else []))
            (close :: tail)).
Proof.
  intros Hcolon Hcomma Hclose Hne Hentries.
  induction Hentries as [|[[key run] v] entries [Hkey Hrun] Hentries IH];
    [done|].
  intros n obj pre Hn. clear Hne. cbn [fst snd] in Hkey, Hrun.
  destruct n as [|n]; [simpl in Hn; lia|].
  assert (Hentry : ∀ pre tail',
    (let* key' := Parser.expect TokenType.STRING "Expected string key" in
     let* _ := Parser.expect TokenType.COLON "Expected ':' after key" in
     let* v' := Parser.parse_value fuel in
     ret (key', v'))
      (pat_ pre (entry_tokens colon (key, run, v) ++ tail'))
    = Ok ((key, v), pat_ (pre ++ entry_tokens colon (key, run, v)) tail')).
  { intros pre' tail'. unfold bind, ret, entry_tokens. cbn [fst snd app].
    rewrite expect_pat, Hkey, String.eqb_refl.
    rewrite expect_pat, Hcolon, String.eqb_refl.
    rewrite (Hrun ((pre' ++ [key]) ++ [colon])).
    rewrite <- !app_assoc. reflexivity. }
  assert (Hstep : ∀ pre tail',
    Parser.parse_object_loop (Parser.parse_value fuel) (S n) obj
      (pat_ pre (entry_tokens colon (key, run, v) ++ tail'))
    = (let* token := Parser.peek in
       if String.eqb (type token) TokenType.COMMA then
         let* _ := Parser.advance in
         Parser.parse_object_loop (Parser.parse_value fuel) n
           (dict_set obj (value key) v)
       else ret (dict_set obj (value key) v))
        (pat_ (pre ++ entry_tokens colon (key, run, v)) tail')).
  { intros pre' tail'. specialize (Hentry pre' tail').
    cbn [Parser.parse_object_loop]. unfold bind, ret in *.
    unfold entry_tokens at 1. cbn [fst snd app].
    rewrite peek_pat, Hkey.
    change (String.eqb TokenType.STRING TokenType.RIGHT_BRACE) with false.
    cbn [negb].
    change (key :: colon :: run ++ tail')
      with (entry_tokens colon (key, run, v) ++ tail').
    destruct (Parser.expect TokenType.STRING _ _) as [[key' p1]| |];
      [|discriminate Hentry..].
    destruct (Parser.expect TokenType.COLON _ _) as [[c' p2]| |];
      [|discriminate Hentry..].
    destruct (Parser.parse_value fuel p2) as [[v' p3]| |];
      [|discriminate Hentry..].
    injection Hentry as -> -> ->. reflexivity. }
  cbn [fmap list_fmap].
  change (list_fmap _ _ ?f entries) with (f <$> entries).
  destruct entries as [|e entries].
  - cbn [comma_separated fmap list_fmap dict_update fold_left].
    rewrite <- app_assoc, Hstep. unfold bind, ret.
    cbn [entry_binding fst snd].
    destruct trailing; cbn [app].
    + rewrite peek_pat, Hcomma, String.eqb_refl, advance_pat.
      destruct n as [|n]; [simpl in Hn; lia|].
      cbn [Parser.parse_object_loop]. unfold bind, ret.
      rewrite peek_pat, Hclose, String.eqb_refl. cbn [negb].
      rewrite <- !app_assoc. reflexivity.
    + rewrite peek_pat, Hclose.
      change (String.eqb TokenType.RIGHT_BRACE TokenType.COMMA) with false.
      rewrite app_nil_r. reflexivity.
  - change (comma_separated comma
              (entry_tokens colon (key, run, v)
               :: (entry_tokens colon <$> e :: entries)))
      with (entry_tokens colon (key, run, v)
            ++ comma
               :: comma_separated comma (entry_tokens colon <$> e :: entries)).
    rewrite <- !app_assoc, Hstep. unfold bind, ret. cbn [app].
    rewrite peek_pat, Hcomma, String.eqb_refl, advance_pat.
    rewrite app_assoc.
    rewrite IH by (done || simpl in *; lia).
    rewrite <- !app_assoc. reflexivity.
Qed.

(** ** The properties of the specification *)

(** C1, as the specification states it, fails on [[1,2,]]: [parse_json]
    returns the list of 1 and 2 and raises nothing. *)
Lemma C1_counterexample :
  parse_json "[1,2,]" = Ok (JList [JLit (LInt 1); JLit (LInt 2)])
  ∧ ¬ ∃ e, parse_json "[1,2,]" = Raise e.
Proof.
  split; [reflexivity|]. intros [e He]. vm_compute in He. discriminate He.
Qed.

(** C1, amended. An array or object whose last element or entry is followed
    by a comma and then at once by the closing bracket or brace is accepted,
    and the comma adds nothing: for elements (entries) that are values for
    [parse_value], separated by commas, [parse_value] returns the same list
    (the same dict) with and without a comma after the last one, because
    the loop tests the closing token again after each comma.  So
    [parse_json] returns the list of 1 and 2 for [[1,2,]] as for [[1,2]],
    and the object with the one key [a] for the object with the entry
    [a: 1] and a trailing comma. *)
Theorem C1_trailing_comma_accepted :
  (∀ (fuel fuel' : nat) (elems : list (list Token * JsonValue))
     (opening comma closing : Token) (trailing : bool)
     (pre tail : list Token),
     type opening = TokenType.LEFT_BRACKET →
     type comma = TokenType.COMMA →
     type closing = TokenType.RIGHT_BRACKET →
     elems ≠ [] →
     Forall (λ e, parses_as fuel e.1 e.2) elems →
     fuel + length elems < fuel' →
     Parser.parse_value fuel'
       (pat_ pre
          (opening
           :: (comma_separated comma elems.*1
               ++ (if trailing then [comma] else [])) ++ closing :: tail))
     = Ok (JList elems.*2,
           pat_ (pre ++ opening
                        :: (comma_separated comma elems.*1
                            ++ (if trailing then [comma] else []))
                        ++ [closing])
             tail))
  ∧ (∀ (fuel fuel' : nat) (entries : list (Token * list Token * JsonValue))
       (opening colon comma closing : Token) (trailing : bool)
       (pre tail : list Token),
       type opening = TokenType.LEFT_BRACE →
       type colon = TokenType.COLON →
       type comma = TokenType.COMMA →
       type closing = TokenType.RIGHT_BRACE →
       entries ≠ [] →
       Forall (λ e, type e.1.1 = TokenType.STRING ∧ parses_as fuel e.1.2 e.2)
         entries →
       fuel + length entries < fuel' →
       Parser.parse_value fuel'
         (pat_ pre
            (opening
             :: (comma_separated comma (entry_tokens colon <$> entries)
                 ++ (if trailing then [comma] else []))
             ++ closing :: tail))
       = Ok (JDict (dict_update [] (entry_binding <$> entries)),
             pat_ (pre ++ opening
                          :: (comma_separated comma
                                (entry_tokens colon <$> entries)
                              ++ (if trailing then [comma] else []))
                          ++ [closing])
               tail))
  ∧ parse_json "[1,2,]" = Ok (JList [JLit (LInt 1); JLit (LInt 2)])
  ∧ parse_json "[1,2]" = Ok (JList [JLit (LInt 1); JLit (LInt 2)])
  ∧ parse_json (with_quotes "{'a':1,}")
    = Ok (JDict [(LStr "a", JLit (LInt 1))]).
Proof.
  split; [|split; [|repeat split]].
  - intros fuel fuel' elems opening comma closing trailing pre tail
      Hopening Hcomma Hclosing Hne Helems Hfuel.
    assert (0 < fuel).
    { destruct Helems as [|e elems He _]; [done|].
      eapply parses_as_fuel, He. }
    destruct fuel' as [|f]; [lia|].
    rewrite parse_value_step, Hopening.
    change (Parser.is_literal_type TokenType.LEFT_BRACKET) with false.
    change (String.eqb TokenType.LEFT_BRACKET TokenType.LEFT_BRACE)
      with false.
    rewrite String.eqb_refl. unfold Parser.parse_array, bind, ret.
    rewrite (parse_array_loop_elements f comma closing trailing tail elems);
      try assumption; [| |lia].
    + rewrite expect_pat, Hclosing, String.eqb_refl.
      rewrite <- !app_assoc. reflexivity.
    + eapply Forall_impl; [exact Helems|].
      intros e. apply parses_as_more_fuel. lia.
  - intros fuel fuel' entries opening colon comma closing trailing pre tail
      Hopening Hcolon Hcomma Hclosing Hne Hentries Hfuel.
    assert (0 < fuel).
    { destruct Hentries as [|e entries [_ He] _]; [done|].
      eapply parses_as_fuel, He. }
    destruct fuel' as [|f]; [lia|].
    rewrite parse_value_step, Hopening.
    change (Parser.is_literal_type TokenType.LEFT_BRACE) with false.
    rewrite String.eqb_refl. unfold Parser.parse_object, bind, ret.
    rewrite (parse_object_loop_separated f colon comma closing trailing tail
               entries); try assumption; [| |lia].
    + rewrite expect_pat, Hclosing, String.eqb_refl.
      rewrite <- !app_assoc. reflexivity.
    + eapply Forall_impl; [exact Hentries|].
      intros e [Hkey Hrun]. split; [exact Hkey|].
      eapply parses_as_more_fuel; [|exact Hrun]. lia.
Qed.

Lemma C1_trailing_comma_accepted_witness :
  let one := mkToken TokenType.NUMBER (LInt 1) in
  let two := mkToken TokenType.NUMBER (LInt 2) in
  let comma := mkToken "," (LStr ",") in
  let key := mkToken TokenType.STRING (LStr "a") in
  let colon := mkToken ":" (LStr ":") in
  Parser.parse_value 4
    (pat_ []
       [mkToken "[" (LStr "["); one; comma; two; comma;
        mkToken "]" (LStr "]"); eof_token])
  = Ok (JList [JLit (LInt 1); JLit (LInt 2)],
        pat_ [mkToken "[" (LStr "["); one; comma; two; comma;
              mkToken "]" (LStr "]")] [eof_token])
  ∧ Parser.parse_value 3
      (pat_ []
         [mkToken "{" (LStr "{"); key; colon; one; comma;
          mkToken "}" (LStr "}"); eof_token])
    = Ok (JDict [(LStr "a", JLit (LInt 1))],
          pat_ [mkToken "{" (LStr "{"); key; colon; one; comma;
                mkToken "}" (LStr "}")] [eof_token]).
Proof.
  intros one two comma key colon.
  assert (Hone : parses_as 1 [one] (JLit (LInt 1))).
  { intros pre tail. cbn [Parser.parse_value app]. unfold bind.
    rewrite advance_pat. reflexivity. }
  assert (Htwo : parses_as 1 [two] (JLit (LInt 2))).
  { intros pre tail. cbn [Parser.parse_value app]. unfold bind.
    rewrite advance_pat. reflexivity. }
  split.
  - apply (proj1 C1_trailing_comma_accepted 1 4
             [([one], JLit (LInt 1)); ([two], JLit (LInt 2))]
             (mkToken "[" (LStr "[")) comma (mkToken "]" (LStr "]")) true
             [] [eof_token] eq_refl eq_refl eq_refl).
    + discriminate.
    + repeat constructor; assumption.
    + simpl. lia.
  - apply (proj1 (proj2 C1_trailing_comma_accepted) 1 3
             [(key, [one], JLit (LInt 1))]
             (mkToken "{" (LStr "{")) colon comma (mkToken "}" (LStr "}"))
             true [] [eof_token] eq_refl eq_refl eq_refl eq_refl).
    + discriminate.
    + repeat constructor. assumption.
    + simpl. lia.
Defined.

(** C2, as the specification states it, fails on the six characters
    [dquote a backslash dquote b dquote]: the text up to the next unescaped
    double quote is [a backslash dquote b], while [scan_string] stops at the
    double quote after the backslash, returns the text [a backslash], and
    the scan of the input then raises on the word [b]. *)
Lemma C2_counterexample :
  let body := ["a"; "\"; dquote; "b"]%char in
  spec_string_body false (body ++ [dquote]) = Some body
  ∧ Scanner.scan_string (at_ [dquote] (body ++ [dquote]))
    = Ok (mkToken TokenType.STRING (LStr "a\"),
          at_ [dquote; "a"; "\"; dquote]%char ["b"; dquote]%char)
  ∧ Scanner.scan_string (at_ [dquote] (body ++ [dquote]))
    ≠ Ok (mkToken TokenType.STRING (LStr (string_of_list_ascii body)),
          at_ (dquote :: body ++ [dquote]) [])
  ∧ scan (with_quotes "'a\'b'")
    = Raise (ValueError "Unexpected keyword: b").
Proof.
  cbv zeta. repeat split. vm_compute. discriminate.
Qed.

(** C2, amended. Where the loop of [scan_tokens] meets a double quote, the
    characters after it are taken as they are, without any processing of
    escape sequences, up to the next double quote, whether a backslash
    precedes that quote or not; the [STRING] token holds the text strictly
    between the two quotes.  So a double quote that follows a backslash ends
    the string. *)
Theorem C2_string_ends_at_next_quote :
  (∀ (fuel : nat) (tokens : list Token) (pre body rest : list ascii),
     dquote ∉ body →
     Scanner.scan_tokens_loop (S fuel) tokens
       (at_ pre (dquote :: body ++ dquote :: rest))
     = Scanner.scan_tokens_loop fuel
         (tokens
          ++ [mkToken TokenType.STRING (LStr (string_of_list_ascii body))])
         (at_ (pre ++ dquote :: body ++ [dquote]) rest))
  ∧ scan (with_quotes "'a\'")
    = Ok [mkToken TokenType.STRING (LStr "a\"); eof_token].
Proof.
  split; [|reflexivity].
  intros fuel tokens pre body rest Hbody.
  rewrite scan_tokens_loop_string, scan_string_at by assumption.
  rewrite <- !app_assoc. reflexivity.
Qed.

Lemma C2_string_ends_at_next_quote_witness :
  Scanner.scan_tokens_loop 1 [] (at_ [] [dquote; "a"; "\"; dquote; "b"]%char)
  = Scanner.scan_tokens_loop 0 [mkToken TokenType.STRING (LStr "a\")]
      (at_ [dquote; "a"; "\"; dquote]%char ["b"%char]).
Proof.
  apply (proj1 C2_string_ends_at_next_quote 0 [] [] ["a"; "\"]%char
           ["b"%char]).
  apply not_elem_of_decide. reflexivity.
Defined.

(** C3. [parse_json] calls [parse_value] once and returns its result
    without looking at the tokens that remain: when the tokens of the input
    are the tokens of a value [v] followed by any further tokens before the
    end of the input, [parse_json] returns [v]; so it does on [1 2] and on
    [{} true]. *)
Theorem C3_trailing_tokens_ignored :
  (∀ (json_str : string) (tokens extra : list Token) (v : JsonValue)
     (p : Parser.t),
     scan json_str = Ok (tokens ++ extra ++ [eof_token]) →
     Parser.parse (Parser.init (tokens ++ [eof_token])) = Ok (v, p) →
     parse_json json_str = Ok v)
  ∧ (∀ json_str : string,
       parse_json json_str
       = match Scanner.scan_tokens
                 (Scanner.init (list_ascii_of_string json_str)) with
         | Ok (tokens, _) =>
             match
               Parser.parse_value (S (length tokens)) (Parser.init tokens)
             with
             | Ok (v, _) => Ok v
             | Raise e => Raise e
             | OutOfFuel => OutOfFuel
             end
         | Raise e => Raise e
         | OutOfFuel => OutOfFuel
         end)
  ∧ parse_json "1 2" = Ok (JLit (LInt 1))
  ∧ parse_json "{} true" = Ok (JDict []).
Proof.
  split; [|repeat split].
  intros json_str tokens extra v p Hscan Hparse.
  rewrite (parse_json_scan _ _ Hscan).
  destruct (parse_run (tokens ++ [eof_token]))
    as [(v' & consumed & rest & Hsplit & _ & Hc & Hrun)
       | [(msg & H) | (_ & H)]];
    [|rewrite H in Hparse; discriminate..].
  symmetry in Hsplit.
  destruct (prefix_before_eof _ _ _ Hsplit Hc) as (rest0 & -> & ->).
  rewrite parse_unfold, <- app_assoc in Hparse.
  rewrite Hrun in Hparse by (rewrite !length_app; simpl; lia).
  injection Hparse as <- _.
  rewrite parse_unfold, <- !app_assoc.
  rewrite Hrun; [reflexivity|].
  rewrite !length_app. simpl. lia.
Qed.

Lemma C3_trailing_tokens_ignored_witness :
  parse_json "[1] 2 ]" = Ok (JList [JLit (LInt 1)]).
Proof.
  apply (proj1 C3_trailing_tokens_ignored "[1] 2 ]"%string
           [mkToken "[" (LStr "["); mkToken TokenType.NUMBER (LInt 1);
            mkToken "]" (LStr "]")]
           [mkToken TokenType.NUMBER (LInt 2); mkToken "]" (LStr "]")]
           (JList [JLit (LInt 1)])
           (pat_ [mkToken "[" (LStr "["); mkToken TokenType.NUMBER (LInt 1);
                  mkToken "]" (LStr "]")] [eof_token])).
  - reflexivity.
  - reflexivity.
Defined.

(** C4. When the scanner returns, its list of tokens has exactly one
    end-of-input token, and that token is the last one.  The parser reads
    the list at its cursor only, and the cursor only moves forward: a call of
    [parse_value] that returns has moved the cursor over one or more
    tokens, none of them the end-of-input token, and a read at a position
    out of the list ([IndexError]) happens only where no end-of-input token
    is left; so the parse of the scanned tokens never reads out of the
    list, and when it returns the cursor is at the end-of-input token or
    before it. *)
Theorem C4_one_eof_never_read_past :
  (∀ (json_str : string) (tokens : list Token),
     scan json_str = Ok tokens →
     (∃ new, tokens = new ++ [eof_token] ∧ Forall not_eof new)
     ∧ Parser.parse (Parser.init tokens) ≠ Raise IndexError
     ∧ Parser.parse (Parser.init tokens) ≠ OutOfFuel
     ∧ ∀ v p,
         Parser.parse (Parser.init tokens) = Ok (v, p) →
         Parser.tokens p = tokens
         ∧ 0 < Parser.current p < length tokens
         ∧ Forall not_eof (take (Parser.current p) tokens))
  ∧ (∀ (fuel : nat) (pre rest : list Token) (v : JsonValue) (p : Parser.t),
       Parser.parse_value fuel (pat_ pre rest) = Ok (v, p) →
       ∃ consumed rest',
         rest = consumed ++ rest' ∧ consumed ≠ [] ∧ Forall not_eof consumed
         ∧ p = pat_ (pre ++ consumed) rest')
  ∧ (∀ (fuel : nat) (pre rest : list Token),
       Parser.parse_value fuel (pat_ pre rest) = Raise IndexError →
       Forall not_eof rest).
Proof.
  split; [|split; [exact parse_value_forward | exact parse_value_in_bounds]].
  intros json_str tokens Hscan.
  assert (Hnew : ∃ new, tokens = new ++ [eof_token] ∧ Forall not_eof new).
  { unfold scan in Hscan.
    destruct (scan_tokens_run (list_ascii_of_string json_str))
      as ([new|msg] & Hrun & Hr); rewrite Hrun in Hscan; [|discriminate].
    injection Hscan as <-. destruct Hr as [Hnew _].
    exists new. split; [reflexivity|].
    eapply Forall_impl; [exact Hnew|]. intros t [Ht _]. exact Ht. }
  split; [exact Hnew|]. destruct Hnew as (new & -> & Hnew).
  split; [|split; [apply parse_total|]].
  - rewrite parse_unfold. intros Hraise.
    apply parse_value_in_bounds in Hraise.
    apply Forall_app in Hraise as [_ Hraise].
    apply Forall_cons in Hraise as [Hraise _].
    exact (not_eof_eof_token Hraise).
  - intros v p Hparse. rewrite parse_unfold in Hparse.
    apply parse_value_forward in Hparse
      as (consumed & rest' & Hsplit & Hne & Hc & ->).
    symmetry in Hsplit.
    destruct (prefix_before_eof _ _ _ Hsplit Hc) as (rest0 & -> & ->).
    cbn [pat_ Parser.tokens Parser.current app].
    rewrite <- app_assoc. split; [reflexivity|].
    rewrite !length_app. cbn [length]. split.
    + destruct consumed; [done | simpl; lia].
    + rewrite take_app_length. exact Hc.
Qed.

Lemma C4_one_eof_never_read_past_witness :
  let one := mkToken TokenType.NUMBER (LInt 1) in
  ((∃ new, [one; eof_token] = new ++ [eof_token] ∧ Forall not_eof new)
   ∧ Parser.parse (Parser.init [one; eof_token]) ≠ Raise IndexError
   ∧ Parser.tokens (pat_ [one] [eof_token]) = [one; eof_token]
   ∧ 0 < Parser.current (pat_ [one] [eof_token]) < 2)
  ∧ (∃ consumed rest',
       [one; eof_token] = consumed ++ rest' ∧ consumed ≠ []
       ∧ Forall not_eof consumed
       ∧ pat_ [one] [eof_token] = pat_ ([] ++ consumed) rest')
  ∧ Forall not_eof [].
Proof.
  intros one.
  destruct C4_one_eof_never_read_past as (Hscan & Hforward & Hbounds).
  split; [|split].
  - destruct (Hscan "1"%string [one; eof_token] eq_refl)
      as (Hnew & Hin & _ & Hcursor).
    destruct (Hcursor (JLit (LInt 1)) (pat_ [one] [eof_token]) eq_refl)
      as (Htokens & Hcurrent & _).
    repeat split; try assumption; apply Hcurrent.
  - apply (Hforward 1 [] [one; eof_token] (JLit (LInt 1))
             (pat_ [one] [eof_token]) eq_refl).
  - apply (Hbounds 1 [] [] eq_refl).
Defined.



(** C6. In an object the later entry of a key overwrites the earlier one
    and the keys stay in the order of their first insertion: [parse_json]
    returns the object with the one key [a] and the integer 2 for the
    object with the entries [a: 1] and [a: 2]; and the dict that the loop of
    [parse_object] returns is built from the entries it reads, in their
    order, so that its keys are the keys of the entries in the order of
    their first occurrence, without repetition, and the value of a key is
    the value of its last entry. *)
Theorem C6_duplicate_keys :
  parse_json (with_quotes "{'a':1,'a':2}")
  = Ok (JDict [(LStr "a", JLit (LInt 2))])
  ∧ (∀ (parse_value : M Parser.t JsonValue) (fuel : nat) (self : Parser.t),
       Parser.parse_object_loop parse_value fuel [] self
       = match parse_object_entries parse_value fuel [] self with
         | Ok (entries, self') => Ok (dict_update [] entries, self')
         | Raise e => Raise e
         | OutOfFuel => OutOfFuel
         end)
  ∧ (∀ entries : list (Literal * JsonValue),
       (dict_update [] entries).*1 = first_keys entries.*1
       ∧ NoDup (dict_update [] entries).*1
       ∧ ∀ key, dict_get (dict_update [] entries) key
                = last_binding entries key)
  ∧ (∀ (obj : list (Literal * JsonValue)) (key : Literal) (v : JsonValue),
       (dict_set obj key v).*1
       = (if decide (key ∈ obj.*1) then obj.*1 else obj.*1 ++ [key])
       ∧ dict_get (dict_set obj key v) key = Some v).
Proof.
  split; [reflexivity|]. split; [|split].
  - intros. apply (parse_object_loop_entries parse_value fuel [] [] self).
  - intros entries. split; [|split].
    + apply (dict_update_keys entries []).
    + rewrite (dict_update_keys entries []).
      apply fold_add_key_NoDup, NoDup_nil_2.
    + intros key. rewrite dict_update_get.
      destruct (last_binding entries key); reflexivity.
  - intros obj key v. split; [apply dict_set_keys|].
    rewrite dict_get_set, decide_True; reflexivity.
Qed.

(** C7. [parse_value] consumes exactly one token [t]: when the type of
    [t] is [STRING], [NUMBER], [BOOLEAN] or [NULL] it returns the value of
    the token, with the cursor after [t]; for a left brace it goes on with
    [parse_object] and for a left bracket with [parse_array], both started
    after [t]; for a token of any other type it raises [ValueError] with
    the message [Unexpected token: ] followed by the type of the token, so
    it does for a closing brace, a closing bracket, a comma, a colon and
    the end-of-input token; and [parse_json] raises this error on every
    input that has only white space (the empty input is one).  The test of
    the code for a literal token holds of the four types and of no
    other. *)
Theorem C7_parse_value_dispatch :
  (∀ (fuel : nat) (pre : list Token) (t : Token) (rest : list Token),
     type t ∈ [TokenType.STRING; TokenType.NUMBER; TokenType.BOOLEAN;
               TokenType.NULL] →
     Parser.parse_value (S fuel) (pat_ pre (t :: rest))
     = Ok (JLit (value t), pat_ (pre ++ [t]) rest))
  ∧ (∀ (fuel : nat) (pre : list Token) (t : Token) (rest : list Token),
       type t = TokenType.LEFT_BRACE →
       Parser.parse_value (S fuel) (pat_ pre (t :: rest))
       = Parser.parse_object (Parser.parse_value fuel) fuel
           (pat_ (pre ++ [t]) rest))
  ∧ (∀ (fuel : nat) (pre : list Token) (t : Token) (rest : list Token),
       type t = TokenType.LEFT_BRACKET →
       Parser.parse_value (S fuel) (pat_ pre (t :: rest))
       = Parser.parse_array (Parser.parse_value fuel) fuel
           (pat_ (pre ++ [t]) rest))
  ∧ (∀ (fuel : nat) (pre : list Token) (t : Token) (rest : list Token),
       type t ∉ [TokenType.STRING; TokenType.NUMBER; TokenType.BOOLEAN;
                 TokenType.NULL; TokenType.LEFT_BRACE;
                 TokenType.LEFT_BRACKET] →
       Parser.parse_value (S fuel) (pat_ pre (t :: rest))
       = Raise (ValueError ("Unexpected token: " ++ type t)))
  ∧ (∀ (fuel : nat) (pre : list Token) (t : Token) (rest : list Token),
       type t ∈ [TokenType.RIGHT_BRACE; TokenType.RIGHT_BRACKET;
                 TokenType.COMMA; TokenType.COLON; TokenType.EOF] →
       Parser.parse_value (S fuel) (pat_ pre (t :: rest))
       = Raise (ValueError ("Unexpected token: " ++ type t)))
  ∧ (∀ (fuel : nat) (pre : list Token) (t : Token) (rest : list Token),
       type t = TokenType.EOF →
       Parser.parse_value (S fuel) (pat_ pre (t :: rest))
       = Raise (ValueError "Unexpected token: EOF"))
  ∧ (∀ json_str : string,
       Forall (λ c, char_in c whitespace = true)
         (list_ascii_of_string json_str) →
       parse_json json_str = Raise (ValueError "Unexpected token: EOF"))
  ∧ (∀ ty : string,
       Parser.is_literal_type ty = true
       ↔ ty ∈ [TokenType.STRING; TokenType.NUMBER; TokenType.BOOLEAN;
               TokenType.NULL])
  ∧ [TokenType.STRING; TokenType.NUMBER; TokenType.BOOLEAN; TokenType.NULL;
     TokenType.LEFT_BRACE; TokenType.RIGHT_BRACE; TokenType.LEFT_BRACKET;
     TokenType.RIGHT_BRACKET; TokenType.COMMA; TokenType.COLON;
     TokenType.EOF]
    = ["STRING"; "NUMBER"; "BOOLEAN"; "NULL"; "{"; "}"; "["; "]"; ","; ":";
       "EOF"]%string
  ∧ parse_json (with_quotes "'a'") = Ok (JLit (LStr "a"))
  ∧ parse_json "7" = Ok (JLit (LInt 7))
  ∧ parse_json "true" = Ok (JLit (LBool true))
  ∧ parse_json "null" = Ok (JLit LNone)
  ∧ parse_json "" = Raise (ValueError "Unexpected token: EOF")
  ∧ parse_json "}" = Raise (ValueError "Unexpected token: }")
  ∧ parse_json "]" = Raise (ValueError "Unexpected token: ]")
  ∧ parse_json "," = Raise (ValueError "Unexpected token: ,")
  ∧ parse_json ":" = Raise (ValueError "Unexpected token: :").
Proof.
  pose proof parse_value_step as Hdispatch.
  assert (Hliteral : ∀ ty : string,
    Parser.is_literal_type ty = true
    ↔ ty ∈ [TokenType.STRING; TokenType.NUMBER; TokenType.BOOLEAN;
            TokenType.NULL]).
  { intros ty. unfold Parser.is_literal_type.
    rewrite !orb_true_iff, !String.eqb_eq, !elem_of_cons, elem_of_nil.
    tauto. }
  assert (Hother :
    ∀ (fuel : nat) (pre : list Token) (t : Token) (rest : list Token),
      type t ∉ [TokenType.STRING; TokenType.NUMBER; TokenType.BOOLEAN;
                TokenType.NULL; TokenType.LEFT_BRACE;
                TokenType.LEFT_BRACKET] →
      Parser.parse_value (S fuel) (pat_ pre (t :: rest))
      = Raise (ValueError ("Unexpected token: " ++ type t))).
  { intros fuel pre t rest Ht. rewrite Hdispatch.
    destruct (Parser.is_literal_type (type t)) eqn:Hlit.
    { apply Hliteral in Hlit. destruct Ht.
      rewrite !elem_of_cons, elem_of_nil in Hlit. rewrite !elem_of_cons.
      tauto. }
    rewrite !not_elem_of_cons in Ht.
    destruct Ht as (_ & _ & _ & _ & Hbrace & Hbracket & _).
    apply String.eqb_neq in Hbrace, Hbracket.
    rewrite Hbrace, Hbracket. reflexivity. }
  split; [|split; [|split; [|split; [|split; [|split; [|split; [|split]]]]]]].
  - intros fuel pre t rest Ht. apply Hliteral in Ht.
    rewrite Hdispatch, Ht. reflexivity.
  - intros fuel pre t rest Ht. rewrite Hdispatch, Ht. reflexivity.
  - intros fuel pre t rest Ht. rewrite Hdispatch, Ht. reflexivity.
  - exact Hother.
  - intros fuel pre t rest Ht. apply Hother.
    rewrite !elem_of_cons, elem_of_nil in Ht. rewrite !not_elem_of_cons.
    destruct Ht as [-> | [-> | [-> | [-> | [-> | []]]]]];
      repeat split; (discriminate || apply not_elem_of_nil).
  - intros fuel pre t rest Ht. rewrite Hdispatch, Ht. reflexivity.
  - intros json_str Hws. unfold parse_json, Scanner.scan_tokens, bind, get.
    rewrite at_nil, fuel_left_at.
    rewrite scan_tokens_loop_all_whitespace by (auto with lia).
    reflexivity.
  - exact Hliteral.
  - repeat split.
Qed.

Lemma C7_parse_value_dispatch_witness :
  let number := mkToken TokenType.NUMBER (LInt 7) in
  let brace := mkToken TokenType.LEFT_BRACE (LStr "{") in
  let bracket := mkToken TokenType.LEFT_BRACKET (LStr "[") in
  let colon := mkToken TokenType.COLON (LStr ":") in
  Parser.parse_value 1 (pat_ [] [number; eof_token])
  = Ok (JLit (LInt 7), pat_ [number] [eof_token])
  ∧ Parser.parse_value 1 (pat_ [] [brace; eof_token])
    = Parser.parse_object (Parser.parse_value 0) 0 (pat_ [brace] [eof_token])
  ∧ Parser.parse_value 1 (pat_ [] [bracket; eof_token])
    = Parser.parse_array (Parser.parse_value 0) 0
        (pat_ [bracket] [eof_token])
  ∧ Parser.parse_value 1 (pat_ [] [mkToken "word" LNone; eof_token])
    = Raise (ValueError "Unexpected token: word")
  ∧ Parser.parse_value 1 (pat_ [] [colon; eof_token])
    = Raise (ValueError "Unexpected token: :")
  ∧ Parser.parse_value 1 (pat_ [] [eof_token])
    = Raise (ValueError "Unexpected token: EOF")
  ∧ parse_json " " = Raise (ValueError "Unexpected token: EOF").
Proof.
  intros number brace bracket colon.
  destruct C7_parse_value_dispatch
    as (Hlit & Hbrace & Hbracket & Hother & Hpunct & Heof & Hws & _).
  split; [|split; [|split; [|split; [|split; [|split]]]]].
  - apply (Hlit 0 [] number [eof_token]). repeat constructor.
  - apply (Hbrace 0 [] brace [eof_token]). reflexivity.
  - apply (Hbracket 0 [] bracket [eof_token]). reflexivity.
  - apply (Hother 0 [] (mkToken "word" LNone) [eof_token]).
    apply not_elem_of_decide. reflexivity.
  - apply (Hpunct 0 [] colon [eof_token]). repeat constructor.
  - apply (Heof 0 [] eof_token []). reflexivity.
  - apply (Hws " "%string). repeat constructor.
Defined.

(** C8. When an opening double quote has no closing double quote after it,
    scanning raises [ValueError] with the message [Unterminated string]
    and no list of tokens is returned, whatever tokens were scanned before:
    at any position of the loop of [scan_tokens], and so for every input
    made of a text that scans, a double quote and a text without double
    quote; [parse_json] raises the same error, for instance on the four
    characters of the input of the specification. *)
Theorem C8_unterminated_string :
  (∀ (fuel : nat) (tokens : list Token) (pre body : list ascii),
     dquote ∉ body →
     Scanner.scan_tokens_loop (S fuel) tokens (at_ pre (dquote :: body))
     = Raise (ValueError "Unterminated string"))
  ∧ (∀ (before body : string) (tokens : list Token),
       scan before = Ok tokens →
       dquote ∉ list_ascii_of_string body →
       scan (before ++ String dquote body)
       = Raise (ValueError "Unterminated string")
       ∧ parse_json (before ++ String dquote body)
         = Raise (ValueError "Unterminated string"))
  ∧ parse_json (with_quotes "'abc")
    = Raise (ValueError "Unterminated string").
Proof.
  assert (Hloop :
    ∀ (fuel : nat) (tokens : list Token) (pre body : list ascii),
      dquote ∉ body →
      Scanner.scan_tokens_loop (S fuel) tokens (at_ pre (dquote :: body))
      = Raise (ValueError "Unterminated string")).
  { intros fuel tokens pre body Hbody.
    rewrite scan_tokens_loop_string, scan_string_unterminated by assumption.
    reflexivity. }
  split; [exact Hloop|]. split; [|reflexivity].
  intros before body tokens Hscan Hbody.
  assert (Hraise :
    Scanner.scan_tokens
      (Scanner.init (list_ascii_of_string (before ++ String dquote body)))
    = Raise (ValueError "Unterminated string")).
  { rewrite list_ascii_of_string_app. cbn [list_ascii_of_string].
    destruct (scan_tokens_run (list_ascii_of_string before))
      as ([new|msg] & Hrun & Hr).
    2: { unfold scan in Hscan. rewrite Hrun in Hscan. discriminate. }
    destruct Hr as [_ Hext].
    destruct (Hext (dquote :: list_ascii_of_string body) eq_refl)
      as (fuel' & Hfuel' & ->).
    destruct fuel' as [|fuel']; [lia|].
    unfold bind. rewrite Hloop by assumption. reflexivity. }
  unfold scan, parse_json. rewrite Hraise. split; reflexivity.
Qed.

Lemma C8_unterminated_string_witness :
  Scanner.scan_tokens_loop 1 [] (at_ [] [dquote; "a"%char])
  = Raise (ValueError "Unterminated string")
  ∧ parse_json (with_quotes "[1,'abc")
    = Raise (ValueError "Unterminated string").
Proof.
  split.
  - apply (proj1 C8_unterminated_string 0 [] [] ["a"%char]).
    apply not_elem_of_decide. reflexivity.
  - refine (proj2 (proj1 (proj2 C8_unterminated_string) "[1,"%string
                     "abc"%string _ eq_refl _)).
    apply not_elem_of_decide. reflexivity.
Defined.

(** C9. Where the loop of [scan_tokens] meets a letter, the word made of
    that letter and of the letters that follow it without a gap (up to the
    end of the input or to a character that is no letter) is one token: the
    boolean [True] for [true], the boolean [False] for [false], the null
    token for [null]; for every other word the scanner raises [ValueError]
    with the message [Unexpected keyword: ] followed by the word, as it does
    for [tru], [True] and [nullx]. *)
Theorem C9_keywords :
  (∀ (fuel : nat) (tokens : list Token) (pre : list ascii) (c : ascii)
     (run rest : list ascii),
     isalpha c = true →
     Forall (λ d, isalpha d = true) run →
     peek_isalpha (head rest) = false →
     Scanner.scan_tokens_loop (S fuel) tokens (at_ pre (c :: run ++ rest))
     = let word := string_of_list_ascii (c :: run) in
       if String.eqb word "true" then
         Scanner.scan_tokens_loop fuel
           (tokens ++ [mkToken TokenType.BOOLEAN (LBool true)])
           (at_ (pre ++ c :: run) rest)
       else if String.eqb word "false" then
         Scanner.scan_tokens_loop fuel
           (tokens ++ [mkToken TokenType.BOOLEAN (LBool false)])
           (at_ (pre ++ c :: run) rest)
       else if String.eqb word "null" then
         Scanner.scan_tokens_loop fuel
           (tokens ++ [mkToken TokenType.NULL LNone])
           (at_ (pre ++ c :: run) rest)
       else Raise (ValueError ("Unexpected keyword: " ++ word)))
  ∧ scan "true" = Ok [mkToken TokenType.BOOLEAN (LBool true); eof_token]
  ∧ scan "false" = Ok [mkToken TokenType.BOOLEAN (LBool false); eof_token]
  ∧ scan "null" = Ok [mkToken TokenType.NULL LNone; eof_token]
  ∧ scan "tru" = Raise (ValueError "Unexpected keyword: tru")
  ∧ scan "True" = Raise (ValueError "Unexpected keyword: True")
  ∧ scan "nullx" = Raise (ValueError "Unexpected keyword: nullx").
Proof.
  split; [|repeat split].
  intros fuel tokens pre c run rest Hc Hrun Hrest.
  rewrite scan_tokens_loop_keyword by assumption.
  rewrite scan_keyword_at by assumption. cbv zeta.
  rewrite <- app_assoc. cbn [app].
  repeat match goal with |- context [String.eqb ?a ?b] =>
    destruct (String.eqb a b) end; reflexivity.
Qed.

Lemma C9_keywords_witness :
  Scanner.scan_tokens_loop 2 [] (at_ [] (list_ascii_of_string "nul,"))
  = Raise (ValueError "Unexpected keyword: nul").
Proof.
  apply (proj1 C9_keywords 1 [] [] "n"%char
           (list_ascii_of_string "ul") (list_ascii_of_string ",")).
  - reflexivity.
  - repeat constructor.
  - reflexivity.
Defined.

(** C10. The scanner does not check the text of a number itself: a minus
    sign that no digit follows (nothing that continues a number, or decimal
    points only) is captured as it is and [int], or [float] when there is a
    decimal point, refuses it; and a text with two or more decimal points
    is captured whole and [float] refuses it.  In both cases scanning raises
    the [ValueError] of the conversion and no token is returned; so it is
    for the inputs [-] and [1.2.3]. *)
Theorem C10_number_text_not_validated :
  (∀ (fuel : nat) (tokens : list Token) (pre points rest : list ascii),
     Forall (λ c, c = "."%char) points →
     peek_number (head rest) = false →
     Scanner.scan_tokens_loop (S fuel) tokens
       (at_ pre ("-"%char :: points ++ rest))
     = Raise (ValueError
                ((match points with
                  | [] => "invalid literal for int() with base 10: "
                  | _ => "could not convert string to float: "
                  end)%string ++ repr ("-"%char :: points))))
  ∧ (∀ (fuel : nat) (tokens : list Token) (pre : list ascii) (c : ascii)
       (a b d rest : list ascii),
       starts_number c = true →
       Forall (λ x, is_number_char x = true)
         (a ++ "."%char :: b ++ "."%char :: d) →
       peek_number (head rest) = false →
       Scanner.scan_tokens_loop (S fuel) tokens
         (at_ pre (c :: (a ++ "."%char :: b ++ "."%char :: d) ++ rest))
       = Raise (ValueError
                  ("could not convert string to float: "
                   ++ repr (c :: a ++ "."%char :: b ++ "."%char :: d))))
  ∧ scan "-" = Raise (ValueError "invalid literal for int() with base 10: '-'")
  ∧ scan "1.2.3"
    = Raise (ValueError "could not convert string to float: '1.2.3'")
  ∧ parse_json "[-]"
    = Raise (ValueError "invalid literal for int() with base 10: '-'").
Proof.
  split; [|split; [|repeat split]].
  - intros fuel tokens pre points rest Hpoints Hrest.
    rewrite scan_tokens_loop_number_at;
      [| reflexivity
       | eapply Forall_impl; [exact Hpoints|]; intros c ->; reflexivity
       | assumption ].
    cbv zeta. rewrite has_point_all_points by (reflexivity || assumption).
    destruct points as [|c points]; [reflexivity|].
    rewrite py_float_no_digit by assumption. reflexivity.
  - intros fuel tokens pre c a b d rest Hc Hrun Hrest.
    rewrite scan_tokens_loop_number_at by assumption. cbv zeta.
    pose proof (has_point_middle (c :: a) (b ++ "."%char :: d)) as Hpoint.
    pose proof (py_float_two_points (c :: a) b d) as Hfloat.
    cbn [app] in Hpoint, Hfloat. rewrite Hpoint, Hfloat. reflexivity.
Qed.

Lemma C10_number_text_not_validated_witness :
  Scanner.scan_tokens_loop 1 [] (at_ [] (list_ascii_of_string "-.]"))
  = Raise (ValueError "could not convert string to float: '-.'")
  ∧ Scanner.scan_tokens_loop 1 [] (at_ [] (list_ascii_of_string "1..2 "))
    = Raise (ValueError "could not convert string to float: '1..2'").
Proof.
  split.
  - apply (proj1 C10_number_text_not_validated 0 [] []
             (list_ascii_of_string ".") (list_ascii_of_string "]")).
    + repeat constructor.
    + reflexivity.
  - apply (proj1 (proj2 C10_number_text_not_validated) 0 [] [] "1"%char
             [] [] (list_ascii_of_string "2") (list_ascii_of_string " ")).
    + reflexivity.
    + repeat constructor.
    + reflexivity.
Defined.

(** ** Further properties of the code: lemmas *)

Lemma head_app_separated (f : ascii → bool) (rest ext : list ascii) :
  (∀ c, f c = true → is_number_char c || isalpha c = true) →
  from_option f false (head rest) = false →
  separated ext →
  from_option f false (head (rest ++ ext)) = false.
Proof.
  intros Hf Hrest Hext. destruct rest as [|r rest]; [|exact Hrest].
  destruct ext as [|e ext]; [reflexivity|]. unfold separated in Hext.
  cbn in *. destruct (f e) eqn:He; [|reflexivity].
  apply Hf in He. congruence.
Qed.

Lemma separated_nil : separated [].
Proof. reflexivity. Qed.

(** One iteration of the loop of [scan_tokens] on a character [c]
    followed by [rest], when a separated text [ext] follows: the same
    characters give the same tokens, at most one, and the same error (if
    [ext] brings no double quote to close an open string). *)
Lemma scan_tokens_loop_step_separated (c : ascii) (rest : list ascii) :
  (∃ new consumed rest',
     c :: rest = consumed ++ rest' ∧ consumed ≠ []
     ∧ Forall token_typed new ∧ length new ≤ 1
     ∧ ∀ ext, separated ext → ∀ fuel tokens pre,
         Scanner.scan_tokens_loop (S fuel) tokens
           (at_ pre (c :: rest ++ ext))
         = Scanner.scan_tokens_loop fuel (tokens ++ new)
             (at_ (pre ++ consumed) (rest' ++ ext)))
  ∨ (∃ msg, ∀ ext, separated ext → dquote ∉ ext → ∀ fuel tokens pre,
       Scanner.scan_tokens_loop (S fuel) tokens (at_ pre (c :: rest ++ ext))
       = Raise (ValueError msg)).
Proof.
  destruct (char_in c whitespace) eqn:Hws.
  { left. exists [], [c], rest.
    repeat split; [done | constructor | simpl; lia |].
    intros. rewrite app_nil_r. apply scan_tokens_loop_whitespace, Hws. }
  destruct (char_in c punctuation) eqn:Hpunct.
  { left. exists [punctuation_token c], [c], rest.
    repeat split; [done | | simpl; lia |].
    - constructor; [|constructor]. do 4 right. exists c. done.
    - intros. apply scan_tokens_loop_punctuation, Hpunct. }
  destruct (Ascii.eqb c dquote) eqn:Hquote.
  { apply Ascii.eqb_eq in Hquote as ->.
    destruct (quote_split rest) as [Hnone | (body & rest' & -> & Hbody)].
    - right. exists "Unterminated string"%string. intros ext _ Hext **.
      rewrite scan_tokens_loop_string, scan_string_unterminated;
        [reflexivity|].
      intros [?|?]%elem_of_app; done.
    - left.
      exists [mkToken TokenType.STRING (LStr (string_of_list_ascii body))],
        (dquote :: body ++ [dquote]), rest'.
      repeat split; [| done | | simpl; lia |].
      + cbn. rewrite <- app_assoc. reflexivity.
      + constructor; [|constructor]. left. split; [reflexivity | eauto].
      + intros. rewrite <- app_assoc. cbn [app].
        rewrite scan_tokens_loop_string, scan_string_at by assumption.
        rewrite <- !app_assoc. reflexivity. }
  destruct (starts_number c) eqn:Hnum.
  { destruct (run_split is_number_char rest)
      as (run & rest' & -> & Hrun & Hrest).
    assert (Hpeek : ∀ ext, separated ext →
              peek_number (head (rest' ++ ext)) = false).
    { intros ext Hext.
      pose proof (head_app_separated is_number_char rest' ext) as H.
      destruct (head (rest' ++ ext)); [|reflexivity].
      apply H; [|assumption..]. intros d ->. reflexivity. }
    assert (Hstep : ∀ ext, separated ext → ∀ fuel tokens pre,
      Scanner.scan_tokens_loop (S fuel) tokens
        (at_ pre (c :: (run ++ rest') ++ ext))
      = let number := c :: run in
        if existsb (Ascii.eqb ".") number then
          match py_float number with
          | Some f =>
              Scanner.scan_tokens_loop fuel
                (tokens ++ [mkToken TokenType.NUMBER (LFloat f)])
                (at_ (pre ++ number) (rest' ++ ext))
          | None =>
              Raise (ValueError
                       ("could not convert string to float: " ++ repr number))
          end
        else
          match py_int number with
          | Some z =>
              Scanner.scan_tokens_loop fuel
                (tokens ++ [mkToken TokenType.NUMBER (LInt z)])
                (at_ (pre ++ number) (rest' ++ ext))
          | None =>
              Raise (ValueError
                       ("invalid literal for int() with base 10: "
                        ++ repr number))
          end).
    { intros ext Hext fuel tokens pre. rewrite <- app_assoc.
      apply scan_tokens_loop_number_at; auto. }
    cbv zeta in Hstep.
    destruct (existsb (Ascii.eqb ".") (c :: run));
      [destruct (py_float (c :: run)) as [f|]
      |destruct (py_int (c :: run)) as [z|]].
    - left. exists [mkToken TokenType.NUMBER (LFloat f)], (c :: run), rest'.
      repeat split; [done | | simpl; lia | exact Hstep].
      constructor; [|constructor]. right; left. split; [reflexivity|eauto].
    - right. eexists. intros ext Hext _. apply Hstep, Hext.
    - left. exists [mkToken TokenType.NUMBER (LInt z)], (c :: run), rest'.
      repeat split; [done | | simpl; lia | exact Hstep].
      constructor; [|constructor]. right; left. split; [reflexivity|eauto].
    - right. eexists. intros ext Hext _. apply Hstep, Hext. }
  destruct (isalpha c) eqn:Halpha.
  { destruct (run_split isalpha rest) as (run & rest' & -> & Hrun & Hrest).
    assert (Hpeek : ∀ ext, separated ext →
              peek_isalpha (head (rest' ++ ext)) = false).
    { intros ext Hext.
      pose proof (head_app_separated isalpha rest' ext) as H.
      destruct (head (rest' ++ ext)); [|reflexivity].
      apply H; [|assumption..]. intros d ->. apply orb_true_r. }
    assert (Hstep : ∀ ext, separated ext → ∀ fuel tokens pre,
      Scanner.scan_tokens_loop (S fuel) tokens
        (at_ pre (c :: (run ++ rest') ++ ext))
      = let word := string_of_list_ascii (c :: run) in
        if String.eqb word "true" then
          Scanner.scan_tokens_loop fuel
            (tokens ++ [mkToken TokenType.BOOLEAN (LBool true)])
            (at_ (pre ++ c :: run) (rest' ++ ext))
        else if String.eqb word "false" then
          Scanner.scan_tokens_loop fuel
            (tokens ++ [mkToken TokenType.BOOLEAN (LBool false)])
            (at_ (pre ++ c :: run) (rest' ++ ext))
        else if String.eqb word "null" then
          Scanner.scan_tokens_loop fuel
            (tokens ++ [mkToken TokenType.NULL LNone])
            (at_ (pre ++ c :: run) (rest' ++ ext))
        else Raise (ValueError ("Unexpected keyword: " ++ word))).
    { intros ext Hext fuel tokens pre. rewrite <- app_assoc.
      rewrite scan_tokens_loop_keyword by assumption.
      rewrite scan_keyword_at by auto. cbv zeta.
      rewrite <- app_assoc. cbn [app].
      repeat match goal with |- context [String.eqb ?a ?b] =>
        destruct (String.eqb a b) end; reflexivity. }
    cbv zeta in Hstep.
    destruct (String.eqb (string_of_list_ascii (c :: run)) "true");
      [|destruct (String.eqb (string_of_list_ascii (c :: run)) "false");
        [|destruct (String.eqb (string_of_list_ascii (c :: run)) "null")]].
    - left. exists [mkToken TokenType.BOOLEAN (LBool true)], (c :: run), rest'.
      repeat split; [done | | simpl; lia | exact Hstep].
      constructor; [|constructor]. do 2 right; left.
      split; [reflexivity|eauto].
    - left.
      exists [mkToken TokenType.BOOLEAN (LBool false)], (c :: run), rest'.
      repeat split; [done | | simpl; lia | exact Hstep].
      constructor; [|constructor]. do 2 right; left.
      split; [reflexivity|eauto].
    - left. exists [mkToken TokenType.NULL LNone], (c :: run), rest'.
      repeat split; [done | | simpl; lia | exact Hstep].
      constructor; [|constructor]. do 3 right; left. done.
    - right. eexists. intros ext Hext _. apply Hstep, Hext. }
  right. eexists. intros.
  apply scan_tokens_loop_unexpected; assumption.
Qed.

(** The whole loop on a text [rest] that a separated text [ext] follows:
    the result [r] of the text alone, its tokens or the message of its
    error, is reached on [rest ++ ext] too, the tokens at the start of
    [ext]; the tokens are typed and no more than the characters. *)
Lemma scan_tokens_loop_run_separated (rest : list ascii) :
  ∃ r : list Token + string,
    match r with
    | inl new => Forall token_typed new ∧ length new ≤ length rest
    | inr _ => True
    end
    ∧ ∀ ext, separated ext →
        match r with inl _ => True | inr _ => dquote ∉ ext end →
        ∀ fuel tokens pre, length (rest ++ ext) < fuel →
          match r with
          | inl new =>
              ∃ fuel', length ext < fuel'
                ∧ Scanner.scan_tokens_loop fuel tokens
                    (at_ pre (rest ++ ext))
                  = Scanner.scan_tokens_loop fuel' (tokens ++ new)
                      (at_ (pre ++ rest) ext)
          | inr msg =>
              Scanner.scan_tokens_loop fuel tokens (at_ pre (rest ++ ext))
              = Raise (ValueError msg)
          end.
Proof.
  remember (length rest) as n eqn:Hn. revert rest Hn.
  induction n as [n IH] using lt_wf_ind. intros rest ->.
  destruct rest as [|c rest].
  { exists (inl []). split; [split; [constructor | simpl; lia]|].
    intros ext _ _ fuel tokens pre Hfuel. exists fuel.
    rewrite !app_nil_r. split; [exact Hfuel | reflexivity]. }
  destruct (scan_tokens_loop_step_separated c rest)
    as [(new & consumed & rest' & Hsplit & Hne & Hnew & Hone & Hstep)
       | (msg & Hfail)].
  - assert (Hlen : length rest' < length (c :: rest)).
    { rewrite Hsplit, length_app. destruct consumed; [done | simpl; lia]. }
    destruct (IH _ Hlen rest' eq_refl) as (r' & Hr' & Hrun).
    destruct r' as [new'|msg].
    + destruct Hr' as [Hnew' Hcount].
      exists (inl (new ++ new')). split.
      * split; [apply Forall_app; done|].
        rewrite length_app, Hsplit, length_app.
        destruct consumed; [done | simpl; lia].
      * intros ext Hext _ [|fuel] tokens pre Hfuel; [simpl in Hfuel; lia|].
        cbn [app]. rewrite Hstep by assumption.
        destruct (Hrun ext Hext I fuel (tokens ++ new) (pre ++ consumed))
          as (fuel' & Hfuel' & Heq).
        { rewrite length_app in *. simpl in *. lia. }
        exists fuel'. split; [exact Hfuel'|].
        rewrite Heq, Hsplit, <- !app_assoc. reflexivity.
    + exists (inr msg). split; [exact I|].
      intros ext Hext Hquote [|fuel] tokens pre Hfuel; [simpl in Hfuel; lia|].
      cbn [app]. rewrite Hstep by assumption.
      apply Hrun; [assumption.. |].
      rewrite length_app in *. simpl in *. lia.
  - exists (inr msg). split; [exact I|].
    intros ext Hext Hquote [|fuel] tokens pre Hfuel; [simpl in Hfuel; lia|].
    cbn [app]. apply Hfail; assumption.
Qed.

(** [scan] of a text by the result of its loop. *)
Lemma scan_by_run (json_str : string) :
  ∃ r : list Token + string,
    scan json_str
    = match r with
      | inl new => Ok (new ++ [eof_token])
      | inr msg => Raise (ValueError msg)
      end
    ∧ match r with
      | inl new =>
          Forall token_typed new
          ∧ length new ≤ length (list_ascii_of_string json_str)
      | inr _ => True
      end
    ∧ ∀ ext, separated ext →
        match r with inl _ => True | inr _ => dquote ∉ ext end →
        ∀ fuel tokens pre,
          length (list_ascii_of_string json_str ++ ext) < fuel →
          match r with
          | inl new =>
              ∃ fuel', length ext < fuel'
                ∧ Scanner.scan_tokens_loop fuel tokens
                    (at_ pre (list_ascii_of_string json_str ++ ext))
                  = Scanner.scan_tokens_loop fuel' (tokens ++ new)
                      (at_ (pre ++ list_ascii_of_string json_str) ext)
          | inr msg =>
              Scanner.scan_tokens_loop fuel tokens
                (at_ pre (list_ascii_of_string json_str ++ ext))
              = Raise (ValueError msg)
          end.
Proof.
  destruct (scan_tokens_loop_run_separated (list_ascii_of_string json_str))
    as (r & Hr & Hrun).
  exists r. split; [|split; assumption].
  unfold scan, Scanner.scan_tokens, bind, get, ret.
  rewrite at_nil, fuel_left_at.
  specialize (Hrun [] separated_nil).
  rewrite app_nil_r in Hrun.
  destruct r as [new|msg].
  - destruct (Hrun I (S (length (list_ascii_of_string json_str))) [] [])
      as (fuel' & Hfuel' & ->); [lia|].
    destruct fuel' as [|fuel']; [simpl in Hfuel'; lia|].
    rewrite scan_tokens_loop_end. reflexivity.
  - rewrite Hrun; [reflexivity | | lia].
    intros H. inversion H.
Qed.

(** [scan] of a list of characters in the terms of the loop. *)
Lemma scan_unfold (json_str : string) :
  scan json_str
  = match
      Scanner.scan_tokens_loop (S (length (list_ascii_of_string json_str)))
        [] (at_ [] (list_ascii_of_string json_str))
    with
    | Ok (tokens, _) => Ok (tokens ++ [eof_token])
    | Raise e => Raise e
    | OutOfFuel => OutOfFuel
    end.
Proof.
  unfold scan, Scanner.scan_tokens, bind, get, ret.
  rewrite at_nil, fuel_left_at.
  destruct (Scanner.scan_tokens_loop _ _ _) as [[tokens self]| |]; reflexivity.
Qed.

(** [parse_json] depends on the input through its scan only. *)
Lemma parse_json_by_scan (s1 s2 : string) :
  scan s1 = scan s2 → parse_json s1 = parse_json s2.
Proof.
  unfold scan, parse_json.
  destruct (Scanner.scan_tokens (Scanner.init (list_ascii_of_string s1)))
    as [[t1 p1]| |];
    destruct (Scanner.scan_tokens (Scanner.init (list_ascii_of_string s2)))
      as [[t2 p2]| |]; intros H; try discriminate H; try reflexivity.
  - injection H as ->. reflexivity.
  - injection H as ->. reflexivity.
Qed.

(** A white space character is not taken by any later branch, and it ends
    a number and a word. *)
Lemma whitespace_class (c : ascii) :
  char_in c whitespace = true →
  char_in c punctuation = false ∧ Ascii.eqb c dquote = false
  ∧ is_number_char c || isalpha c = false.
Proof. by_ascii_cases c. Qed.

Lemma whitespace_separated (ws : list ascii) :
  Forall (λ c, char_in c whitespace = true) ws →
  separated ws ∧ dquote ∉ ws.
Proof.
  intros Hws. split.
  - destruct Hws as [|c ws Hc _]; [reflexivity|].
    apply (whitespace_class c Hc).
  - induction Hws as [|c ws Hc _ IH]; [apply not_elem_of_nil|].
    apply not_elem_of_cons. split; [|exact IH].
    intros <-. destruct (whitespace_class _ Hc) as (_ & Hq & _).
    discriminate Hq.
Qed.

(** The loop of [scan_tokens] skips the white space before it. *)
Lemma scan_tokens_loop_skip_whitespace (ws rest pre : list ascii)
    (tokens : list Token) (fuel : nat) :
  Forall (λ c, char_in c whitespace = true) ws →
  Scanner.scan_tokens_loop (length ws + fuel) tokens (at_ pre (ws ++ rest))
  = Scanner.scan_tokens_loop fuel tokens (at_ (pre ++ ws) rest).
Proof.
  intros Hws. revert pre.
  induction Hws as [|c ws Hc _ IH]; intros pre.
  - rewrite app_nil_r. reflexivity.
  - cbn [length app Nat.add].
    rewrite scan_tokens_loop_whitespace by assumption.
    rewrite IH, <- app_assoc. reflexivity.
Qed.

Lemma length_list_ascii_of_string (s : string) :
  length (list_ascii_of_string s) = String.length s.
Proof. induction s as [|c s IH]; simpl; [|rewrite IH]; reflexivity. Qed.

(** The scan of a text does not depend on the text before it. *)
Lemma scan_tokens_loop_at_start (rest pre : list ascii) (fuel : nat) :
  length rest < fuel →
  match Scanner.scan_tokens_loop fuel [] (at_ pre rest) with
  | Ok (tokens, _) => Ok (tokens ++ [eof_token])
  | Raise e => Raise e
  | OutOfFuel => OutOfFuel
  end
  = scan (string_of_list_ascii rest).
Proof.
  intros Hfuel. rewrite scan_unfold, list_ascii_of_string_of_list_ascii.
  destruct (scan_tokens_loop_run rest) as (r & Hrun & _).
  rewrite !Hrun by lia. destruct r; reflexivity.
Qed.

(** ** Further properties of the code *)

(** X1. Scanning composes at a separated text: when [s1] scans to the
    tokens [t1] (before the end-of-input token) and [s2] is empty or starts
    with a character that is no digit, no decimal point and no letter, the
    scan of [s1 ++ s2] is the tokens [t1] followed by the scan of [s2], or
    the error of the scan of [s2]. *)
Theorem X1_scan_composes :
  ∀ (s1 s2 : string) (t1 : list Token),
    scan s1 = Ok (t1 ++ [eof_token]) →
    separated (list_ascii_of_string s2) →
    scan (s1 ++ s2)
    = match scan s2 with
      | Ok t2 => Ok (t1 ++ t2)
      | Raise e => Raise e
      | OutOfFuel => OutOfFuel
      end.
Proof.
  intros s1 s2 t1 Hscan Hsep.
  destruct (scan_by_run s1) as ([new|msg] & Hs1 & _ & Hrun);
    rewrite Hs1 in Hscan; [|discriminate Hscan].
  injection Hscan as Hnew. apply app_inv_tail in Hnew as ->.
  rewrite (scan_unfold (s1 ++ s2)), list_ascii_of_string_app.
  destruct (Hrun _ Hsep I
              (S (length (list_ascii_of_string s1
                          ++ list_ascii_of_string s2))) [] [])
    as (fuel' & Hfuel' & ->); [lia|].
  rewrite (scan_unfold s2).
  destruct (scan_tokens_loop_run (list_ascii_of_string s2)) as (r & Hr & _).
  rewrite !Hr by lia. destruct r; cbn [app]; [|reflexivity].
  rewrite <- app_assoc. reflexivity.
Qed.

Lemma X1_scan_composes_witness :
  scan "[1,true" = Ok [punctuation_token "["; mkToken TokenType.NUMBER (LInt 1);
                      punctuation_token ","; mkToken TokenType.BOOLEAN (LBool true);
                      eof_token].
Proof.
  apply (X1_scan_composes "[1" ",true"
           [punctuation_token "["; mkToken TokenType.NUMBER (LInt 1)]).
  - reflexivity.
  - reflexivity.
Defined.

(** X2. White space before the first token and after the last one changes
    nothing: the scan and [parse_json] give the same outcome, value or
    error, with and without it. *)
Theorem X2_outer_whitespace_ignored :
  ∀ (ws s : string),
    Forall (λ c, char_in c whitespace = true) (list_ascii_of_string ws) →
    scan (ws ++ s) = scan s ∧ scan (s ++ ws) = scan s
    ∧ parse_json (ws ++ s) = parse_json s
    ∧ parse_json (s ++ ws) = parse_json s.
Proof.
  intros ws s Hws.
  assert (Hleading : scan (ws ++ s) = scan s).
  { rewrite (scan_unfold (ws ++ s)), list_ascii_of_string_app.
    rewrite length_app.
    change (S (length (list_ascii_of_string ws)
               + length (list_ascii_of_string s)))
      with (S (length (list_ascii_of_string ws))
            + length (list_ascii_of_string s)).
    rewrite Nat.add_succ_comm.
    rewrite scan_tokens_loop_skip_whitespace by assumption.
    rewrite scan_tokens_loop_at_start by lia.
    rewrite string_of_list_ascii_of_string. reflexivity. }
  assert (Htrailing : scan (s ++ ws) = scan s).
  { destruct (whitespace_separated _ Hws) as [Hsep Hquote].
    destruct (scan_by_run s) as (r & -> & _ & Hrun).
    rewrite (scan_unfold (s ++ ws)), list_ascii_of_string_app.
    specialize (Hrun _ Hsep).
    destruct r as [new|msg].
    - destruct (Hrun I (S (length (list_ascii_of_string s
                                   ++ list_ascii_of_string ws))) [] [])
        as (fuel' & Hfuel' & ->); [lia|].
      rewrite scan_tokens_loop_all_whitespace by assumption. reflexivity.
    - rewrite (Hrun Hquote) by lia. reflexivity. }
  repeat split; try assumption; apply parse_json_by_scan; assumption.
Qed.

Lemma X2_outer_whitespace_ignored_witness :
  parse_json "  [1]" = parse_json "[1]"
  ∧ parse_json ("[1]" ++ " ") = parse_json "[1]".
Proof.
  assert (H : Forall (λ c, char_in c whitespace = true)
                (list_ascii_of_string " ")) by (repeat constructor).
  split.
  - apply (X2_outer_whitespace_ignored "  " "[1]"). repeat constructor.
  - apply (X2_outer_whitespace_ignored " " "[1]" H).
Defined.

(** X3. A character that is no white space, no punctuation, no double
    quote, no digit, no minus sign and no letter makes the scan raise
    [ValueError] with the message [Unexpected character: ] and the
    character, wherever the loop meets it; and since the whole input is
    scanned before the parser starts, [parse_json] raises this error after
    any text that scans, whatever the grammar of that text (the decimal
    point apart, which a number before it would take).  A decimal point, a
    plus sign and an apostrophe are such characters, and so are the form
    feed and the vertical tab. *)
Theorem X3_unexpected_character :
  (∀ (fuel : nat) (tokens : list Token) (pre : list ascii) (c : ascii)
     (rest : list ascii),
     unexpected c = true →
     Scanner.scan_tokens_loop (S fuel) tokens (at_ pre (c :: rest))
     = Raise (ValueError ("Unexpected character: " ++ String c EmptyString)))
  ∧ (∀ (s1 s2 : string) (c : ascii) (tokens : list Token),
       scan s1 = Ok tokens →
       unexpected c = true →
       c ≠ "."%char →
       scan (s1 ++ String c s2)
       = Raise (ValueError ("Unexpected character: " ++ String c EmptyString))
       ∧ parse_json (s1 ++ String c s2)
         = Raise (ValueError
                    ("Unexpected character: " ++ String c EmptyString)))
  ∧ Forall (λ c, unexpected c = true)
      ["."; "+"; "'"; "#"; "\"; "/"; "012"; "011"]%char.
Proof.
  assert (Hloop :
    ∀ (fuel : nat) (tokens : list Token) (pre : list ascii) (c : ascii)
      (rest : list ascii),
      unexpected c = true →
      Scanner.scan_tokens_loop (S fuel) tokens (at_ pre (c :: rest))
      = Raise (ValueError ("Unexpected character: " ++ String c EmptyString))).
  { intros fuel tokens pre c rest Hc. unfold unexpected in Hc.
    apply negb_true_iff in Hc.
    do 4 (apply orb_false_iff in Hc as [Hc ?]).
    apply scan_tokens_loop_unexpected; assumption. }
  split; [exact Hloop|]. split; [|repeat constructor].
  intros s1 s2 c tokens Hscan Hc Hpoint.
  assert (Hsep : separated (c :: list_ascii_of_string s2)).
  { unfold separated, is_number_char. cbn [head from_option].
    unfold unexpected, starts_number in Hc. apply negb_true_iff in Hc.
    do 4 (apply orb_false_iff in Hc as [Hc ?]).
    apply orb_false_iff in H0 as [-> _].
    apply Ascii.eqb_neq in Hpoint. rewrite Hpoint. assumption. }
  assert (Hraise :
    scan (s1 ++ String c s2)
    = Raise (ValueError ("Unexpected character: " ++ String c EmptyString))).
  { destruct (scan_by_run s1) as ([new|msg] & Hs1 & _ & Hrun);
      rewrite Hs1 in Hscan; [|discriminate Hscan].
    rewrite (scan_unfold (s1 ++ String c s2)), list_ascii_of_string_app.
    cbn [list_ascii_of_string].
    destruct (Hrun _ Hsep I
                (S (length (list_ascii_of_string s1
                            ++ c :: list_ascii_of_string s2))) [] [])
      as (fuel' & Hfuel' & ->); [lia|].
    destruct fuel' as [|fuel']; [simpl in Hfuel'; lia|].
    rewrite Hloop by assumption. reflexivity. }
  split; [exact Hraise|].
  unfold scan in Hraise. unfold parse_json.
  destruct (Scanner.scan_tokens _) as [[t p]| |]; [discriminate Hraise | |
    discriminate Hraise].
  injection Hraise as ->. reflexivity.
Qed.

Lemma X3_unexpected_character_witness :
  Scanner.scan_tokens_loop 1 [] (at_ [] ["+"; "1"]%char)
  = Raise (ValueError "Unexpected character: +")
  ∧ parse_json "]]#" = Raise (ValueError "Unexpected character: #").
Proof.
  split.
  - apply (proj1 X3_unexpected_character 0 [] [] "+"%char ["1"%char]).
    reflexivity.
  - refine (proj2 (proj1 (proj2 X3_unexpected_character) "]]" EmptyString
                     "#"%char _ eq_refl eq_refl _)).
    discriminate.
Defined.

(** X4. In the tokens of a successful scan the type tells the value: a
    [STRING] token holds a [str], a [NUMBER] token an [int] or a [float],
    a [BOOLEAN] token a [bool], a [NULL] token [None], a punctuation token
    its own character as type and as value; the end-of-input token comes
    once, at the end. *)
Theorem X4_tokens_typed :
  ∀ (json_str : string) (tokens : list Token),
    scan json_str = Ok tokens →
    ∃ new, tokens = new ++ [eof_token] ∧ Forall token_typed new.
Proof.
  intros json_str tokens Hscan.
  destruct (scan_by_run json_str) as ([new|msg] & Hs & Hr & _);
    rewrite Hs in Hscan; [|discriminate Hscan].
  injection Hscan as <-. exists new. split; [reflexivity | apply Hr].
Qed.

Lemma X4_tokens_typed_witness :
  ∃ new, [mkToken TokenType.NULL LNone; eof_token] = new ++ [eof_token]
         ∧ Forall token_typed new.
Proof.
  apply (X4_tokens_typed "null" [mkToken TokenType.NULL LNone; eof_token]).
  reflexivity.
Defined.

(** X5. A successful scan returns at most one token for each character of
    the input, and the end-of-input token. *)
Theorem X5_token_count :
  ∀ (json_str : string) (tokens : list Token),
    scan json_str = Ok tokens →
    1 ≤ length tokens ≤ String.length json_str + 1.
Proof.
  intros json_str tokens Hscan.
  destruct (scan_by_run json_str) as ([new|msg] & Hs & Hr & _);
    rewrite Hs in Hscan; [|discriminate Hscan].
  injection Hscan as <-. destruct Hr as [_ Hcount].
  rewrite length_list_ascii_of_string in Hcount.
  rewrite length_app. simpl. lia.
Qed.

Lemma X5_token_count_witness :
  1 ≤ length [punctuation_token "["; punctuation_token "]"; eof_token]
  ≤ String.length "[ ]" + 1.
Proof.
  apply (X5_token_count "[ ]"). reflexivity.
Defined.

Lemma scan_tokens_loop_punctuation_only (text pre : list ascii)
    (tokens : list Token) (fuel : nat) :
  Forall (λ c, char_in c whitespace || char_in c punctuation = true) text →
  length text < fuel →
  Scanner.scan_tokens_loop fuel tokens (at_ pre text)
  = Ok (tokens
        ++ (punctuation_token
            <$> filter (λ c, char_in c punctuation = true) text),
        at_ (pre ++ text) []).
Proof.
  intros Htext. revert pre tokens fuel.
  induction Htext as [|c text Hc _ IH]; intros pre tokens fuel Hfuel;
    (destruct fuel as [|fuel]; [simpl in Hfuel; lia|]).
  - rewrite scan_tokens_loop_end, !app_nil_r. reflexivity.
  - destruct (char_in c whitespace) eqn:Hws.
    + rewrite scan_tokens_loop_whitespace by assumption.
      rewrite IH by (simpl in Hfuel; lia).
      destruct (whitespace_class c Hws) as (Hpunct & _).
      rewrite filter_cons_False by congruence.
      rewrite <- app_assoc. reflexivity.
    + cbn [orb] in Hc.
      rewrite scan_tokens_loop_punctuation by assumption.
      rewrite IH by (simpl in Hfuel; lia).
      rewrite filter_cons_True by assumption.
      rewrite <- !app_assoc. reflexivity.
Qed.

(** X6. On an input made of white space and of the six punctuation
    characters only, the scan returns one token for every punctuation
    character, in the order of the input, with the character as type and as
    value, and nothing for the white space. *)
Theorem X6_punctuation_tokens :
  ∀ json_str : string,
    Forall (λ c, char_in c whitespace || char_in c punctuation = true)
      (list_ascii_of_string json_str) →
    scan json_str
    = Ok ((punctuation_token
           <$> filter (λ c, char_in c punctuation = true)
                 (list_ascii_of_string json_str))
          ++ [eof_token]).
Proof.
  intros json_str Htext. rewrite scan_unfold.
  rewrite scan_tokens_loop_punctuation_only by (auto with lia).
  reflexivity.
Qed.

Lemma X6_punctuation_tokens_witness :
  scan "{ :,}"
  = Ok [punctuation_token "{"; punctuation_token ":"; punctuation_token ",";
        punctuation_token "}"; eof_token].
Proof.
  apply (X6_punctuation_tokens "{ :,}"). repeat constructor.
Defined.

(** ** The loops of the parser after complete elements *)

Lemma comma_terminated_cons (comma : Token) (run : list Token)
    (runs : list (list Token)) :
  comma_terminated comma (run :: runs)
  = run ++ comma :: comma_terminated comma runs.
Proof.
  unfold comma_terminated. rewrite fmap_cons. cbn [concat].
  rewrite <- app_assoc. reflexivity.
Qed.

(** The loop of [parse_array] after elements that are each followed by a
    comma: it is at its test again, with the elements appended. *)
Lemma parse_array_loop_prefix (fuel : nat) (comma : Token)
    (elems : list (list Token * JsonValue)) :
  type comma = TokenType.COMMA →
  Forall (λ e, parses_as fuel e.1 e.2) elems →
  ∀ (n : nat) (arr : list JsonValue) (pre tail : list Token),
    Parser.parse_array_loop (Parser.parse_value fuel) (length elems + n) arr
      (pat_ pre (comma_terminated comma elems.*1 ++ tail))
    = Parser.parse_array_loop (Parser.parse_value fuel) n (arr ++ elems.*2)
        (pat_ (pre ++ comma_terminated comma elems.*1) tail).
Proof.
  intros Hcomma Helems.
  induction Helems as [|[run v] elems Hrun _ IH]; intros n arr pre tail.
  - cbn. rewrite !app_nil_r. reflexivity.
  - cbn [fst snd] in Hrun.
    destruct (parses_as_head _ _ _ Hrun) as (t & run' & Erun & Ht & _).
    assert (Hpeek : ∀ pre tail,
      Parser.peek (pat_ pre (run ++ tail)) = Ok (t, pat_ pre (run ++ tail))).
    { intros. rewrite Erun. cbn [app]. apply peek_pat. }
    rewrite !fmap_cons, comma_terminated_cons. cbn [fst snd length Nat.add].
    cbn [Parser.parse_array_loop]. unfold bind, ret.
    rewrite <- !app_assoc, Hpeek, Ht. cbn [negb].
    rewrite (Hrun pre). cbn [app].
    rewrite peek_pat, Hcomma, String.eqb_refl, advance_pat.
    rewrite IH, <- !app_assoc. reflexivity.
Qed.

(** The same for the loop of [parse_object], with the entries written
    into the dict. *)
Lemma parse_object_loop_prefix (fuel : nat) (colon comma : Token)
    (entries : list (Token * list Token * JsonValue)) :
  type colon = TokenType.COLON →
  type comma = TokenType.COMMA →
  Forall (λ e, type e.1.1 = TokenType.STRING ∧ parses_as fuel e.1.2 e.2)
    entries →
  ∀ (n : nat) (obj : list (Literal * JsonValue)) (pre tail : list Token),
    Parser.parse_object_loop (Parser.parse_value fuel) (length entries + n)
      obj
      (pat_ pre (comma_terminated comma (entry_tokens colon <$> entries)
                 ++ tail))
    = Parser.parse_object_loop (Parser.parse_value fuel) n
        (dict_update obj (entry_binding <$> entries))
        (pat_ (pre ++ comma_terminated comma (entry_tokens colon <$> entries))
           tail).
Proof.
  intros Hcolon Hcomma Hentries.
  induction Hentries as [|[[key run] v] entries [Hkey Hrun] _ IH];
    intros n obj pre tail.
  - cbn. rewrite !app_nil_r. reflexivity.
  - cbn [fst snd] in Hkey, Hrun.
    rewrite !fmap_cons, comma_terminated_cons. cbn [length Nat.add].
    unfold entry_tokens at 1 3. unfold entry_binding at 1.
    cbn [fst snd app dict_update fold_left].
    cbn [Parser.parse_object_loop]. unfold bind, ret.
    rewrite peek_pat, Hkey.
    change (String.eqb TokenType.STRING TokenType.RIGHT_BRACE) with false.
    cbn [negb].
    rewrite expect_pat, Hkey, String.eqb_refl.
    rewrite expect_pat, Hcolon, String.eqb_refl.
    rewrite <- !app_assoc, Hrun. cbn [app].
    rewrite peek_pat, Hcomma, String.eqb_refl, advance_pat.
    unfold dict_update in IH |- *. rewrite IH, <- !app_assoc. reflexivity.
Qed.

(** X7. The errors of [parse_array].  After the opening bracket and any
    number of elements that are each followed by a comma: a token that is
    no closing bracket and starts no value makes [parse_value] raise
    [ValueError] with [Unexpected token: ] and the type of the token (a
    comma at the place of an element, the end of the input after the
    bracket or after a comma); and an element followed by a token that is
    neither a comma nor the closing bracket makes it raise [ValueError]
    with [Expected ']' at end of array] (two elements without a comma, the
    end of the input after an element). *)
Theorem X7_array_errors :
  (∀ (fuel fuel' : nat) (elems : list (list Token * JsonValue))
     (opening comma t : Token) (pre rest : list Token),
     type opening = TokenType.LEFT_BRACKET →
     type comma = TokenType.COMMA →
     Forall (λ e, parses_as fuel e.1 e.2) elems →
     fuel + length elems + 1 < fuel' →
     type t ≠ TokenType.RIGHT_BRACKET →
     Parser.is_literal_type (type t) = false →
     type t ≠ TokenType.LEFT_BRACE →
     type t ≠ TokenType.LEFT_BRACKET →
     Parser.parse_value fuel'
       (pat_ pre (opening :: comma_terminated comma elems.*1 ++ t :: rest))
     = Raise (ValueError ("Unexpected token: " ++ type t)))
  ∧ (∀ (fuel fuel' : nat) (elems : list (list Token * JsonValue))
       (run : list Token) (v : JsonValue) (opening comma t : Token)
       (pre rest : list Token),
       type opening = TokenType.LEFT_BRACKET →
       type comma = TokenType.COMMA →
       Forall (λ e, parses_as fuel e.1 e.2) elems →
       parses_as fuel run v →
       fuel + length elems < fuel' →
       type t ≠ TokenType.COMMA →
       type t ≠ TokenType.RIGHT_BRACKET →
       Parser.parse_value fuel'
         (pat_ pre
            (opening :: comma_terminated comma elems.*1 ++ run ++ t :: rest))
       = Raise (ValueError "Expected ']' at end of array"))
  ∧ parse_json "[1,,2]" = Raise (ValueError "Unexpected token: ,")
  ∧ parse_json "[" = Raise (ValueError "Unexpected token: EOF")
  ∧ parse_json "[1,:" = Raise (ValueError "Unexpected token: :")
  ∧ parse_json "[1 2]" = Raise (ValueError "Expected ']' at end of array")
  ∧ parse_json "[[1],[2]" = Raise (ValueError "Expected ']' at end of array")
  ∧ parse_json "[1}" = Raise (ValueError "Expected ']' at end of array").
Proof.
  split; [|split; [|repeat split]].
  - intros fuel fuel' elems opening comma t pre rest Hopening Hcomma Helems
      Hfuel Hclose Hlit Hbrace Hbracket.
    destruct fuel' as [|f]; [lia|].
    rewrite parse_value_step, Hopening.
    change (Parser.is_literal_type TokenType.LEFT_BRACKET) with false.
    change (String.eqb TokenType.LEFT_BRACKET TokenType.LEFT_BRACE)
      with false.
    rewrite String.eqb_refl. unfold Parser.parse_array, bind, ret.
    replace f with (length elems + S (f - length elems - 1)) at 2 by lia.
    rewrite parse_array_loop_prefix;
      [|assumption
       |eapply Forall_impl; [exact Helems|];
        intros e; apply parses_as_more_fuel; lia].
    cbn [Parser.parse_array_loop]. unfold bind, ret.
    apply String.eqb_neq in Hclose, Hbrace, Hbracket.
    rewrite peek_pat, Hclose. cbn [negb].
    destruct f as [|f]; [lia|].
    rewrite parse_value_step, Hlit, Hbrace, Hbracket. reflexivity.
  - intros fuel fuel' elems run v opening comma t pre rest Hopening Hcomma
      Helems Hrun Hfuel Hsep Hclose.
    pose proof (parses_as_fuel _ _ _ Hrun) as Hpos.
    destruct fuel' as [|f]; [lia|].
    rewrite parse_value_step, Hopening.
    change (Parser.is_literal_type TokenType.LEFT_BRACKET) with false.
    change (String.eqb TokenType.LEFT_BRACKET TokenType.LEFT_BRACE)
      with false.
    rewrite String.eqb_refl. unfold Parser.parse_array, bind, ret.
    replace f with (length elems + S (f - length elems - 1)) at 2 by lia.
    rewrite parse_array_loop_prefix;
      [|assumption
       |eapply Forall_impl; [exact Helems|];
        intros e; apply parses_as_more_fuel; lia].
    cbn [Parser.parse_array_loop]. unfold bind, ret.
    apply (parses_as_more_fuel fuel f) in Hrun; [|lia].
    destruct (parses_as_head _ _ _ Hrun) as (t0 & run' & Erun & Ht0 & _).
    assert (Hpeek : ∀ pre tail,
      Parser.peek (pat_ pre (run ++ tail))
      = Ok (t0, pat_ pre (run ++ tail))).
    { intros. rewrite Erun. cbn [app]. apply peek_pat. }
    rewrite Hpeek, Ht0. cbn [negb]. rewrite Hrun.
    apply String.eqb_neq in Hsep, Hclose.
    rewrite peek_pat, Hsep, expect_pat, Hclose. reflexivity.
Qed.

Lemma X7_array_errors_witness :
  let one := mkToken TokenType.NUMBER (LInt 1) in
  let comma := punctuation_token "," in
  Parser.parse_value 4
    (pat_ [] [punctuation_token "["; one; comma; comma; one; eof_token])
  = Raise (ValueError "Unexpected token: ,")
  ∧ Parser.parse_value 3
      (pat_ [] [punctuation_token "["; one; comma; one; eof_token])
    = Raise (ValueError "Expected ']' at end of array").
Proof.
  intros one comma.
  assert (Hone : parses_as 1 [one] (JLit (LInt 1))).
  { intros pre tail. cbn [Parser.parse_value app]. unfold bind.
    rewrite advance_pat. reflexivity. }
  split.
  - apply (proj1 X7_array_errors 1 4 [([one], JLit (LInt 1))]
             (punctuation_token "[") comma comma [] [one; eof_token]
             eq_refl eq_refl).
    + repeat constructor. assumption.
    + simpl. lia.
    + discriminate.
    + reflexivity.
    + discriminate.
    + discriminate.
  - apply (proj1 (proj2 X7_array_errors) 1 3 [([one], JLit (LInt 1))]
             [one] (JLit (LInt 1)) (punctuation_token "[") comma eof_token
             [] [] eq_refl eq_refl).
    + repeat constructor. assumption.
    + assumption.
    + simpl. lia.
    + discriminate.
    + discriminate.
Defined.

(** X8. The errors of [parse_object].  After the opening brace and any
    number of entries that are each followed by a comma, [parse_value]
    raises [ValueError]: with [Expected string key] at a token that is
    neither a [STRING] nor the closing brace (a number as key, a comma at
    the place of an entry, the end of the input); with
    [Expected ':' after key] at a key that no colon follows; and with
    [Expected '}' at end of object] at an entry followed by a token that is
    neither a comma nor the closing brace (two entries without a comma, the
    end of the input after an entry). *)
Theorem X8_object_errors :
  (∀ (fuel fuel' : nat) (entries : list (Token * list Token * JsonValue))
     (opening colon comma t : Token) (pre rest : list Token),
     type opening = TokenType.LEFT_BRACE →
     type colon = TokenType.COLON →
     type comma = TokenType.COMMA →
     Forall (λ e, type e.1.1 = TokenType.STRING ∧ parses_as fuel e.1.2 e.2)
       entries →
     fuel + length entries + 1 < fuel' →
     type t ≠ TokenType.RIGHT_BRACE →
     type t ≠ TokenType.STRING →
     Parser.parse_value fuel'
       (pat_ pre
          (opening
           :: comma_terminated comma (entry_tokens colon <$> entries)
              ++ t :: rest))
     = Raise (ValueError "Expected string key"))
  ∧ (∀ (fuel fuel' : nat) (entries : list (Token * list Token * JsonValue))
       (opening colon comma key t : Token) (pre rest : list Token),
       type opening = TokenType.LEFT_BRACE →
       type colon = TokenType.COLON →
       type comma = TokenType.COMMA →
       Forall (λ e, type e.1.1 = TokenType.STRING ∧ parses_as fuel e.1.2 e.2)
         entries →
       fuel + length entries + 1 < fuel' →
       type key = TokenType.STRING →
       type t ≠ TokenType.COLON →
       Parser.parse_value fuel'
         (pat_ pre
            (opening
             :: comma_terminated comma (entry_tokens colon <$> entries)
                ++ key :: t :: rest))
       = Raise (ValueError "Expected ':' after key"))
  ∧ (∀ (fuel fuel' : nat) (entries : list (Token * list Token * JsonValue))
       (run : list Token) (v : JsonValue)
       (opening colon comma key t : Token) (pre rest : list Token),
       type opening = TokenType.LEFT_BRACE →
       type colon = TokenType.COLON →
       type comma = TokenType.COMMA →
       Forall (λ e, type e.1.1 = TokenType.STRING ∧ parses_as fuel e.1.2 e.2)
         entries →
       type key = TokenType.STRING →
       parses_as fuel run v →
       fuel + length entries < fuel' →
       type t ≠ TokenType.COMMA →
       type t ≠ TokenType.RIGHT_BRACE →
       Parser.parse_value fuel'
         (pat_ pre
            (opening
             :: comma_terminated comma (entry_tokens colon <$> entries)
                ++ entry_tokens colon (key, run, v) ++ t :: rest))
       = Raise (ValueError "Expected '}' at end of object"))
  ∧ parse_json "{1:2}" = Raise (ValueError "Expected string key")
  ∧ parse_json "{" = Raise (ValueError "Expected string key")
  ∧ parse_json (with_quotes "{'a':1,,}")
    = Raise (ValueError "Expected string key")
  ∧ parse_json (with_quotes "{'a' 1}")
    = Raise (ValueError "Expected ':' after key")
  ∧ parse_json (with_quotes "{'a'")
    = Raise (ValueError "Expected ':' after key")
  ∧ parse_json (with_quotes "{'a':1 'b':2}")
    = Raise (ValueError "Expected '}' at end of object")
  ∧ parse_json (with_quotes "{'a':1")
    = Raise (ValueError "Expected '}' at end of object")
  ∧ parse_json (with_quotes "{'a':1]")
    = Raise (ValueError "Expected '}' at end of object").
Proof.
  assert (Hstart :
    ∀ (fuel f : nat) (entries : list (Token * list Token * JsonValue))
      (opening colon comma : Token) (pre tail : list Token),
      type opening = TokenType.LEFT_BRACE →
      type colon = TokenType.COLON →
      type comma = TokenType.COMMA →
      Forall (λ e, type e.1.1 = TokenType.STRING ∧ parses_as fuel e.1.2 e.2)
        entries →
      fuel + length entries ≤ f →
      Parser.parse_value (S f)
        (pat_ pre
           (opening
            :: comma_terminated comma (entry_tokens colon <$> entries)
               ++ tail))
      = (let* obj :=
           Parser.parse_object_loop (Parser.parse_value f)
             (f - length entries)
             (dict_update [] (entry_binding <$> entries)) in
         let* _ :=
           Parser.expect TokenType.RIGHT_BRACE
             "Expected '}' at end of object" in
         ret (JDict obj))
          (pat_ ((pre ++ [opening])
                 ++ comma_terminated comma (entry_tokens colon <$> entries))
             tail)).
  { intros fuel f entries opening colon comma pre tail Hopening Hcolon Hcomma
      Hentries Hfuel.
    rewrite parse_value_step, Hopening.
    change (Parser.is_literal_type TokenType.LEFT_BRACE) with false.
    rewrite String.eqb_refl. unfold Parser.parse_object, bind, ret.
    replace f with (length entries + (f - length entries)) at 2 by lia.
    rewrite (parse_object_loop_prefix f colon comma entries);
      [reflexivity | assumption | assumption |].
    eapply Forall_impl; [exact Hentries|].
    intros e [Hkey Hrun]. split; [exact Hkey|].
    eapply parses_as_more_fuel; [|exact Hrun]. lia. }
  split; [|split; [|split; [|repeat split]]].
  - intros fuel fuel' entries opening colon comma t pre rest Hopening Hcolon
      Hcomma Hentries Hfuel Hclose Hkey.
    destruct fuel' as [|f]; [lia|].
    rewrite (Hstart fuel) by (assumption || lia).
    destruct (f - length entries) as [|n] eqn:Hn; [lia|].
    cbn [Parser.parse_object_loop]. unfold bind, ret.
    apply String.eqb_neq in Hclose, Hkey.
    rewrite peek_pat, Hclose. cbn [negb].
    rewrite expect_pat, Hkey. reflexivity.
  - intros fuel fuel' entries opening colon comma key t pre rest Hopening
      Hcolon Hcomma Hentries Hfuel Hkey Ht.
    destruct fuel' as [|f]; [lia|].
    rewrite (Hstart fuel) by (assumption || lia).
    destruct (f - length entries) as [|n] eqn:Hn; [lia|].
    cbn [Parser.parse_object_loop]. unfold bind, ret.
    apply String.eqb_neq in Ht.
    rewrite peek_pat, Hkey.
    change (String.eqb TokenType.STRING TokenType.RIGHT_BRACE) with false.
    cbn [negb].
    rewrite expect_pat, Hkey, String.eqb_refl.
    rewrite expect_pat, Ht. reflexivity.
  - intros fuel fuel' entries run v opening colon comma key t pre rest
      Hopening Hcolon Hcomma Hentries Hkey Hrun Hfuel Hsep Hclose.
    pose proof (parses_as_fuel _ _ _ Hrun) as Hpos.
    destruct fuel' as [|f]; [lia|].
    rewrite (Hstart fuel) by (assumption || lia).
    destruct (f - length entries) as [|n] eqn:Hn; [lia|].
    cbn [Parser.parse_object_loop]. unfold bind, ret, entry_tokens.
    cbn [fst snd app].
    apply String.eqb_neq in Hsep, Hclose.
    rewrite peek_pat, Hkey.
    change (String.eqb TokenType.STRING TokenType.RIGHT_BRACE) with false.
    cbn [negb].
    rewrite expect_pat, Hkey, String.eqb_refl.
    rewrite expect_pat, Hcolon, String.eqb_refl.
    apply (parses_as_more_fuel fuel f) in Hrun; [|lia].
    rewrite Hrun, peek_pat, Hsep, expect_pat, Hclose. reflexivity.
Qed.

Lemma X8_object_errors_witness :
  let one := mkToken TokenType.NUMBER (LInt 1) in
  let key := mkToken TokenType.STRING (LStr "a") in
  let colon := punctuation_token ":" in
  let comma := punctuation_token "," in
  Parser.parse_value 4
    (pat_ [] [punctuation_token "{"; key; colon; one; comma; one; eof_token])
  = Raise (ValueError "Expected string key")
  ∧ Parser.parse_value 4
      (pat_ [] [punctuation_token "{"; key; colon; one; comma; key; one;
                eof_token])
    = Raise (ValueError "Expected ':' after key")
  ∧ Parser.parse_value 3
      (pat_ [] [punctuation_token "{"; key; colon; one; comma; key; colon;
                one; eof_token])
    = Raise (ValueError "Expected '}' at end of object").
Proof.
  intros one key colon comma.
  assert (Hone : parses_as 1 [one] (JLit (LInt 1))).
  { intros pre tail. cbn [Parser.parse_value app]. unfold bind.
    rewrite advance_pat. reflexivity. }
  assert (Hentries :
    Forall (λ e : Token * list Token * JsonValue,
              type e.1.1 = TokenType.STRING ∧ parses_as 1 e.1.2 e.2)
      [(key, [one], JLit (LInt 1))]).
  { repeat constructor. assumption. }
  destruct X8_object_errors as (Hkey & Hcolon & Hclose & _).
  split; [|split].
  - apply (Hkey 1 4 [(key, [one], JLit (LInt 1))] (punctuation_token "{")
             colon comma one [] [eof_token] eq_refl eq_refl eq_refl Hentries).
    + simpl. lia.
    + discriminate.
    + discriminate.
  - apply (Hcolon 1 4 [(key, [one], JLit (LInt 1))] (punctuation_token "{")
             colon comma key one [] [eof_token] eq_refl eq_refl eq_refl
             Hentries).
    + simpl. lia.
    + reflexivity.
    + discriminate.
  - apply (Hclose 1 3 [(key, [one], JLit (LInt 1))] [one] (JLit (LInt 1))
             (punctuation_token "{") colon comma key eof_token [] []
             eq_refl eq_refl eq_refl Hentries eq_refl Hone).
    + simpl. lia.
    + discriminate.
    + discriminate.
Defined.

(** X9. The scanner never reads a character out of its source: a scan
    either returns, having consumed the whole source, or raises
    [ValueError]; [IndexError] is never raised, by [Scanner.advance] or by
    [Scanner.peek], and the loops always end.  With the parser, which reads
    no token after the end-of-input token, [parse_json] returns a value or
    raises [ValueError] on every input (the depth of the recursion, which
    the interpreter bounds, is not part of the model). *)
Theorem X9_only_value_errors :
  (∀ text : list ascii,
     (∃ new,
        Scanner.scan_tokens (Scanner.init text)
        = Ok (new ++ [eof_token],
              {| Scanner.source := text; Scanner.current := length text |}))
     ∨ ∃ msg, Scanner.scan_tokens (Scanner.init text) = Raise (ValueError msg))
  ∧ (∀ json_str : string,
       (∃ v, parse_json json_str = Ok v)
       ∨ ∃ msg, parse_json json_str = Raise (ValueError msg)).
Proof.
  split.
  - intros text. destruct (scan_tokens_run text) as ([new|msg] & Hrun & _).
    + left. exists new. rewrite Hrun. unfold at_. rewrite app_nil_r.
      reflexivity.
    + right. exists msg. exact Hrun.
  - intros json_str. unfold parse_json.
    destruct (scan_tokens_run (list_ascii_of_string json_str))
      as ([new|msg] & -> & Hr); [|right; exists msg; reflexivity].
    destruct Hr as [Hnew _].
    destruct (parse_run (new ++ [eof_token]))
      as [(v & consumed & rest & Hsplit & _ & _ & Hrun)
         | [(msg & H) | (Heof & _)]].
    + left. exists v. rewrite parse_unfold, Hsplit.
      rewrite Hrun by (rewrite <- Hsplit; lia). reflexivity.
    + right. exists msg. rewrite H. reflexivity.
    + apply Forall_app in Heof as [_ Heof].
      apply Forall_cons in Heof as [Heof _].
      destruct (not_eof_eof_token Heof).
Qed.

(** ** The keys of the objects the parser builds *)

Lemma keeps_ret {A} (Q : A → Prop) (a : A) : Q a → keeps Q (ret a).
Proof. intros Ha self a' self' _ [= <- <-]. split; [reflexivity | exact Ha]. Qed.

Lemma keeps_raise {A} (Q : A → Prop) (e : exn) : keeps Q (raise e).
Proof. intros self a self' _ H. discriminate H. Qed.

Lemma keeps_out_of_fuel {A} (Q : A → Prop) : keeps Q out_of_fuel.
Proof. intros self a self' _ H. discriminate H. Qed.

Lemma keeps_bind {A B} (Q : A → Prop) (R : B → Prop) (c : M Parser.t A)
    (k : A → M Parser.t B) :
  keeps Q c → (∀ a, Q a → keeps R (k a)) → keeps R (bind c k).
Proof.
  intros Hc Hk self b self' Htokens Hrun. unfold bind in Hrun.
  destruct (c self) as [[a self1]| |] eqn:Hcs; [|discriminate Hrun..].
  destruct (Hc _ _ _ Htokens Hcs) as [Heq Ha].
  destruct (Hk a Ha self1 b self') as [Heq' Hb];
    [rewrite Heq; exact Htokens | exact Hrun |].
  split; [congruence | exact Hb].
Qed.

Lemma keeps_peek : keeps string_valued Parser.peek.
Proof.
  intros self t self' Htokens Hrun. unfold Parser.peek in Hrun.
  destruct (Parser.tokens self !! Parser.current self) as [t'|] eqn:Hlookup;
    [|discriminate Hrun].
  injection Hrun as <- <-. split; [reflexivity|].
  eapply Forall_lookup_1; eassumption.
Qed.

Lemma keeps_advance : keeps string_valued Parser.advance.
Proof.
  intros self t self' Htokens Hrun. unfold Parser.advance in Hrun.
  destruct (Parser.tokens self !! Parser.current self) as [t'|] eqn:Hlookup;
    [|discriminate Hrun].
  injection Hrun as <- <-. split; [reflexivity|].
  eapply Forall_lookup_1; eassumption.
Qed.

Lemma keeps_expect (token_type error_message : string) :
  keeps (λ t, string_valued t ∧ type t = token_type)
    (Parser.expect token_type error_message).
Proof.
  intros self t self' Htokens Hrun.
  unfold Parser.expect, bind, Parser.peek in Hrun.
  destruct (Parser.tokens self !! Parser.current self) as [t'|] eqn:Hlookup;
    [|discriminate Hrun].
  destruct (String.eqb (type t') token_type) eqn:Ht; cbn [negb] in Hrun;
    [|discriminate Hrun].
  unfold Parser.advance in Hrun. rewrite Hlookup in Hrun.
  injection Hrun as <- <-. apply String.eqb_eq in Ht.
  repeat split; [|exact Ht]. eapply Forall_lookup_1; eassumption.
Qed.

Lemma dict_set_keyed (obj : list (Literal * JsonValue)) (s : string)
    (v : JsonValue) :
  dict_keyed obj → string_keyed v → dict_keyed (dict_set obj (LStr s) v).
Proof.
  intros [Hobj Hkeys] Hv. split.
  - clear Hkeys. induction Hobj as [|[k w] obj Hb Hobj IH]; cbn [dict_set].
    + repeat constructor; [eexists; reflexivity | exact Hv].
    + destruct (decide (k = LStr s)) as [->|_].
      * constructor; [|assumption]. split; [eexists; reflexivity | exact Hv].
      * constructor; assumption.
  - rewrite dict_set_keys. apply add_key_NoDup, Hkeys.
Qed.

Lemma parse_object_loop_keeps (parse_value : M Parser.t JsonValue)
    (fuel : nat) (obj : list (Literal * JsonValue)) :
  keeps string_keyed parse_value →
  dict_keyed obj →
  keeps dict_keyed (Parser.parse_object_loop parse_value fuel obj).
Proof.
  intros Hrec. revert obj.
  induction fuel as [|fuel IH]; intros obj Hobj;
    [apply keeps_out_of_fuel|].
  cbn [Parser.parse_object_loop].
  eapply keeps_bind; [apply keeps_peek|]. intros token _.
  destruct (negb _); [|apply keeps_ret, Hobj].
  eapply keeps_bind; [apply keeps_expect|]. intros key [Hkey Htype].
  destruct (Hkey Htype) as [s Hs].
  eapply keeps_bind; [apply keeps_expect|]. intros _ _.
  eapply keeps_bind; [exact Hrec|]. intros v Hv. cbv zeta.
  assert (Hobj' : dict_keyed (dict_set obj (value key) v)).
  { rewrite Hs. apply dict_set_keyed; assumption. }
  eapply keeps_bind; [apply keeps_peek|]. intros token' _.
  destruct (String.eqb _ _); [|apply keeps_ret, Hobj'].
  eapply keeps_bind; [apply keeps_advance|]. intros _ _.
  apply IH, Hobj'.
Qed.

Lemma parse_array_loop_keeps (parse_value : M Parser.t JsonValue)
    (fuel : nat) (arr : list JsonValue) :
  keeps string_keyed parse_value →
  Forall string_keyed arr →
  keeps (Forall string_keyed) (Parser.parse_array_loop parse_value fuel arr).
Proof.
  intros Hrec. revert arr.
  induction fuel as [|fuel IH]; intros arr Harr;
    [apply keeps_out_of_fuel|].
  cbn [Parser.parse_array_loop].
  eapply keeps_bind; [apply keeps_peek|]. intros token _.
  destruct (negb _); [|apply keeps_ret, Harr].
  eapply keeps_bind; [exact Hrec|]. intros v Hv. cbv zeta.
  assert (Harr' : Forall string_keyed (arr ++ [v])).
  { apply Forall_app. split; [exact Harr | repeat constructor; exact Hv]. }
  eapply keeps_bind; [apply keeps_peek|]. intros token' _.
  destruct (String.eqb _ _); [|apply keeps_ret, Harr'].
  eapply keeps_bind; [apply keeps_advance|]. intros _ _.
  apply IH, Harr'.
Qed.

Lemma parse_value_keeps (fuel : nat) :
  keeps string_keyed (Parser.parse_value fuel).
Proof.
  induction fuel as [|fuel IH]; [apply keeps_out_of_fuel|].
  cbn [Parser.parse_value].
  eapply keeps_bind; [apply keeps_advance|]. intros token _.
  destruct (Parser.is_literal_type _); [apply keeps_ret; constructor|].
  destruct (String.eqb _ _).
  { unfold Parser.parse_object.
    eapply keeps_bind;
      [apply parse_object_loop_keeps;
       [exact IH | split; [constructor | apply NoDup_nil_2]]|].
    intros obj [Hobj Hkeys].
    eapply keeps_bind; [apply keeps_expect|]. intros _ _.
    apply keeps_ret. constructor; assumption. }
  destruct (String.eqb _ _); [|apply keeps_raise].
  unfold Parser.parse_array.
  eapply keeps_bind; [apply parse_array_loop_keeps; [exact IH | constructor]|].
  intros arr Harr.
  eapply keeps_bind; [apply keeps_expect|]. intros _ _.
  apply keeps_ret. constructor. exact Harr.
Qed.

(** X10. Every object in a value that the parser returns, at any depth,
    has [str] keys only, pairwise different: a key is the value of a token
    that [expect] has checked to be a [STRING] token, and the scanner
    builds [STRING] tokens from the text between two double quotes.  So it
    is for [parse] on any list of tokens whose [STRING] tokens hold a
    [str], which leaves the list as it is, and for every value that
    [parse_json] returns. *)
Theorem X10_keys_are_strings :
  (∀ (tokens : list Token) (v : JsonValue) (p : Parser.t),
     Forall string_valued tokens →
     Parser.parse (Parser.init tokens) = Ok (v, p) →
     Parser.tokens p = tokens ∧ string_keyed v)
  ∧ (∀ (json_str : string) (v : JsonValue),
       parse_json json_str = Ok v → string_keyed v).
Proof.
  assert (Hparse :
    ∀ (tokens : list Token) (v : JsonValue) (p : Parser.t),
      Forall string_valued tokens →
      Parser.parse (Parser.init tokens) = Ok (v, p) →
      Parser.tokens p = tokens ∧ string_keyed v).
  { intros tokens v p Htokens Hrun.
    apply (parse_value_keeps (S (length tokens)) (Parser.init tokens) v p);
      assumption. }
  split; [exact Hparse|].
  intros json_str v Hrun. unfold parse_json in Hrun.
  destruct (scan_tokens_string_values json_str)
    as [(tokens & Hscan & Htokens) | (msg & Hscan)]; unfold scan in Hscan;
    destruct (Scanner.scan_tokens _) as [[tokens' self]| |];
    try discriminate Hscan; try discriminate Hrun.
  injection Hscan as ->.
  destruct (Parser.parse _) as [[v' p]| |] eqn:Hp; [|discriminate Hrun..].
  injection Hrun as ->. exact (proj2 (Hparse tokens v p Htokens Hp)).
Qed.

Lemma X10_keys_are_strings_witness :
  let tokens :=
    [punctuation_token "{"; mkToken TokenType.STRING (LStr "a");
     punctuation_token ":"; mkToken TokenType.NULL LNone;
     punctuation_token "}"; eof_token] in
  (Parser.tokens (pat_ (take 5 tokens) [eof_token]) = tokens
   ∧ string_keyed (JDict [(LStr "a", JLit LNone)]))
  ∧ string_keyed
      (JDict [(LStr "a", JList [JDict [(LStr "b", JLit LNone)]])]).
Proof.
  intros tokens. split.
  - apply (proj1 X10_keys_are_strings tokens (JDict [(LStr "a", JLit LNone)])
             (pat_ (take 5 tokens) [eof_token])).
    + repeat constructor; intros H; try discriminate H.
      eexists; reflexivity.
    + reflexivity.
  - apply (proj2 X10_keys_are_strings (with_quotes "{'a':[{'b':null}]}")).
    reflexivity.
Defined.

(** ** Digits that are no decimal digits *)

Lemma py_int_unsigned (c : ascii) (text : list ascii) :
  c ≠ "-"%char → py_int (c :: text) = unsigned_value (c :: text).
Proof.
  intros Hc. destruct c as [[] [] [] [] [] [] [] []]; try reflexivity.
  destruct Hc. reflexivity.
Qed.







(** ** Integers written with decimal digits *)

Lemma decimal_class (d : ascii) :
  in_range 48 57 d = true →
  starts_number d = true ∧ is_number_char d = true
  ∧ Ascii.eqb "." d = false ∧ Ascii.eqb d "-" = false
  ∧ ∃ v, decimal_digit d = Some v ∧ (0 ≤ v)%Z.
Proof.
  intros Hd. unfold decimal_digit. rewrite Hd.
  destruct d as [[] [] [] [] [] [] [] []]; try discriminate Hd;
    (repeat split; try reflexivity; eexists; split; [reflexivity|];
     vm_compute; discriminate).
Qed.

Lemma digits_value_decimal (ds : list ascii) :
  Forall (λ d, in_range 48 57 d = true) ds →
  ∀ acc, (0 ≤ acc)%Z → ∃ z, digits_value acc ds = Some z ∧ (0 ≤ z)%Z.
Proof.
  induction 1 as [|d ds Hd _ IH]; intros acc Hacc; cbn [digits_value].
  - exists acc. split; [reflexivity | exact Hacc].
  - destruct (decimal_class d Hd) as (_ & _ & _ & _ & v & -> & Hv).
    apply IH. lia.
Qed.

Lemma digits_value_zeros (zeros ds : list ascii) :
  Forall (λ d, d = "0"%char) zeros →
  digits_value 0 (zeros ++ ds) = digits_value 0 ds.
Proof.
  induction 1 as [|d zeros -> _ IH]; [reflexivity | exact IH].
Qed.

(** The scan of a text of decimal digits: one [NUMBER] token within the
    limit of [int], the [ValueError] of [int] over it. *)
Lemma scan_decimal (ds : list ascii) :
  ds ≠ [] →
  Forall (λ d, in_range 48 57 d = true) ds →
  scan (string_of_list_ascii ds)
  = match py_int ds with
    | Some z => Ok [mkToken TokenType.NUMBER (LInt z); eof_token]
    | None =>
        Raise (ValueError
                 ("invalid literal for int() with base 10: " ++ repr ds))
    end
  ∧ py_int ds
    = if Nat.ltb int_max_str_digits (length ds) then None
      else digits_value 0 ds.
Proof.
  intros Hne Hds. destruct ds as [|c run]; [done|].
  apply Forall_cons in Hds as [Hc Hrun].
  destruct (decimal_class c Hc) as (Hstart & _ & Hpoint & Hminus & _).
  split; [|rewrite py_int_unsigned by (intros ->; discriminate Hminus);
           reflexivity].
  rewrite scan_unfold, list_ascii_of_string_of_list_ascii.
  pose proof (scan_tokens_loop_number_at (length (c :: run)) [] [] c run [])
    as Hloop.
  rewrite app_nil_r in Hloop. rewrite Hloop; clear Hloop;
    [|assumption
     |eapply Forall_impl; [exact Hrun|]; intros d Hd;
      apply (decimal_class d Hd)
     |reflexivity].
  cbv zeta.
  assert (Hnopoint : existsb (Ascii.eqb ".") (c :: run) = false).
  { cbn [existsb]. rewrite Hpoint. cbn [orb]. clear Hne.
    induction Hrun as [|d run Hd _ IH]; [reflexivity|].
    cbn [existsb]. destruct (decimal_class d Hd) as (_ & _ & -> & _).
    exact IH. }
  rewrite Hnopoint. destruct (py_int (c :: run)) as [z|]; [|reflexivity].
  cbn [length]. rewrite scan_tokens_loop_end. reflexivity.
Qed.

(** X12. An integer may be written with leading zeros, up to the limit of
    [int]: a text of decimal digits scans to one [NUMBER] token with an
    [int] that is not negative, and with zeros before it the text scans to
    the same token and [parse_json] returns the same integer, as long as
    the text with its zeros has at most 4300 digits; with more digits,
    leading zeros counted, [int] refuses the text and the scan and
    [parse_json] raise [ValueError]. *)
Theorem X12_leading_zeros :
  ∀ (zeros ds : list ascii),
    Forall (λ d, d = "0"%char) zeros →
    ds ≠ [] →
    Forall (λ d, in_range 48 57 d = true) ds →
    (length (zeros ++ ds) ≤ int_max_str_digits →
     ∃ z : Z,
       (0 ≤ z)%Z
       ∧ digits_value 0 ds = Some z
       ∧ scan (string_of_list_ascii ds)
         = Ok [mkToken TokenType.NUMBER (LInt z); eof_token]
       ∧ scan (string_of_list_ascii (zeros ++ ds))
         = Ok [mkToken TokenType.NUMBER (LInt z); eof_token]
       ∧ parse_json (string_of_list_ascii (zeros ++ ds))
         = Ok (JLit (LInt z)))
    ∧ (int_max_str_digits < length (zeros ++ ds) →
       ∃ msg : string,
         scan (string_of_list_ascii (zeros ++ ds)) = Raise (ValueError msg)
         ∧ parse_json (string_of_list_ascii (zeros ++ ds))
           = Raise (ValueError msg))
    ∧ int_max_str_digits = 4300.
Proof.
  intros zeros ds Hzeros Hne Hds.
  assert (Hne' : zeros ++ ds ≠ []).
  { destruct zeros; [exact Hne | discriminate]. }
  assert (Hall : Forall (λ d, in_range 48 57 d = true) (zeros ++ ds)).
  { apply Forall_app. split; [|exact Hds].
    eapply Forall_impl; [exact Hzeros|]. intros d ->. reflexivity. }
  destruct (scan_decimal _ Hne' Hall) as [Hscan Hint].
  destruct (scan_decimal _ Hne Hds) as [Hscan0 Hint0].
  split; [|split; [|reflexivity]].
  - intros Hlen.
    destruct (digits_value_decimal ds Hds 0) as (z & Hz & Hpos); [lia|].
    assert (Hshort : length ds ≤ int_max_str_digits).
    { rewrite length_app in Hlen. lia. }
    apply Nat.ltb_ge in Hlen, Hshort.
    rewrite Hlen, digits_value_zeros, Hz in Hint by assumption.
    rewrite Hshort, Hz in Hint0.
    rewrite Hint in Hscan. rewrite Hint0 in Hscan0.
    exists z. repeat split; try assumption.
    rewrite (parse_json_scan _ _ Hscan). reflexivity.
  - intros Hlen. apply Nat.ltb_lt in Hlen.
    rewrite Hlen in Hint. rewrite Hint in Hscan.
    eexists. split; [exact Hscan|].
    unfold scan in Hscan. unfold parse_json.
    destruct (Scanner.scan_tokens _) as [[tokens self]| |];
      [discriminate Hscan | | discriminate Hscan].
    injection Hscan as ->. reflexivity.
Qed.

Lemma X12_leading_zeros_witness :
  (∃ z : Z,
     (0 ≤ z)%Z
     ∧ digits_value 0 ["4"; "2"]%char = Some z
     ∧ scan "42" = Ok [mkToken TokenType.NUMBER (LInt z); eof_token]
     ∧ scan "0042" = Ok [mkToken TokenType.NUMBER (LInt z); eof_token]
     ∧ parse_json "0042" = Ok (JLit (LInt z)))
  ∧ ∃ msg : string,
      scan (string_of_list_ascii (replicate 4299 "0"%char ++ ["4"; "2"]%char))
      = Raise (ValueError msg)
      ∧ parse_json
          (string_of_list_ascii (replicate 4299 "0"%char ++ ["4"; "2"]%char))
        = Raise (ValueError msg).
Proof.
  split.
  - apply (X12_leading_zeros ["0"; "0"]%char ["4"; "2"]%char).
    + repeat constructor.
    + discriminate.
    + repeat constructor.
    + apply Nat.leb_le. reflexivity.
  - apply (X12_leading_zeros (replicate 4299 "0"%char) ["4"; "2"]%char).
    + apply Forall_replicate. reflexivity.
    + discriminate.
    + repeat constructor.
    + apply Nat.ltb_lt. vm_compute. reflexivity.
Defined.

(** ** The lists of tokens that are values *)

(** What [parse_value], and the two loops with it, do on the lists of
    tokens that [accepts] describes. *)
Lemma accepts_complete :
  (∀ run v, accepts run v →
     ∀ fuel pre tail, length run < fuel →
       Parser.parse_value fuel (pat_ pre (run ++ tail))
       = Ok (v, pat_ (pre ++ run) tail))
  ∧ (∀ body items, array_body body items →
       ∀ fuel n arr pre closing tail,
         length body < fuel → length body < n →
         type closing = TokenType.RIGHT_BRACKET →
         Parser.parse_array_loop (Parser.parse_value fuel) n arr
           (pat_ pre (body ++ closing :: tail))
         = Ok (arr ++ items, pat_ (pre ++ body) (closing :: tail)))
  ∧ (∀ body entries, object_body body entries →
       ∀ fuel n obj pre closing tail,
         length body < fuel → length body < n →
         type closing = TokenType.RIGHT_BRACE →
         Parser.parse_object_loop (Parser.parse_value fuel) n obj
           (pat_ pre (body ++ closing :: tail))
         = Ok (dict_update obj entries,
               pat_ (pre ++ body) (closing :: tail))).
Proof.
  apply accepts_mutual.
  - intros t Ht fuel pre tail Hfuel.
    destruct fuel as [|fuel]; [simpl in Hfuel; lia|].
    cbn [app]. rewrite parse_value_step, Ht. reflexivity.
  - intros opening closing body entries Hopening Hclosing _ IH fuel pre tail
      Hfuel.
    destruct fuel as [|fuel]; [simpl in Hfuel; lia|].
    cbn [length] in Hfuel. rewrite length_app in Hfuel. cbn [length] in Hfuel.
    cbn [app]. rewrite parse_value_step, Hopening.
    change (Parser.is_literal_type TokenType.LEFT_BRACE) with false.
    rewrite String.eqb_refl. unfold Parser.parse_object, bind, ret.
    rewrite <- app_assoc. cbn [app].
    rewrite IH by (assumption || lia).
    rewrite expect_pat, Hclosing, String.eqb_refl.
    rewrite <- !app_assoc. reflexivity.
  - intros opening closing body items Hopening Hclosing _ IH fuel pre tail
      Hfuel.
    destruct fuel as [|fuel]; [simpl in Hfuel; lia|].
    cbn [length] in Hfuel. rewrite length_app in Hfuel. cbn [length] in Hfuel.
    cbn [app]. rewrite parse_value_step, Hopening.
    change (Parser.is_literal_type TokenType.LEFT_BRACKET) with false.
    change (String.eqb TokenType.LEFT_BRACKET TokenType.LEFT_BRACE)
      with false.
    rewrite String.eqb_refl. unfold Parser.parse_array, bind, ret.
    rewrite <- app_assoc. cbn [app].
    rewrite IH by (assumption || lia).
    rewrite expect_pat, Hclosing, String.eqb_refl.
    rewrite <- !app_assoc. reflexivity.
  - intros fuel n arr pre closing tail _ Hn Hclosing.
    destruct n as [|n]; [simpl in Hn; lia|].
    cbn [Parser.parse_array_loop app]. unfold bind, ret.
    rewrite peek_pat, Hclosing, String.eqb_refl. cbn [negb].
    rewrite !app_nil_r. reflexivity.
  - intros run v _ IH fuel n arr pre closing tail Hfuel Hn Hclosing.
    destruct n as [|n]; [simpl in Hn; lia|].
    pose proof (parses_as_head fuel run v (λ pre tail, IH fuel pre tail Hfuel))
      as (t & run' & Erun & Ht & _).
    cbn [Parser.parse_array_loop]. unfold bind, ret.
    assert (Hpeek :
      Parser.peek (pat_ pre (run ++ closing :: tail))
      = Ok (t, pat_ pre (run ++ closing :: tail))).
    { rewrite Erun. cbn [app]. apply peek_pat. }
    rewrite Hpeek, Ht. cbn [negb].
    rewrite IH by assumption.
    rewrite peek_pat, Hclosing.
    change (String.eqb TokenType.RIGHT_BRACKET TokenType.COMMA) with false.
    reflexivity.
  - intros run v comma body items _ IHrun Hcomma _ IHbody fuel n arr pre
      closing tail Hfuel Hn Hclosing.
    rewrite length_app in Hfuel, Hn. cbn [length] in Hfuel, Hn.
    destruct n as [|n]; [lia|].
    assert (Hrun : length run < fuel) by lia.
    pose proof (parses_as_head fuel run v
                  (λ pre tail, IHrun fuel pre tail Hrun))
      as (t & run' & Erun & Ht & _).
    cbn [Parser.parse_array_loop]. unfold bind, ret.
    rewrite <- app_assoc. cbn [app].
    assert (Hpeek : ∀ tail',
      Parser.peek (pat_ pre (run ++ tail'))
      = Ok (t, pat_ pre (run ++ tail'))).
    { intros. rewrite Erun. cbn [app]. apply peek_pat. }
    rewrite Hpeek, Ht. cbn [negb].
    rewrite IHrun by assumption.
    rewrite peek_pat, Hcomma, String.eqb_refl, advance_pat.
    rewrite IHbody by (assumption || lia).
    rewrite <- !app_assoc. reflexivity.
  - intros fuel n obj pre closing tail _ Hn Hclosing.
    destruct n as [|n]; [simpl in Hn; lia|].
    cbn [Parser.parse_object_loop app]. unfold bind, ret.
    rewrite peek_pat, Hclosing, String.eqb_refl. cbn [negb].
    rewrite !app_nil_r. reflexivity.
  - intros key colon run v Hkey Hcolon _ IH fuel n obj pre closing tail
      Hfuel Hn Hclosing.
    cbn [length] in Hfuel.
    destruct n as [|n]; [simpl in Hn; lia|].
    cbn [Parser.parse_object_loop app]. unfold bind, ret.
    rewrite peek_pat, Hkey.
    change (String.eqb TokenType.STRING TokenType.RIGHT_BRACE) with false.
    cbn [negb].
    rewrite expect_pat, Hkey, String.eqb_refl.
    rewrite expect_pat, Hcolon, String.eqb_refl.
    rewrite IH by lia.
    rewrite peek_pat, Hclosing.
    change (String.eqb TokenType.RIGHT_BRACE TokenType.COMMA) with false.
    rewrite <- !app_assoc. reflexivity.
  - intros key colon run v comma body entries Hkey Hcolon _ IHrun Hcomma _
      IHbody fuel n obj pre closing tail Hfuel Hn Hclosing.
    cbn [length] in Hfuel, Hn. rewrite length_app in Hfuel, Hn.
    cbn [length] in Hfuel, Hn.
    destruct n as [|n]; [lia|].
    cbn [Parser.parse_object_loop app]. unfold bind, ret.
    rewrite peek_pat, Hkey.
    change (String.eqb TokenType.STRING TokenType.RIGHT_BRACE) with false.
    cbn [negb].
    rewrite expect_pat, Hkey, String.eqb_refl.
    rewrite expect_pat, Hcolon, String.eqb_refl.
    rewrite <- (app_assoc run). cbn [app].
    rewrite IHrun by lia.
    rewrite peek_pat, Hcomma, String.eqb_refl, advance_pat.
    rewrite IHbody by (assumption || lia).
    rewrite <- !app_assoc. reflexivity.
Qed.

(** What the two loops have read when they return, for a recursive call
    that reads values only. *)
Lemma parse_array_loop_sound (parse_value : M Parser.t JsonValue) :
  (∀ pre rest v p,
     parse_value (pat_ pre rest) = Ok (v, p) →
     ∃ run rest',
       rest = run ++ rest' ∧ accepts run v ∧ p = pat_ (pre ++ run) rest') →
  ∀ n arr pre rest arr' p,
    Parser.parse_array_loop parse_value n arr (pat_ pre rest) = Ok (arr', p) →
    ∃ body items rest',
      rest = body ++ rest' ∧ array_body body items ∧ arr' = arr ++ items
      ∧ p = pat_ (pre ++ body) rest'.
Proof.
  intros Hrec. induction n as [|n IH]; intros arr pre rest arr' p Hrun;
    [discriminate Hrun|].
  cbn [Parser.parse_array_loop] in Hrun. unfold bind, ret in Hrun.
  rewrite peek_pat in Hrun. destruct rest as [|t rest1]; [discriminate Hrun|].
  destruct (String.eqb (type t) TokenType.RIGHT_BRACKET) eqn:Ht;
    cbn [negb] in Hrun.
  - injection Hrun as <- <-. exists [], [], (t :: rest1).
    rewrite !app_nil_r. repeat split. constructor.
  - destruct (parse_value (pat_ pre (t :: rest1))) as [[v p1]| |] eqn:Hv;
      [|discriminate Hrun..].
    apply Hrec in Hv as (run & rest2 & Hsplit & Hacc & ->).
    rewrite peek_pat in Hrun.
    destruct rest2 as [|t2 rest3]; [discriminate Hrun|].
    destruct (String.eqb (type t2) TokenType.COMMA) eqn:Ht2.
    + rewrite advance_pat in Hrun.
      apply IH in Hrun as (body & items & rest' & -> & Hbody & -> & ->).
      exists (run ++ t2 :: body), (v :: items), rest'. rewrite Hsplit.
      apply String.eqb_eq in Ht2.
      split; [rewrite <- app_assoc; reflexivity|].
      split; [constructor; assumption|].
      split; rewrite <- !app_assoc; reflexivity.
    + injection Hrun as <- <-. exists run, [v], (t2 :: rest3).
      repeat split; [assumption | constructor; assumption].
Qed.

Lemma parse_object_loop_sound (parse_value : M Parser.t JsonValue) :
  (∀ pre rest v p,
     parse_value (pat_ pre rest) = Ok (v, p) →
     ∃ run rest',
       rest = run ++ rest' ∧ accepts run v ∧ p = pat_ (pre ++ run) rest') →
  ∀ n obj pre rest obj' p,
    Parser.parse_object_loop parse_value n obj (pat_ pre rest) = Ok (obj', p) →
    ∃ body entries rest',
      rest = body ++ rest' ∧ object_body body entries
      ∧ obj' = dict_update obj entries ∧ p = pat_ (pre ++ body) rest'.
Proof.
  intros Hrec. induction n as [|n IH]; intros obj pre rest obj' p Hrun;
    [discriminate Hrun|].
  cbn [Parser.parse_object_loop] in Hrun. unfold bind, ret in Hrun.
  rewrite peek_pat in Hrun. destruct rest as [|key rest1]; [discriminate Hrun|].
  destruct (String.eqb (type key) TokenType.RIGHT_BRACE) eqn:Hbrace;
    cbn [negb] in Hrun.
  - injection Hrun as <- <-. exists [], [], (key :: rest1).
    rewrite !app_nil_r. repeat split. constructor.
  - rewrite expect_pat in Hrun.
    destruct (String.eqb (type key) TokenType.STRING) eqn:Hkey;
      [|discriminate Hrun].
    rewrite expect_pat in Hrun.
    destruct rest1 as [|colon rest2]; [discriminate Hrun|].
    destruct (String.eqb (type colon) TokenType.COLON) eqn:Hcolon;
      [|discriminate Hrun].
    apply String.eqb_eq in Hkey, Hcolon.
    destruct (parse_value (pat_ ((pre ++ [key]) ++ [colon]) rest2))
      as [[v p1]| |] eqn:Hv; [|discriminate Hrun..].
    apply Hrec in Hv as (run & rest3 & -> & Hacc & ->).
    rewrite peek_pat in Hrun.
    destruct rest3 as [|t rest4]; [discriminate Hrun|].
    destruct (String.eqb (type t) TokenType.COMMA) eqn:Ht.
    + rewrite advance_pat in Hrun.
      apply IH in Hrun as (body & entries & rest' & -> & Hbody & -> & ->).
      exists (key :: colon :: run ++ t :: body), ((value key, v) :: entries),
        rest'.
      apply String.eqb_eq in Ht.
      split; [cbn [app]; rewrite <- app_assoc; reflexivity|].
      split; [constructor; assumption|].
      split; [reflexivity|]. rewrite <- !app_assoc. reflexivity.
    + injection Hrun as <- <-.
      exists (key :: colon :: run), [(value key, v)], (t :: rest4).
      split; [reflexivity|]. split; [constructor; assumption|].
      split; [reflexivity|]. rewrite <- !app_assoc. reflexivity.
Qed.

Lemma parse_value_sound (fuel : nat) :
  ∀ pre rest v p,
    Parser.parse_value fuel (pat_ pre rest) = Ok (v, p) →
    ∃ run rest',
      rest = run ++ rest' ∧ accepts run v ∧ p = pat_ (pre ++ run) rest'.
Proof.
  induction fuel as [|fuel IH]; intros pre rest v p Hrun;
    [discriminate Hrun|].
  destruct rest as [|t rest].
  { cbn [Parser.parse_value] in Hrun. unfold bind in Hrun.
    rewrite advance_pat in Hrun. discriminate Hrun. }
  rewrite parse_value_step in Hrun.
  destruct (Parser.is_literal_type (type t)) eqn:Hlit.
  { injection Hrun as <- <-. exists [t], rest.
    repeat split. constructor. exact Hlit. }
  destruct (String.eqb (type t) TokenType.LEFT_BRACE) eqn:Hbrace.
  { apply String.eqb_eq in Hbrace.
    unfold Parser.parse_object, bind, ret in Hrun.
    destruct (Parser.parse_object_loop _ _ _ _) as [[obj p1]| |] eqn:Hloop;
      [|discriminate Hrun..].
    apply (parse_object_loop_sound _ IH) in Hloop
      as (body & entries & rest' & -> & Hbody & -> & ->).
    rewrite expect_pat in Hrun.
    destruct rest' as [|closing rest']; [discriminate Hrun|].
    destruct (String.eqb (type closing) TokenType.RIGHT_BRACE) eqn:Hclosing;
      [|discriminate Hrun].
    apply String.eqb_eq in Hclosing. injection Hrun as <- <-.
    exists (t :: body ++ [closing]), rest'.
    split; [cbn [app]; rewrite <- app_assoc; reflexivity|].
    split; [constructor; assumption|].
    rewrite <- !app_assoc. reflexivity. }
  destruct (String.eqb (type t) TokenType.LEFT_BRACKET) eqn:Hbracket;
    [|discriminate Hrun].
  apply String.eqb_eq in Hbracket.
  unfold Parser.parse_array, bind, ret in Hrun.
  destruct (Parser.parse_array_loop _ _ _ _) as [[arr p1]| |] eqn:Hloop;
    [|discriminate Hrun..].
  apply (parse_array_loop_sound _ IH) in Hloop
    as (body & items & rest' & -> & Hbody & -> & ->).
  rewrite expect_pat in Hrun.
  destruct rest' as [|closing rest']; [discriminate Hrun|].
  destruct (String.eqb (type closing) TokenType.RIGHT_BRACKET) eqn:Hclosing;
    [|discriminate Hrun].
  apply String.eqb_eq in Hclosing. injection Hrun as <- <-.
  exists (t :: body ++ [closing]), rest'.
  split; [cbn [app]; rewrite <- app_assoc; reflexivity|].
  split; [constructor; assumption|].
  rewrite <- !app_assoc. reflexivity.
Qed.

(** X13. The language of the parser.  [parse_value] returns a value [v]
    exactly on the lists of tokens that [accepts] describes: whenever it
    returns, the tokens it has read are a literal token, or an opening
    brace, entries and a closing brace, or an opening bracket, elements and
    a closing bracket, with commas between the elements (entries) and
    possibly one after the last, and [v] is the value they describe; and on
    every such list it returns that value, with as much fuel as the list has
    tokens and one more, whatever comes before and after.  So [parse_json]
    returns [v] exactly when the tokens of the input start with such a list
    for [v]; what follows it is not looked at. *)
Theorem X13_parser_language :
  (∀ (fuel : nat) (pre rest : list Token) (v : JsonValue) (p : Parser.t),
     Parser.parse_value fuel (pat_ pre rest) = Ok (v, p) →
     ∃ run rest',
       rest = run ++ rest' ∧ accepts run v ∧ p = pat_ (pre ++ run) rest')
  ∧ (∀ (run : list Token) (v : JsonValue) (fuel : nat)
       (pre tail : list Token),
       accepts run v →
       length run < fuel →
       Parser.parse_value fuel (pat_ pre (run ++ tail))
       = Ok (v, pat_ (pre ++ run) tail))
  ∧ (∀ (json_str : string) (v : JsonValue),
       parse_json json_str = Ok v
       ↔ ∃ run extra,
           scan json_str = Ok (run ++ extra ++ [eof_token])
           ∧ accepts run v).
Proof.
  split; [exact parse_value_sound|]. split.
  { intros run v fuel pre tail Hrun Hfuel.
    apply (proj1 accepts_complete); assumption. }
  intros json_str v. split.
  - intros Hjson.
    destruct (scan_by_run json_str) as ([new|msg] & Hscan & _ & _).
    + rewrite (parse_json_scan _ _ Hscan) in Hjson.
      destruct (Parser.parse _) as [[v' p]| |] eqn:Hparse;
        [|discriminate Hjson..].
      injection Hjson as ->. rewrite parse_unfold in Hparse.
      pose proof (parse_value_forward _ _ _ _ _ Hparse)
        as (consumed & rest0 & Hsplit0 & _ & Hc & Hp0).
      apply parse_value_sound in Hparse as (run & rest' & Hsplit & Hacc & Hp).
      assert (Hsame : run = consumed).
      { rewrite Hp in Hp0. injection Hp0 as Htokens Hcurrent.
        cbn [app] in Htokens.
        apply app_inj_1 in Htokens as [Hsame _]; [exact Hsame|].
        cbn [app] in Hcurrent. exact Hcurrent. }
      subst consumed. symmetry in Hsplit.
      destruct (prefix_before_eof _ _ _ Hsplit Hc) as (extra & -> & ->).
      exists run, extra. rewrite Hscan, <- app_assoc. split; [reflexivity|].
      exact Hacc.
    + unfold scan in Hscan. unfold parse_json in Hjson.
      destruct (Scanner.scan_tokens _) as [[tokens self]| |];
        discriminate Hscan || discriminate Hjson.
  - intros (run & extra & Hscan & Hacc).
    rewrite (parse_json_scan _ _ Hscan), parse_unfold.
    rewrite (proj1 accepts_complete run v Hacc); [reflexivity|].
    rewrite length_app. lia.
Qed.

Lemma X13_parser_language_witness :
  let one := mkToken TokenType.NUMBER (LInt 1) in
  (∃ run rest',
     [punctuation_token "["; one; punctuation_token ","; punctuation_token "]";
      eof_token] = run ++ rest'
     ∧ accepts run (JList [JLit (LInt 1)])
     ∧ pat_ [punctuation_token "["; one; punctuation_token ",";
              punctuation_token "]"] [eof_token]
       = pat_ ([] ++ run) rest')
  ∧ Parser.parse_value 2 (pat_ [] ([one] ++ [eof_token]))
    = Ok (JLit (LInt 1), pat_ ([] ++ [one]) [eof_token])
  ∧ parse_json "[1,]" = Ok (JList [JLit (LInt 1)]).
Proof.
  intros one.
  destruct X13_parser_language as (Hsound & Hcomplete & Hjson).
  split; [|split].
  - apply (Hsound 5 []
             [punctuation_token "["; one; punctuation_token ",";
              punctuation_token "]"; eof_token]).
    reflexivity.
  - apply (Hcomplete [one] (JLit (LInt 1)) 2 [] [eof_token]).
    + apply (accepts_literal one). reflexivity.
    + simpl. lia.
  - apply (proj2 (Hjson "[1,]"%string (JList [JLit (LInt 1)]))).
    exists [punctuation_token "["; one; punctuation_token ",";
            punctuation_token "]"], [].
    split; [reflexivity|].
    apply (accepts_array (punctuation_token "[") (punctuation_token "]")
             [one; punctuation_token ","] [JLit (LInt 1)]);
      [reflexivity | reflexivity|].
    apply (array_body_cons [one] (JLit (LInt 1)) (punctuation_token ",")
             [] []); [|reflexivity | constructor].
    apply (accepts_literal one). reflexivity.
Defined.
